(** * Meeting intake and scheduling engine (scripts/inbox-monitor)

    A shallow embedding of [calendar_pg.py] (the meeting store),
    [scheduler_pg.py] (intake pipeline and join scheduler),
    [idle_monitor.py] (the IMAP IDLE supervisor) and the address and link
    parsers of [monitor.py], with the properties the specification states
    about them and further properties read off the code.

    Conventions.
    - A [datetime] is what Python has: a wall-clock reading in
      microseconds since 0001-01-01T00:00:00, alone (naive) or with the
      UTC offset its [tzinfo] answers for a reading (aware). Comparing or
      subtracting a naive and an aware one raises [TypeError]; adding a
      [timedelta] moves the wall clock and raises [OverflowError] outside
      the years 1 to 9999.
    - The [meetings] table is the list of its rows in insertion order
      together with the counter behind [SERIAL] / [AUTOINCREMENT]. A row
      holds its times as Python reads them back: under PostgreSQL
      ([TIMESTAMPTZ]) the instant in the session's time zone, under SQLite
      ([TEXT]) what [fromisoformat] makes of the ISO text written.
    - The two branches of every query are kept apart. PostgreSQL compares
      instants; a reading without zone is taken in the session's time
      zone. SQLite compares what its [datetime()] makes of the ISO texts
      and sorts the texts themselves. [datetime()] and the session's time
      zone belong to the database engines: the environment provides them.
      Rows of equal sort key come in insertion order.
    - [datetime.now()] reads a clock: the environment gives the instant
      and the local UTC offset of the k-th reading, the world counts the
      readings made so far.
    - Calls to collaborators (RSVP sender, Kubernetes job creation) are
      recorded in an event log carried by the world.
    - Strings hold what both stores accept as [TEXT]. *)

From Stdlib Require Import ZArith List String Ascii Bool Lia DecimalString.
From Stdlib Require Import Sorting.Sorted Sorting.Permutation Relations.
Import ListNotations.
Open Scope Z_scope.

(* ------------------------------------------------------------------ *)
(** ** Outcomes *)

Inductive driver := Psycopg2 | Sqlite3.

Definition driver_eqb (a b : driver) : bool :=
  match a, b with
  | Psycopg2, Psycopg2 | Sqlite3, Sqlite3 => true
  | _, _ => false
  end.

(** The exceptions the engine can meet: a violated [UNIQUE] constraint, a
    naive datetime compared with an aware one, a date or an integer out of
    range on the Python side, a value the database refuses. *)
Inductive exn :=
| IntegrityError (d : driver)
| TypeError
| OverflowError
| DataError.

Inductive Result (A : Type) :=
| Ok (a : A)
| Raise (e : exn).
Arguments Ok {A} a.
Arguments Raise {A} e.

(* ------------------------------------------------------------------ *)
(** ** Time *)

(** A [timedelta], in microseconds. *)
Definition timedelta_minutes (m : Z) : Z := m * 60 * 1000000.
Definition timedelta_hours (h : Z) : Z := h * 3600 * 1000000.
Definition timedelta_days (d : Z) : Z := d * 86400 * 1000000.

(** [timedelta(minutes=m)] raises [OverflowError] beyond 999999999 days. *)
Definition timedelta_of_minutes (m : Z) : Result Z :=
  let days := timedelta_minutes m / timedelta_days 1 in
  if (-999999999 <=? days) && (days <=? 999999999)
  then Ok (timedelta_minutes m) else Raise OverflowError.

Inductive datetime :=
| Naive (wall : Z)
| Aware (wall : Z) (utcoffset : Z -> Z).

Definition wall_clock (d : datetime) : Z :=
  match d with
  | Naive w => w
  | Aware w _ => w
  end.

(** [d.utcoffset()] *)
Definition offset_of (d : datetime) : option Z :=
  match d with
  | Naive _ => None
  | Aware w f => Some (f w)
  end.

(** The instant of an aware datetime, in microseconds since
    0001-01-01T00:00:00 UTC. *)
Definition utc (w : Z) (f : Z -> Z) : Z := w - f w.

(** The first reading after 9999-12-31T23:59:59.999999. *)
Definition MAX_WALL : Z := timedelta_days 3652059.

(** [d + timedelta]: the wall clock moves, the [tzinfo] stays. *)
Definition dt_add (d : datetime) (delta : Z) : Result datetime :=
  let w := wall_clock d + delta in
  if (0 <=? w) && (w <? MAX_WALL)
  then Ok match d with
          | Naive _ => Naive w
          | Aware _ f => Aware w f
          end
  else Raise OverflowError.

(** [a < b] and [a - b]. With two aware operands Python goes by the
    instants unless both carry the same [tzinfo] object; here one operand
    is always a reading of the clock, whose [astimezone()] builds a
    [tzinfo] of its own. *)
Definition dt_lt (a b : datetime) : Result bool :=
  match a, b with
  | Naive x, Naive y => Ok (x <? y)
  | Aware x f, Aware y g => Ok (utc x f <? utc y g)
  | _, _ => Raise TypeError
  end.

Definition dt_sub (a b : datetime) : Result Z :=
  match a, b with
  | Naive x, Naive y => Ok (x - y)
  | Aware x f, Aware y g => Ok (utc x f - utc y g)
  | _, _ => Raise TypeError
  end.

(** A time of day on 2024-01-01, in UTC, for examples. *)
Definition day_2024 : Z := timedelta_days 738885.
Definition instant_hm (h m : Z) : Z :=
  day_2024 + timedelta_hours h + timedelta_minutes m.
Definition at_hm (h m : Z) : datetime := Aware (instant_hm h m) (fun _ => 0).

(* ------------------------------------------------------------------ *)
(** ** Strings *)

Definition str_eqb (a b : string) : bool := String.eqb a b.

(** Python truthiness of a [str]: the empty string is falsy. *)
Definition nonempty (s : string) : bool := negb (str_eqb s EmptyString).

(** [needle in hay] for Python strings. *)
Fixpoint str_in (needle hay : string) : bool :=
  if String.prefix needle hay then true
  else match hay with
       | EmptyString => false
       | String _ rest => str_in needle rest
       end.

(** [status in (...)] for a tuple of literals. *)
Definition status_in (s : string) (l : list string) : bool :=
  existsb (str_eqb s) l.

(* ------------------------------------------------------------------ *)
(** ** ISO texts: [datetime.isoformat()] *)

Definition digit_char (n : Z) : ascii := ascii_of_nat (48 + Z.to_nat (n mod 10)).

(** [%02d], [%04d] and [%06d] of a number that fits. *)
Definition pad2 (n : Z) : string :=
  String (digit_char (n / 10)) (String (digit_char n) EmptyString).
Definition pad4 (n : Z) : string := (pad2 (n / 100) ++ pad2 (n mod 100))%string.
Definition pad6 (n : Z) : string := (pad2 (n / 10000) ++ pad4 (n mod 10000))%string.

Definition days_before_month (month : Z) : Z :=
  nth (Z.to_nat month) [0; 0; 31; 59; 90; 120; 151; 181; 212; 243; 273; 304; 334] 0.
Definition days_in_month (month : Z) : Z :=
  nth (Z.to_nat month) [0; 31; 28; 31; 30; 31; 30; 31; 31; 30; 31; 30; 31] 0.

(** [_ord2ymd] of the [datetime] module, on the days since 0001-01-01. *)
Definition ord2ymd (n0 : Z) : Z * Z * Z :=
  let n400 := n0 / 146097 in
  let n := n0 mod 146097 in
  let n100 := n / 36524 in
  let n := n mod 36524 in
  let n4 := n / 1461 in
  let n := n mod 1461 in
  let n1 := n / 365 in
  let n := n mod 365 in
  let year := n400 * 400 + 1 + n100 * 100 + n4 * 4 + n1 in
  if (n1 =? 4) || (n100 =? 4) then (year - 1, 12, 31)
  else
    let leapyear := (n1 =? 3) && (negb (n4 =? 24) || (n100 =? 3)) in
    let month := (n + 50) / 32 in
    let preceding := days_before_month month
                     + (if (2 <? month) && leapyear then 1 else 0) in
    if n <? preceding then
      let month := month - 1 in
      let preceding := preceding
                       - (days_in_month month
                          + (if (month =? 2) && leapyear then 1 else 0)) in
      (year, month, n - preceding + 1)
    else (year, month, n - preceding + 1).

(** [_format_offset]: sign, hours and minutes, then seconds and
    microseconds when there are any. *)
Definition format_offset (off : Z) : string :=
  let sign : string := if off <? 0 then "-"%string else "+"%string in
  let a := Z.abs off in
  let hh := a / timedelta_hours 1 in
  let mm := a mod timedelta_hours 1 / timedelta_minutes 1 in
  let ss := a mod timedelta_minutes 1 / 1000000 in
  let us := a mod 1000000 in
  let fraction : string :=
    if us =? 0 then EmptyString else ("." ++ pad6 us)%string in
  let seconds : string :=
    if (ss =? 0) && (us =? 0) then EmptyString
    else (":" ++ pad2 ss ++ fraction)%string in
  (sign ++ pad2 hh ++ ":" ++ pad2 mm ++ seconds)%string.

Definition isoformat (d : datetime) : string :=
  let w := wall_clock d in
  let '(y, m, dd) := ord2ymd (w / timedelta_days 1) in
  let t := w mod timedelta_days 1 in
  let us := t mod 1000000 in
  let fraction : string :=
    if us =? 0 then EmptyString else ("." ++ pad6 us)%string in
  let offset : string :=
    match offset_of d with
    | None => EmptyString
    | Some off => format_offset off
    end in
  (pad4 y ++ "-" ++ pad2 m ++ "-" ++ pad2 dd ++ "T"
   ++ pad2 (t / timedelta_hours 1) ++ ":"
   ++ pad2 (t mod timedelta_hours 1 / timedelta_minutes 1) ++ ":"
   ++ pad2 (t mod timedelta_minutes 1 / 1000000)
   ++ fraction ++ offset)%string.

(* ------------------------------------------------------------------ *)
(** ** Data model: [Meeting] (calendar_pg.py) and [MeetingInvite] (monitor.py) *)

Record Meeting := mkMeeting {
  id : option Z;
  project : string;
  title : string;
  start_time : datetime;
  end_time : option datetime;
  join_url : string;
  platform : string;
  from_address : string;
  to_address : string;
  status : string;
  message_id : string;
  created_at : datetime;
  raw_ics : string;
  uid : string
}.

Record MeetingInvite := mkInvite {
  inv_project : string;
  inv_to_address : string;
  inv_from_address : string;
  inv_subject : string;
  inv_title : string;
  inv_start_time : option datetime;
  inv_end_time : option datetime;
  inv_location : string;
  inv_join_url : string;
  inv_description : string;
  inv_raw_ics : string;
  inv_message_id : string;
  inv_uid : string;
  inv_method : string
}.

Definition set_status (m : Meeting) (s : string) : Meeting :=
  mkMeeting (id m) (project m) (title m) (start_time m) (end_time m)
            (join_url m) (platform m) (from_address m) (to_address m)
            s (message_id m) (created_at m) (raw_ics m) (uid m).

(* ------------------------------------------------------------------ *)
(** ** Ordering of result sets ([ORDER BY]) *)

(** Rows are put in order by insertion; [before a b] says that [a] sorts
    strictly before [b]. A row goes behind the rows that sort before it
    and in front of the others, so rows that sort alike stay in the order
    of the table. *)
Section OrderBy.
Variable before : Meeting -> Meeting -> bool.

Fixpoint insert_by (m : Meeting) (l : list Meeting) : list Meeting :=
  match l with
  | [] => [m]
  | x :: xs => if before x m then x :: insert_by m xs else m :: x :: xs
  end.

Fixpoint order_by (l : list Meeting) : list Meeting :=
  match l with
  | [] => []
  | x :: xs => insert_by x (order_by xs)
  end.

(** [a] may stand in front of [b]. *)
Definition in_order (a b : Meeting) : Prop := before b a = false.

End OrderBy.

(* ------------------------------------------------------------------ *)
(** ** Environment, world and effects *)

(** What the process is started with: whether [psycopg2] could be imported
    ([HAS_POSTGRES]), the connection string (argument or [DATABASE_URL]),
    the scheduler's constructor arguments, the clock (the instant and the
    local UTC offset of each reading) and the outcome of each call to the
    Kubernetes API ([true]: the Job was created, [false]: the [try] block
    raised).

    What the database engines contribute: the time zone of the PostgreSQL
    session, as the instant it takes a reading without zone for
    ([session_localize]) and as the offset it shows an instant with
    ([session_offset]); SQLite's [datetime(text)] and
    [datetime(text, '+1 hour')] on the ISO text of a datetime, as a count
    of whole seconds, [None] being [NULL].

    [total_seconds_lt t k] is [t.total_seconds() < k] for a [timedelta] of
    [t] microseconds where the rounding of the float can matter. *)
Record Env := mkEnv {
  HAS_POSTGRES : bool;
  connection_string : option string;
  send_rsvp : bool;
  join_before_minutes : Z;
  clock : nat -> Z;
  local_utcoffset : nat -> Z;
  create_namespaced_job : nat -> Meeting -> bool;
  session_localize : Z -> Z;
  session_offset : Z -> Z;
  sqlite_datetime : datetime -> option Z;
  sqlite_datetime_plus_hour : datetime -> option Z;
  total_seconds_lt : Z -> Z -> bool
}.

(** [self.use_postgres = bool(self.connection_string and HAS_POSTGRES)] *)
Definition use_postgres (e : Env) : bool :=
  match connection_string e with
  | Some s => nonempty s && HAS_POSTGRES e
  | None => false
  end.

Inductive Event :=
| RsvpAccept (inv : MeetingInvite)
| RsvpDecline (inv : MeetingInvite) (reason : string)
| SpawnJob (m : Meeting) (created : bool).

Record World := mkWorld {
  rows : list Meeting;
  next_id : Z;
  ticks : nat;
  events : list Event
}.

Definition M (A : Type) : Type := World -> Result A * World.

Definition ret {A} (a : A) : M A := fun w => (Ok a, w).

Definition bind {A B} (c : M A) (k : A -> M B) : M B :=
  fun w => match c w with
           | (Ok a, w') => k a w'
           | (Raise e, w') => (Raise e, w')
           end.

Notation "x <- c ;; k" := (bind c (fun x => k))
  (at level 61, c at next level, right associativity).
Notation "c ;;; k" := (bind c (fun _ => k))
  (at level 61, right associativity).

(** A Python expression that returns or raises, without touching the
    store. *)
Definition lift {A} (r : Result A) : M A := fun w => (r, w).

Definition with_rows (w : World) (r : list Meeting) : World :=
  mkWorld r (next_id w) (ticks w) (events w).

Definition emit (ev : Event) : M unit :=
  fun w => (Ok tt, mkWorld (rows w) (next_id w) (ticks w) (events w ++ [ev])).

(** A [for] loop whose body may raise: the first exception leaves the loop. *)
Fixpoint for_each {A} (l : list A) (body : A -> M unit) : M unit :=
  match l with
  | [] => ret tt
  | x :: xs => body x ;;; for_each xs body
  end.

Definition exec {A} (c : M A) (w : World) : World := snd (c w).

(** A comparison in SQL is true when both sides are there and compare. *)
Definition sql_lt (a b : option Z) : bool :=
  match a, b with
  | Some x, Some y => x <? y
  | _, _ => false
  end.

Definition sql_le (a b : option Z) : bool :=
  match a, b with
  | Some x, Some y => x <=? y
  | _, _ => false
  end.

(** What SQLite takes for an [INTEGER]. *)
Definition int64 (n : Z) : bool := (- 2 ^ 63 <=? n) && (n <? 2 ^ 63).

(* ------------------------------------------------------------------ *)
(** ** The meeting store: [MeetingCalendar] (calendar_pg.py) *)

Section Calendar.
Variable env : Env.

(** The k-th reading of [datetime.now().astimezone()]. *)
Definition now_at (k : nat) : datetime :=
  Aware (clock env k + local_utcoffset env k) (fun _ => local_utcoffset env k).

Definition datetime_now : M datetime :=
  fun w => (Ok (now_at (ticks w)),
            mkWorld (rows w) (next_id w) (S (ticks w)) (events w)).

Definition _detect_platform (url : string) : string :=
  if str_in "meet.google.com" url then "google_meet"
  else if str_in "teams.microsoft.com" url then "teams"
  else if str_in "zoom.us" url then "zoom"
  else "unknown".

(** The instant PostgreSQL takes a parameter or a column for. *)
Definition pg_instant (d : datetime) : Z :=
  match d with
  | Naive w => session_localize env w
  | Aware w f => utc w f
  end.

(** A time as it is read back from the store it was written to. *)
Definition as_stored (d : datetime) : datetime :=
  if use_postgres env then
    let u := pg_instant d in
    Aware (u + session_offset env u) (fun _ => session_offset env u)
  else
    match d with
    | Naive w => Naive w
    | Aware w f => Aware w (fun _ => f w)
    end.

(** The row an [INSERT] of [meeting] leaves, with the id the store gave it
    and the platform [add_meeting] settled on. *)
Definition stored (meeting : Meeting) (i : Z) (p : string) : Meeting :=
  mkMeeting (Some i) (project meeting) (title meeting)
            (as_stored (start_time meeting))
            (option_map as_stored (end_time meeting))
            (join_url meeting) p (from_address meeting) (to_address meeting)
            (status meeting) (message_id meeting)
            (as_stored (created_at meeting)) (raw_ics meeting) (uid meeting).

(** [ORDER BY col]: by instant under PostgreSQL, by ISO text under SQLite. *)
Definition sorts_before (col : Meeting -> datetime) (a b : Meeting) : bool :=
  if use_postgres env then pg_instant (col a) <? pg_instant (col b)
  else String.ltb (isoformat (col a)) (isoformat (col b)).

Definition asc (col : Meeting -> datetime) : list Meeting -> list Meeting :=
  order_by (sorts_before col).

Definition desc (col : Meeting -> datetime) : list Meeting -> list Meeting :=
  order_by (fun a b => sorts_before col b a).

(** The class of the [IntegrityError] the store in use raises, and the
    class named by the [except] clause of [add_meeting]. *)
Definition raised_driver : driver :=
  if use_postgres env then Psycopg2 else Sqlite3.
Definition caught_driver : driver :=
  if HAS_POSTGRES env then Psycopg2 else Sqlite3.

Definition key_exists (k : string) (l : list Meeting) : bool :=
  existsb (fun r => str_eqb (message_id r) k) l.

(** [INSERT INTO meetings ...] under [message_id TEXT UNIQUE]. A rejected
    PostgreSQL insert still consumes a value of the [SERIAL] sequence. *)
Definition add_meeting (meeting : Meeting) : M (option Z) := fun w =>
  let platform := if nonempty (platform meeting) then platform meeting
                  else _detect_platform (join_url meeting) in
  if key_exists (message_id meeting) (rows w) then
    let w' := mkWorld (rows w)
                      (if use_postgres env then next_id w + 1 else next_id w)
                      (ticks w) (events w) in
    if driver_eqb raised_driver caught_driver
    then (Ok None, w')
    else (Raise (IntegrityError raised_driver), w')
  else
    (Ok (Some (next_id w)),
     mkWorld (rows w ++ [stored meeting (next_id w) platform])
             (next_id w + 1) (ticks w) (events w)).

(** The time window of [get_upcoming], as each store tests it. *)
Definition window_pg (now cutoff past_cutoff : datetime) (r : Meeting) : bool :=
  ((pg_instant (start_time r) <=? pg_instant cutoff)
   && (pg_instant past_cutoff <=? pg_instant (start_time r)))
  || ((pg_instant (start_time r) <? pg_instant now)
      && match end_time r with
         | None => true
         | Some e => pg_instant now <? pg_instant e
         end).

Definition window_sqlite (now cutoff past_cutoff : datetime) (r : Meeting) : bool :=
  (sql_le (sqlite_datetime env (start_time r)) (sqlite_datetime env cutoff)
   && sql_le (sqlite_datetime env past_cutoff) (sqlite_datetime env (start_time r)))
  || (sql_lt (sqlite_datetime env (start_time r)) (sqlite_datetime env now)
      && match end_time r with
         | None => true
         | Some e => sql_lt (sqlite_datetime env now) (sqlite_datetime env e)
         end).

(** The [WHERE] clause of [get_upcoming]. *)
Definition is_upcoming (now cutoff past_cutoff : datetime) (r : Meeting) : bool :=
  str_eqb (status r) "pending"
  && (if use_postgres env then window_pg now cutoff past_cutoff r
      else window_sqlite now cutoff past_cutoff r).

Definition get_upcoming (minutes_ahead : Z) : M (list Meeting) :=
  now <- datetime_now ;;
  delta <- lift (timedelta_of_minutes minutes_ahead) ;;
  cutoff <- lift (dt_add now delta) ;;
  past_cutoff <- lift (dt_add now (- timedelta_minutes 10)) ;;
  fun w => (Ok (asc start_time
                  (filter (is_upcoming now cutoff past_cutoff) (rows w))), w).

Definition get_all_pending : M (list Meeting) :=
  fun w => (Ok (asc start_time
                  (filter (fun r => str_eqb (status r) "pending") (rows w))), w).

(** [ORDER BY created_at DESC LIMIT 1] *)
Definition get_by_uid (u : string) : M (option Meeting) :=
  if negb (nonempty u) then ret None
  else fun w =>
    (Ok (hd_error (desc created_at
                     (filter (fun r => str_eqb (uid r) u) (rows w)))), w).

Definition excluded_statuses : list string :=
  ["completed"; "cancelled"; "missed"; "declined"]%string.

(** The overlap test of [check_conflicts], as each store makes it,
    [end_time] already defaulted. *)
Definition overlap_pg (start_time' end_time' : datetime) (r : Meeting) : bool :=
  (pg_instant (start_time r) <? pg_instant end_time')
  && match end_time r with
     | Some e => pg_instant start_time' <? pg_instant e
     | None => pg_instant start_time'
               <? pg_instant (start_time r) + timedelta_hours 1
     end.

Definition overlap_sqlite (start_time' end_time' : datetime) (r : Meeting) : bool :=
  sql_lt (sqlite_datetime env (start_time r)) (sqlite_datetime env end_time')
  && match end_time r with
     | Some e => sql_lt (sqlite_datetime env start_time') (sqlite_datetime env e)
     | None => sql_lt (sqlite_datetime env start_time')
                      (sqlite_datetime_plus_hour env (start_time r))
     end.

(** [AND id != ?] *)
Definition other_id (exclude_id : option Z) (r : Meeting) : bool :=
  match exclude_id with
  | None => true
  | Some x => match id r with
              | Some i => negb (i =? x)
              | None => false
              end
  end.

(** The [WHERE] clause of [check_conflicts]. *)
Definition conflicts_with (start_time' end_time' : datetime)
           (exclude_id : option Z) (r : Meeting) : bool :=
  negb (status_in (status r) excluded_statuses)
  && (if use_postgres env then overlap_pg start_time' end_time' r
      else overlap_sqlite start_time' end_time' r)
  && other_id exclude_id r.

(** An [exclude_id] that is no [INTEGER] for SQLite is refused by its
    driver. *)
Definition binds (exclude_id : option Z) : bool :=
  match exclude_id with
  | Some x => use_postgres env || int64 x
  | None => true
  end.

Definition check_conflicts (start_time' : datetime) (end_time' : option datetime)
           (exclude_id : option Z) : M (list Meeting) :=
  end_time' <- lift match end_time' with
                    | None => dt_add start_time' (timedelta_hours 1)
                    | Some e => Ok e
                    end ;;
  if binds exclude_id then
    fun w => (Ok (asc start_time
                    (filter (conflicts_with start_time' end_time' exclude_id)
                            (rows w))), w)
  else lift (Raise OverflowError).

(** [UPDATE meetings SET status = ? WHERE id = ?]; an [id] of [None] is
    SQL [NULL] and matches no row. *)
Definition id_matches (meeting_id : option Z) (r : Meeting) : bool :=
  match meeting_id, id r with
  | Some x, Some i => i =? x
  | _, _ => false
  end.

Definition update_rows (meeting_id : option Z) (s : string)
           (l : list Meeting) : list Meeting :=
  map (fun r => if id_matches meeting_id r then set_status r s else r) l.

Definition update_status (meeting_id : option Z) (s : string) : M unit :=
  fun w => (Ok tt, with_rows w (update_rows meeting_id s (rows w))).

(** [list_all(limit)]: [ORDER BY start_time DESC LIMIT ?]. PostgreSQL
    refuses a negative limit and one beyond [bigint]; SQLite's driver
    refuses what is no [INTEGER], and SQLite takes a negative limit for no
    limit. *)
Definition list_all (limit : Z) : M (list Meeting) := fun w =>
  let sorted := desc start_time (rows w) in
  if use_postgres env then
    if (limit <? 0) || negb (int64 limit) then (Raise DataError, w)
    else (Ok (firstn (Z.to_nat limit) sorted), w)
  else
    if negb (int64 limit) then (Raise OverflowError, w)
    else if limit <? 0 then (Ok sorted, w)
    else (Ok (firstn (Z.to_nat limit) sorted), w).

End Calendar.

(* ------------------------------------------------------------------ *)
(** ** Intake pipeline and join scheduler: [MeetingScheduler] (scheduler_pg.py) *)

Definition str_of_nat (n : nat) : string :=
  DecimalString.NilZero.string_of_uint (Nat.to_uint n).

(** [if meeting_id:] on an [Optional[int]]: [None] and [0] are falsy. *)
Definition truthy_id (o : option Z) : bool :=
  match o with
  | Some i => negb (i =? 0)
  | None => false
  end.

(** The [Meeting(...)] built from an invite in each branch of the pipeline. *)
Definition meeting_of (invite : MeetingInvite) (start : datetime)
           (st : string) (created : datetime) : Meeting :=
  mkMeeting None (inv_project invite) (inv_title invite) start
            (inv_end_time invite) (inv_join_url invite) EmptyString
            (inv_from_address invite) (inv_to_address invite) st
            (inv_message_id invite) created (inv_raw_ics invite)
            (inv_uid invite).

(** The reason given with a decline: at most three titles, then [(+N more)]. *)
Definition conflict_titles (conflicts : list Meeting) : string :=
  let joined := String.concat ", " (map title (firstn 3 conflicts)) in
  if (3 <? List.length conflicts)%nat
  then (joined ++ " (+" ++ str_of_nat (List.length conflicts - 3) ++ " more)")%string
  else joined.

Definition decline_reason (conflicts : list Meeting) : string :=
  ("Scheduling conflict with: " ++ conflict_titles conflicts)%string.

Section Scheduler.
Variable env : Env.

(** [if self.rsvp: self.rsvp.decline(invite, reason=reason)] *)
Definition rsvp_decline (invite : MeetingInvite) (reason : string) : M unit :=
  if send_rsvp env then emit (RsvpDecline invite reason) else ret tt.

(** [if self.rsvp: self.rsvp.accept(invite)] *)
Definition rsvp_accept (invite : MeetingInvite) : M unit :=
  if send_rsvp env then emit (RsvpAccept invite) else ret tt.

Definition _handle_cancellation (invite : MeetingInvite) : M unit :=
  if negb (nonempty (inv_uid invite)) then ret tt
  else
    existing <- get_by_uid env (inv_uid invite) ;;
    match existing with
    | Some existing =>
        if negb (status_in (status existing) ["cancelled"; "completed"]%string)
        then update_status (id existing) "cancelled"
        else ret tt
    | None => ret tt
    end.

Definition check_upcoming : M (list Meeting) :=
  get_upcoming env (join_before_minutes env + 1).

Definition trigger_join (meeting : Meeting) : M unit :=
  update_status (id meeting) "joining" ;;;
  (fun w =>
     let created := create_namespaced_job env (List.length (events w)) meeting in
     (emit (SpawnJob meeting created) ;;;
      update_status (id meeting)
        (if created then "bot_spawned" else "spawn_failed")) w).

Definition _check_and_join_upcoming : M unit :=
  upcoming <- check_upcoming ;;
  for_each upcoming trigger_join.

(** The branch shared by [sync_inbox] and [process_invite] for an invite
    whose end lies before [now]. *)
Definition record_missed (invite : MeetingInvite) (start : datetime) : M unit :=
  created <- datetime_now env ;;
  meeting_id <- add_meeting env (meeting_of invite start "missed" created) ;;
  ret tt.

(** [invite.end_time and invite.end_time < now] *)
Definition ended_before (invite : MeetingInvite) (now : datetime) : Result bool :=
  match inv_end_time invite with
  | Some e => dt_lt e now
  | None => Ok false
  end.

(** [time_until.total_seconds() < (self.join_before_minutes + 1) * 60 and
    time_until.total_seconds() >= 0]. Up to 2^32 seconds the float decides
    as the exact quotient does. *)
Definition starts_soon (time_until : Z) : bool :=
  let horizon := (join_before_minutes env + 1) * 60 in
  (if horizon <=? 2 ^ 32 then time_until <? horizon * 1000000
   else total_seconds_lt env time_until horizon)
  && (0 <=? time_until).

(** The tail of [process_invite] after a successful pending insert:
    join at once when the meeting starts within the horizon or is
    already running. *)
Definition join_if_due (meeting : Meeting) : M unit :=
  now <- datetime_now env ;;
  time_until <- lift (dt_sub (start_time meeting) now) ;;
  if starts_soon time_until then _check_and_join_upcoming
  else if time_until <? 0 then
    match end_time meeting with
    | None => _check_and_join_upcoming
    | Some meeting_end =>
        running <- lift (dt_lt now meeting_end) ;;
        if running then _check_and_join_upcoming else ret tt
    end
  else ret tt.

Definition process_invite (invite : MeetingInvite) : M unit :=
  if str_eqb (inv_method invite) "CANCEL" then _handle_cancellation invite
  else if negb (nonempty (inv_join_url invite)) then ret tt
  else match inv_start_time invite with
  | None => ret tt
  | Some start =>
    now <- datetime_now env ;;
    ended <- lift (ended_before invite now) ;;
    if ended then record_missed invite start
    else
      conflicts <- check_conflicts env start (inv_end_time invite) None ;;
      match conflicts with
      | _ :: _ =>
          let reason := decline_reason conflicts in
          created <- datetime_now env ;;
          meeting_id <- add_meeting env (meeting_of invite start "declined" created) ;;
          if truthy_id meeting_id then rsvp_decline invite reason else ret tt
      | [] =>
          created <- datetime_now env ;;
          let meeting := meeting_of invite start "pending" created in
          meeting_id <- add_meeting env meeting ;;
          if truthy_id meeting_id
          then rsvp_accept invite ;;; join_if_due meeting
          else ret tt
      end
  end.

(** The body of the [for invite in ...] loop of [sync_inbox]; the result
    tells whether [new_count] was incremented. *)
Definition sync_invite (invite : MeetingInvite) : M bool :=
  if str_eqb (inv_method invite) "CANCEL"
  then _handle_cancellation invite ;;; ret false
  else if negb (nonempty (inv_join_url invite)) then ret false
  else match inv_start_time invite with
  | None => ret false
  | Some start =>
    now <- datetime_now env ;;
    ended <- lift (ended_before invite now) ;;
    if ended then record_missed invite start ;;; ret false
    else
      conflicts <- check_conflicts env start (inv_end_time invite) None ;;
      match conflicts with
      | _ :: _ =>
          let reason := decline_reason conflicts in
          created <- datetime_now env ;;
          meeting_id <- add_meeting env (meeting_of invite start "declined" created) ;;
          if truthy_id meeting_id
          then rsvp_decline invite reason ;;; ret false
          else ret false
      | [] =>
          created <- datetime_now env ;;
          meeting_id <- add_meeting env (meeting_of invite start "pending" created) ;;
          if truthy_id meeting_id
          then rsvp_accept invite ;;; ret true
          else ret false
      end
  end.

Fixpoint sync_loop (fetched : list MeetingInvite) (new_count : Z) : M Z :=
  match fetched with
  | [] => ret new_count
  | invite :: rest =>
      added <- sync_invite invite ;;
      sync_loop rest (if added then new_count + 1 else new_count)
  end.

(** [sync_inbox]: [connected] is the result of [self.inbox.connect()],
    [fetched] what [fetch_invites] yields. *)
Definition sync_inbox (connected : bool) (fetched : list MeetingInvite) : M Z :=
  if negb connected then ret 0 else sync_loop fetched 0.

(** [run_once]; what it prints is left out, the clock readings and the
    subtraction made for printing are kept. *)
Definition run_once (connected : bool) (fetched : list MeetingInvite) : M unit :=
  _ <- datetime_now env ;;
  new_meetings <- sync_inbox connected fetched ;;
  upcoming <- check_upcoming ;;
  for_each upcoming trigger_join ;;;
  pending <- get_all_pending env ;;
  match pending with
  | next_meeting :: _ =>
      now <- datetime_now env ;;
      time_until <- lift (dt_sub (start_time next_meeting) now) ;;
      ret tt
  | [] => ret tt
  end.

End Scheduler.

(* ------------------------------------------------------------------ *)
(** ** The push channel: [IdleMonitor] (idle_monitor.py)

    The mailbox is the list of its messages in ascending UID order, each
    with the day of its internal date. The blocking loops of [run] and
    [_idle_loop] are driven by what the connection delivers; the model
    consumes a list of such deliveries. *)

Module Idle.

Record Message := mkMessage {
  msg_uid : string;
  msg_day : Z
}.

Definition Mailbox := list Message.

Record Monitor := mkMonitor {
  last_seen_uid : option string;
  processed : list string      (* UIDs handed to [_process_message], in order *)
}.

(** [self.mail.uid('search', None, 'ALL')], then [uids[-1] if uids else None] *)
Definition _get_latest_uid (box : Mailbox) : option string :=
  match rev (map msg_uid box) with
  | [] => None
  | u :: _ => Some u
  end.

(** [search (SINCE since_date)] with [since_date] one day before [today]. *)
Definition search_since (box : Mailbox) (today : Z) : list string :=
  map msg_uid (filter (fun m => today - 1 <=? msg_day m) box).

(** [uids[uids.index(since_uid) + 1:]], [None] standing for [ValueError]. *)
Fixpoint after_uid (since_uid : string) (uids : list string) : option (list string) :=
  match uids with
  | [] => None
  | u :: rest => if str_eqb u since_uid then Some rest else after_uid since_uid rest
  end.

(** The [for uid in uids] loop: process, then advance the cursor. *)
Fixpoint process_all (uids : list string) (st : Monitor) : Monitor :=
  match uids with
  | [] => st
  | u :: rest => process_all rest (mkMonitor (Some u) (processed st ++ [u]))
  end.

Definition _process_new_messages (box : Mailbox) (today : Z)
           (since_uid : option string) (st : Monitor) : Monitor :=
  let uids := search_since box today in
  match uids with
  | [] => st
  | _ :: _ =>
      let uids :=
        match since_uid with
        | Some s =>
            if nonempty s then
              match after_uid s uids with
              | Some later => later
              | None => uids          (* since_uid not found, process all recent *)
              end
            else uids
        | None => uids
        end in
      process_all uids st
  end.

(** What happens on the connection, as [run] and [_idle_loop] see it. *)
Inductive Delivery :=
| Arrive (m : Message)
    (* a message is appended to the mailbox; the monitor is not involved *)
| Wake (today : Z)
    (* the IDLE wait ends (EXISTS, timeout or tagged line) and DONE is
       acknowledged: [_process_new_messages(self.last_seen_uid)] runs *)
| LoopError
    (* an exception inside the [try] of [_idle_loop]: sleep, disconnect,
       connect, next iteration; the cursor is not touched *)
| IdleRefused
    (* the line read after [IDLE] does not start with [+]: [_idle_loop]
       breaks, [run] disconnects, sleeps, connects and reads the cursor
       anew from [_get_latest_uid] *)
| Expunge (u : string).
    (* a message is removed from the mailbox by its owner or another
       client; the monitor is not involved *)

Definition deliver (s : Mailbox * Monitor) (d : Delivery) : Mailbox * Monitor :=
  let (box, st) := s in
  match d with
  | Arrive m => (box ++ [m], st)
  | Wake today => (box, _process_new_messages box today (last_seen_uid st) st)
  | LoopError => (box, st)
  | IdleRefused => (box, mkMonitor (_get_latest_uid box) (processed st))
  | Expunge u => (filter (fun m => negb (str_eqb (msg_uid m) u)) box, st)
  end.

(** [run]: connect, take the latest UID as cursor, then serve deliveries. *)
Definition run (box : Mailbox) (ds : list Delivery) : Mailbox * Monitor :=
  fold_left deliver ds (box, mkMonitor (_get_latest_uid box) []).

End Idle.

(* ------------------------------------------------------------------ *)
(** ** The address and link parsers of the inbox: [InboxMonitor] (monitor.py) *)

(** [to_address.split("@")[0]]: the text before the first [@]; [None] when
    there is no [@]. *)
Fixpoint before_at (s : string) : option string :=
  match s with
  | EmptyString => None
  | String c rest =>
      if Ascii.eqb c "@" then Some EmptyString
      else match before_at rest with
           | Some p => Some (String c p)
           | None => None
           end
  end.

(** [InboxMonitor._extract_project_from_address] (monitor.py) *)
Definition _extract_project_from_address (to_address : string) : string :=
  match before_at to_address with
  | Some local_part => local_part
  | None => "unknown"
  end.

(** [re.search] for the patterns of [_extract_join_url] (monitor.py). Each
    pattern is a literal followed by runs of a character class; where a
    literal follows a run, its first character is outside the class, so the
    greedy run is the longest one and nothing is backtracked. A character
    is a code point below 256. *)

(** [s.startswith(lit)], with what follows the literal. *)
Fixpoint strip (lit s : string) : option string :=
  match lit, s with
  | EmptyString, _ => Some s
  | String a lit', String b s' => if Ascii.eqb a b then strip lit' s' else None
  | String _ _, EmptyString => None
  end.

(** The longest prefix of characters of a class, with what follows it. *)
Fixpoint span (cls : ascii -> bool) (s : string) : string * string :=
  match s with
  | EmptyString => (EmptyString, EmptyString)
  | String c rest =>
      if cls c then let (run, tl) := span cls rest in (String c run, tl)
      else (EmptyString, s)
  end.

Definition between (lo hi c : ascii) : bool :=
  ((N_of_ascii lo <=? N_of_ascii c) && (N_of_ascii c <=? N_of_ascii hi))%N.

(** [[a-z-]] *)
Definition meet_char (c : ascii) : bool :=
  between "a" "z" c || Ascii.eqb c "-".

(** [[a-z0-9]] *)
Definition host_char (c : ascii) : bool :=
  between "a" "z" c || between "0" "9" c.

(** [\d] *)
Definition digit (c : ascii) : bool := between "0" "9" c.

(** [\s]: tab to carriage return, the four separators, space, NEL and the
    no-break space. *)
Definition space (c : ascii) : bool :=
  between (ascii_of_nat 9) (ascii_of_nat 13) c
  || between (ascii_of_nat 28) (ascii_of_nat 32) c
  || Ascii.eqb c (ascii_of_nat 133) || Ascii.eqb c (ascii_of_nat 160).

(** The class of the Teams pattern: anything but [\s], the double quote,
    [<] and [>]. *)
Definition teams_char (c : ascii) : bool :=
  negb (space c || Ascii.eqb c (ascii_of_nat 34)
        || Ascii.eqb c "<" || Ascii.eqb c ">").

(** [https://meet\.google\.com/[a-z-]+] matched at the start of [s]. *)
Definition meet_at (s : string) : option string :=
  match strip "https://meet.google.com/" s with
  | Some r =>
      let (run, _) := span meet_char r in
      if nonempty run then Some ("https://meet.google.com/" ++ run)%string
      else None
  | None => None
  end.

(** [https://[a-z0-9]+\.zoom\.us/j/\d+] matched at the start of [s]. *)
Definition zoom_at (s : string) : option string :=
  match strip "https://" s with
  | Some r =>
      let (host, r1) := span host_char r in
      if nonempty host then
        match strip ".zoom.us/j/" r1 with
        | Some r2 =>
            let (num, _) := span digit r2 in
            if nonempty num
            then Some ("https://" ++ host ++ ".zoom.us/j/" ++ num)%string
            else None
        | None => None
        end
      else None
  | None => None
  end.

(** [https://teams\.microsoft\.com/l/meetup-join/] and a run of that class,
    matched at the start of [s]. *)
Definition teams_at (s : string) : option string :=
  match strip "https://teams.microsoft.com/l/meetup-join/" s with
  | Some r =>
      let (run, _) := span teams_char r in
      if nonempty run
      then Some ("https://teams.microsoft.com/l/meetup-join/" ++ run)%string
      else None
  | None => None
  end.

(** [re.search]: the match at the leftmost position that has one. *)
Fixpoint re_search (pattern_at : string -> option string) (text : string)
  : option string :=
  match pattern_at text with
  | Some m => Some m
  | None =>
      match text with
      | EmptyString => None
      | String _ rest => re_search pattern_at rest
      end
  end.

(** [InboxMonitor._extract_join_url] (monitor.py) *)
Definition _extract_join_url (text : string) : string :=
  match re_search meet_at text with
  | Some m => m
  | None =>
      match re_search zoom_at text with
      | Some m => m
      | None =>
          match re_search teams_at text with
          | Some m => m
          | None => EmptyString
          end
      end
  end.


(* ------------------------------------------------------------------ *)
(** ** Reading off results *)

Definition tick (w : World) : World :=
  mkWorld (rows w) (next_id w) (S (ticks w)) (events w).

Definition detected_platform (m : Meeting) : string :=
  if nonempty (platform m) then platform m else _detect_platform (join_url m).

(** The world after a successful [INSERT]. *)
Definition inserted (env : Env) (m : Meeting) (w : World) : World :=
  mkWorld (rows w ++ [stored env m (next_id w) (detected_platform m)])
          (next_id w + 1) (ticks w) (events w).

(** [trigger_join] in one piece: two writes to the same id, with the Job
    request in between. *)
Definition spawn_status (created : bool) : string :=
  if created then "bot_spawned" else "spawn_failed".

Definition is_nil {A} (l : list A) : bool :=
  match l with
  | [] => true
  | _ :: _ => false
  end.

(** The status the pipeline decides on and the RSVP it asks for. *)
Definition decided_status (conflicts : list Meeting) : string :=
  if is_nil conflicts then "pending" else "declined".

Definition decided_rsvp (inv : MeetingInvite) (conflicts : list Meeting) : Event :=
  if is_nil conflicts then RsvpAccept inv
  else RsvpDecline inv (decline_reason conflicts).

(** [end_time] as [check_conflicts] defaults it. *)
Definition default_end (start : datetime) (end_opt : option datetime)
  : Result datetime :=
  match end_opt with
  | Some e => Ok e
  | None => dt_add start (timedelta_hours 1)
  end.

(* ------------------------------------------------------------------ *)
(** ** Predicates of the specification *)

(** The overlap test of the specification, between a candidate window and
    the window of a stored record, on instants. *)
Definition overlaps (start end' : Z) (r_start : Z) (r_end : option Z) : Prop :=
  r_start < end'
  /\ match r_end with
     | Some e => e > start
     | None => r_start + timedelta_hours 1 > start
     end.

(** The window of [get_upcoming] on instants: the start within
    [[now - 10 min, now + horizon]], or the record running at [now]. *)
Definition due_at (now horizon : Z) (r_start : Z) (r_end : option Z) : Prop :=
  (now - timedelta_minutes 10 <= r_start /\ r_start <= now + horizon)
  \/ (r_start < now
      /\ match r_end with
         | Some e => now < e
         | None => True
         end).

(** Both values are there, and the first is below the second. *)
Definition lt_some (a b : option Z) : Prop :=
  exists x y, a = Some x /\ b = Some y /\ x < y.

Definition le_some (a b : option Z) : Prop :=
  exists x y, a = Some x /\ b = Some y /\ x <= y.


Definition due_sqlite (env : Env) (now cutoff past_cutoff : datetime)
           (r : Meeting) : Prop :=
  (le_some (sqlite_datetime env past_cutoff) (sqlite_datetime env (start_time r))
   /\ le_some (sqlite_datetime env (start_time r)) (sqlite_datetime env cutoff))
  \/ (lt_some (sqlite_datetime env (start_time r)) (sqlite_datetime env now)
      /\ match end_time r with
         | Some e => lt_some (sqlite_datetime env now) (sqlite_datetime env e)
         | None => True
         end).


(** [a] is no later than [b] in the order the store sorts a column by:
    instants under PostgreSQL, ISO texts under SQLite. *)
Definition store_le (env : Env) (a b : datetime) : Prop :=
  if use_postgres env then pg_instant env a <= pg_instant env b
  else String.leb (isoformat a) (isoformat b) = true.

Definition most_recent_for (env : Env) (u : string) (l : list Meeting)
           (r : Meeting) : Prop :=
  In r l /\ uid r = u
  /\ forall r', In r' l -> uid r' = u -> store_le env (created_at r') (created_at r).

(** The effect of [UPDATE ... WHERE id = ?] on a table with a primary key:
    the row with that id changes status, every other row is untouched. *)
Definition only_changes (r : Meeting) (s : string) (x x' : Meeting) : Prop :=
  (x = r /\ x' = set_status r s) \/ (x <> r /\ x' = x).

(* ------------------------------------------------------------------ *)
(** ** Well-formed stores *)

(** What the schema guarantees: [id] is a primary key handed out by the
    sequence (starting at 1), [message_id] is [UNIQUE]. *)
Definition has_id (next : Z) (r : Meeting) : Prop :=
  exists i, id r = Some i /\ 0 < i < next.

Record store_wf (w : World) : Prop := mk_store_wf {
  wf_next : 0 < next_id w;
  wf_ids : Forall (has_id (next_id w)) (rows w);
  wf_pk : NoDup (map id (rows w));
  wf_keys : NoDup (map message_id (rows w))
}.

(* ------------------------------------------------------------------ *)
(** ** The status machine the code implements *)

(** One write of [update_status] as the engine issues it. *)
Inductive transition : string -> string -> Prop :=
| T_joining : transition "pending" "joining"
| T_spawned : transition "joining" "bot_spawned"
| T_failed : transition "joining" "spawn_failed"
| T_cancel s :
    ~ In s ["cancelled"; "completed"]%string -> transition s "cancelled".

Definition moves : string -> string -> Prop := clos_refl_trans string transition.

(** Statuses a record is created with. *)
Definition intake_statuses : list string := ["pending"; "missed"; "declined"]%string.

(** A row keeps everything but its status, which moves along the machine. *)
Definition row_evolves (r r' : Meeting) : Prop :=
  r' = set_status r (status r') /\ moves (status r) (status r').

Definition intake_row (r : Meeting) : Prop :=
  exists s0, In s0 intake_statuses /\ moves s0 (status r).

(** A table evolves: the rows it had are still there, in place, each having
    moved along the machine; rows may have been appended, created with an
    intake status. *)
Definition evolves (l l' : list Meeting) : Prop :=
  exists old' added,
    l' = old' ++ added
    /\ Forall2 row_evolves l old'
    /\ Forall intake_row added.

(* ------------------------------------------------------------------ *)
(** ** Sequential runs of the engine *)

(** The ids for which a Kubernetes Job was requested, in order. *)
Definition spawned_ids (evs : list Event) : list (option Z) :=
  flat_map (fun ev => match ev with
                      | SpawnJob m _ => [id m]
                      | _ => []
                      end) evs.

Record launch_ok (w : World) : Prop := mk_launch_ok {
  lo_nodup : NoDup (spawned_ids (events w));
  lo_known : forall i, In i (spawned_ids (events w)) ->
                       exists k, i = Some k /\ 0 < k < next_id w;
  lo_not_pending : forall r, In r (rows w) ->
                             In (id r) (spawned_ids (events w)) ->
                             status r <> "pending"%string
}.

Definition Inv (w : World) : Prop := store_wf w /\ launch_ok w.

Definition is_rsvp (ev : Event) : Prop :=
  match ev with
  | SpawnJob _ _ => False
  | _ => True
  end.

(** The atomic actions a sequential run is made of. *)
Inductive step (env : Env) (w : World) : World -> Prop :=
| S_tick : step env w (tick w)
| S_rsvp ev : is_rsvp ev -> step env w (snd (emit ev w))
| S_insert m :
    In (status m) intake_statuses -> step env w (snd (add_meeting env m w))
| S_cancel r :
    In r (rows w) -> ~ In (status r) ["cancelled"; "completed"]%string ->
    step env w (snd (update_status (id r) "cancelled" w))
| S_trigger m r :
    In r (rows w) -> id r = id m -> status r = "pending"%string ->
    step env w (snd (trigger_join env m w)).

Definition reach (env : Env) : World -> World -> Prop :=
  clos_refl_trans World (step env).

(** A computation all of whose runs from a good world are made of the
    atomic actions. *)
Definition safe {A} (env : Env) (c : M A) : Prop :=
  forall w, Inv w -> reach env w (snd (c w)).

(** The entry points: an invite pushed by the IDLE monitor, a periodic
    scan, a poll of the inbox, a whole cycle of [run_once]. An exception
    ends the operation; the caller logs it and goes on. *)
Inductive op :=
| Ingest (invite : MeetingInvite)
| Scan
| Sync (connected : bool) (fetched : list MeetingInvite)
| Cycle (connected : bool) (fetched : list MeetingInvite).

Definition run_op (env : Env) (o : op) (w : World) : World :=
  match o with
  | Ingest invite => exec (process_invite env invite) w
  | Scan => exec (_check_and_join_upcoming env) w
  | Sync connected fetched => exec (sync_inbox env connected fetched) w
  | Cycle connected fetched => exec (run_once env connected fetched) w
  end.

Definition run_ops (env : Env) (ops : list op) (w : World) : World :=
  fold_left (fun w o => run_op env o w) ops w.

(* ------------------------------------------------------------------ *)
(** ** Two callers sharing the store *)

(** Two callers of [_check_and_join_upcoming] (the periodic thread of
    [run_idle] and the shortcut of [process_invite]) sharing the store. A
    caller first runs the query, then works through its result; the
    schedule says whose turn it is. *)
Inductive caller :=
| Querying
| Triggering (upcoming : list Meeting).

Definition caller_step (env : Env) (c : caller) (w : World) : caller * World :=
  match c with
  | Querying =>
      match check_upcoming env w with
      | (Ok upcoming, w') => (Triggering upcoming, w')
      | (Raise _, w') => (Triggering [], w')
      end
  | Triggering [] => (Triggering [], w)
  | Triggering (meeting :: rest) =>
      (Triggering rest, exec (trigger_join env meeting) w)
  end.

Fixpoint interleave (env : Env) (schedule : list bool) (a b : caller)
         (w : World) : World :=
  match schedule with
  | [] => w
  | true :: rest =>
      let (a', w') := caller_step env a w in interleave env rest a' b w'
  | false :: rest =>
      let (b', w') := caller_step env b w in interleave env rest a b' w'
  end.

(* ------------------------------------------------------------------ *)
(** ** Orders and horizons *)

(** An order to sort by: strict, and such that what is not before is
    behind or alike. *)
Record sorting (before : Meeting -> Meeting -> bool) : Prop := mk_sorting {
  so_asym : forall a b, before a b = true -> before b a = false;
  so_trans : forall a b c,
      before b a = false -> before c b = false -> before c a = false
}.

(** The horizon of the due query: [now + timedelta(minutes=minutes_ahead)]
    and [now - timedelta(minutes=10)], when both can be computed. *)
Definition horizon (now : datetime) (minutes_ahead : Z)
  : Result (datetime * datetime) :=
  match timedelta_of_minutes minutes_ahead with
  | Ok delta =>
      match dt_add now delta with
      | Ok cutoff =>
          match dt_add now (- timedelta_minutes 10) with
          | Ok past_cutoff => Ok (cutoff, past_cutoff)
          | Raise e => Raise e
          end
      | Raise e => Raise e
      end
  | Raise e => Raise e
  end.

(* ------------------------------------------------------------------ *)
(** ** Deliveries that keep the cursor *)

(** The last UID of a list, as [_get_latest_uid] takes it. *)
Definition latest (uids : list string) : option string :=
  match rev uids with
  | [] => None
  | u :: _ => Some u
  end.

(** The UIDs that arrive, in order. *)
Fixpoint arrivals (ds : list Idle.Delivery) : list string :=
  match ds with
  | [] => []
  | Idle.Arrive m :: rest => Idle.msg_uid m :: arrivals rest
  | _ :: rest => arrivals rest
  end.

(** A message is within the [SINCE] window of a search made on [today]. *)
Definition recent (today : Z) (m : Idle.Message) : Prop :=
  today - 1 <= Idle.msg_day m.

(** Deliveries under which every arrival is handled once. [known] are the
    messages up to the one the cursor names, [waiting] those that arrived
    since. Arrivals carry a fresh, non-empty UID; reconnects happen inside
    [_idle_loop] and no message is removed; at a wake-up every waiting
    message is within the [SINCE] window, and so is the message the cursor
    names unless no known message is. *)
Fixpoint calm (known waiting : Idle.Mailbox) (ds : list Idle.Delivery) : Prop :=
  match ds with
  | [] => True
  | Idle.Arrive m :: rest =>
      Idle.msg_uid m <> EmptyString
      /\ ~ In (Idle.msg_uid m) (map Idle.msg_uid (known ++ waiting))
      /\ calm known (waiting ++ [m]) rest
  | Idle.Wake today :: rest =>
      (forall m, In m waiting -> recent today m)
      /\ match rev known with
         | c :: _ => recent today c \/ forall m, In m known -> ~ recent today m
         | [] => True
         end
      /\ calm (known ++ waiting) [] rest
  | Idle.LoopError :: rest => calm known waiting rest
  | Idle.IdleRefused :: _ => False
  | Idle.Expunge _ :: _ => False
  end.

(** What holds between wake-ups while deliveries are calm: the mailbox is
    the known messages, then those that wait; the cursor names the last
    known message. *)
Definition in_step (known waiting : Idle.Mailbox) (st : Idle.Monitor) : Prop :=
  Idle.last_seen_uid st = latest (map Idle.msg_uid known)
  /\ NoDup (map Idle.msg_uid (known ++ waiting))
  /\ ~ In EmptyString (map Idle.msg_uid (known ++ waiting)).

(* ------------------------------------------------------------------ *)
(** ** Vocabulary of the further properties *)

(** A computation after which the key is stored, whatever its outcome. *)
Definition stores_key {A} (k : string) (c : M A) : Prop :=
  forall w, Inv w -> key_exists k (rows (snd (c w))) = true.

(** The accept RSVPs requested so far. *)
Definition accepts (evs : list Event) : nat :=
  List.length (filter (fun ev => match ev with
                                 | RsvpAccept _ => true
                                 | _ => false
                                 end) evs).

Definition bump (added : bool) : nat := if added then 1%nat else 0%nat.

(** A record that is not pending, and for which no Job was requested. *)
Definition settled (i : option Z) (w : World) : Prop :=
  (exists x, In x (rows w) /\ id x = i /\ status x <> "pending"%string)
  /\ ~ In i (spawned_ids (events w)).

Definition contains (needle hay : string) : Prop :=
  exists pre post, hay = (pre ++ needle ++ post)%string.

(** What a match of one of the three patterns is: a part of the text that
    starts with the scheme and names one of the hosts. *)
Definition join_link (text m : string) : Prop :=
  contains m text
  /\ String.prefix "https://" m = true
  /\ (contains "meet.google.com" m \/ contains "teams.microsoft.com" m
      \/ contains "zoom.us" m).

(* ------------------------------------------------------------------ *)
(** ** Sample data for the instances *)

(** A store holding one pending meeting over a given window. *)
Definition booked (i : Z) (t : string) (s : datetime) (e : option datetime) : Meeting :=
  mkMeeting (Some i) "proj" t s e "https://meet.google.com/abc" "google_meet"
            "boss@example.com" "proj@example.com" "pending" t s EmptyString t.

Definition world_of (l : list Meeting) : World :=
  mkWorld l (1 + Z.of_nat (List.length l)) 0 [].

Definition request_invite (mid u t : string) (s : datetime)
           (e : option datetime) : MeetingInvite :=
  mkInvite "proj" "proj@example.com" "boss@example.com" t t (Some s) e EmptyString
           "https://meet.google.com/abc-defg-hij" EmptyString EmptyString mid u "REQUEST".

Definition cancel_invite (u : string) : MeetingInvite :=
  mkInvite "proj" "proj@example.com" "boss@example.com" "Cancelled: A" "A"
           (Some (at_hm 10 0)) (Some (at_hm 11 0)) EmptyString EmptyString EmptyString EmptyString
           "<cancel-1@example.com>" u "CANCEL".

(** What SQLite's [datetime()] answers for the texts of the examples: they
    carry no offset or [+00:00], and a fraction of a second below .9995,
    which is dropped. *)
Definition whole_seconds (d : datetime) : option Z :=
  Some (match d with
        | Naive w => w
        | Aware w f => utc w f
        end / 1000000).

Definition whole_seconds_plus_hour (d : datetime) : option Z :=
  option_map (fun s => s + 3600) (whole_seconds d).

(** A process on a machine and with a session in UTC, its clock standing
    at [now]. *)
Definition sample_env (connection : option string) (rsvp : bool)
           (job_created : bool) (now : Z) : Env :=
  mkEnv true connection rsvp 1
        (fun _ => now) (fun _ => 0) (fun _ _ => job_created)
        (fun wall => wall) (fun _ => 0)
        whole_seconds whole_seconds_plus_hour
        (fun t k => t <? k * 1000000).

Definition env0 : Env :=
  sample_env (Some "postgresql://db/meetings"%string) true true (instant_hm 9 0).

(** [--no-rsvp]: the scheduler is built with [send_rsvp=False]. *)
Definition env_no_rsvp : Env :=
  sample_env (Some "postgresql://db/meetings"%string) false true (instant_hm 9 0).

(** [psycopg2] is installed but no connection string is given: the
    calendar falls back to SQLite. *)
Definition env_sqlite_dev : Env := sample_env None true true (instant_hm 9 0).

(** The same, half a second later. *)
Definition env_sqlite_half : Env :=
  sample_env None true true (instant_hm 9 0 + 500000).
Definition env_half : Env :=
  sample_env (Some "postgresql://db/meetings"%string) true true
             (instant_hm 9 0 + 500000).

Definition env_k8s_down : Env :=
  sample_env (Some "postgresql://db/meetings"%string) true false (instant_hm 9 0).

Definition meeting_A : Meeting := booked 1 "A" (at_hm 10 0) (Some (at_hm 11 0)).
Definition invite_B : MeetingInvite :=
  request_invite "<b@example.com>" "uid-b" "B" (at_hm 10 30) (Some (at_hm 11 30)).
Definition invite_C : MeetingInvite :=
  request_invite "<c@example.com>" "uid-c" "C" (at_hm 11 0) (Some (at_hm 12 0)).
Definition invite_old : MeetingInvite :=
  request_invite "<old@example.com>" "uid-old" "Old" (at_hm 7 0) (Some (at_hm 8 0)).

(** An invitation to an all-day event on 2024-01-01
    ([DTSTART;VALUE=DATE:20240101], [DTEND;VALUE=DATE:20240102]):
    [_parse_ics] combines each date with midnight, without a time zone. *)
Definition invite_all_day : MeetingInvite :=
  request_invite "<d@example.com>" "uid-d" "Offsite" (Naive day_2024)
                 (Some (Naive (day_2024 + timedelta_days 1))).

Definition missed_A : Meeting := set_status meeting_A "missed".

(** A pending meeting that starts in one minute: due at the default
    horizon of [join_before_minutes + 1]. *)
Definition due_meeting : Meeting :=
  booked 1 "Standup" (at_hm 9 1) (Some (at_hm 9 30)).

(** Two records of one uid, the first written at 12:30 local time under
    the offset +02:00, the second forty minutes later, at 12:10 local time
    under the offset +01:00. *)
Definition issue (i : Z) (mid : string) (created : datetime) : Meeting :=
  mkMeeting (Some i) "proj" "Review" (at_hm 15 0) (Some (at_hm 16 0))
            "https://meet.google.com/abc" "google_meet"
            "boss@example.com" "proj@example.com" "pending" mid created
            EmptyString "uid-r".

Definition first_issue : Meeting :=
  issue 1 "<r1@example.com>"
        (Aware (instant_hm 12 30) (fun _ => timedelta_hours 2)).
Definition second_issue : Meeting :=
  issue 2 "<r2@example.com>"
        (Aware (instant_hm 12 10) (fun _ => timedelta_hours 1)).

Definition msg (u : string) : Idle.Message := Idle.mkMessage u 0.

Definition inbox3 : Idle.Mailbox := [msg "1"; msg "2"; msg "3"].

(** A mailbox whose messages are more than a week old on day 0. *)
Definition old_mail : Idle.Mailbox :=
  [Idle.mkMessage "1" (-9); Idle.mkMessage "2" (-8)].

(** A mailbox with one message a day. *)
Definition daily_mail : Idle.Mailbox :=
  [Idle.mkMessage "1" 0; Idle.mkMessage "2" 1; Idle.mkMessage "3" 2].

Definition invite_soon : MeetingInvite :=
  request_invite "<soon@example.com>" "uid-soon" "Soon" (at_hm 9 1)
                 (Some (at_hm 9 30)).

(* ================================================================== *)
(** * Properties *)

(** ** Basic facts *)

Lemma insert_by_perm before m l : Permutation (m :: l) (insert_by before m l).
Proof.
  induction l as [|x xs IH]; simpl; [reflexivity|].
  destruct (before x m); [|reflexivity].
  rewrite perm_swap. now constructor.
Qed.

Lemma order_by_perm before l : Permutation l (order_by before l).
Proof.
  induction l as [|x xs IH]; simpl; [constructor|].
  rewrite <- insert_by_perm. now constructor.
Qed.

Lemma order_by_In before l m : In m (order_by before l) <-> In m l.
Proof.
  split; apply Permutation_in;
    [apply Permutation_sym|]; apply order_by_perm.
Qed.

Lemma insert_by_sorted before m l :
  sorting before ->
  StronglySorted (in_order before) l ->
  StronglySorted (in_order before) (insert_by before m l).
Proof.
  intros Hso. induction 1 as [|x xs Hs IH Hall]; simpl.
  - repeat constructor.
  - destruct (before x m) eqn:E.
    + constructor; [exact IH|].
      eapply Permutation_Forall; [apply insert_by_perm|].
      constructor; [|exact Hall]. now apply (so_asym _ Hso).
    + constructor; [now constructor|].
      constructor; [exact E|].
      eapply Forall_impl; [|exact Hall].
      intros y Hy. unfold in_order in *. now apply (so_trans _ Hso m x y).
Qed.

Lemma order_by_sorted before l :
  sorting before -> StronglySorted (in_order before) (order_by before l).
Proof.
  intros Hso. induction l; simpl; [constructor|now apply insert_by_sorted].
Qed.

(** Sorting what is updated in a way the order does not see. *)
Lemma insert_by_map before (f : Meeting -> Meeting) m l :
  (forall a b, before (f a) (f b) = before a b) ->
  insert_by before (f m) (map f l) = map f (insert_by before m l).
Proof.
  intros Hf. induction l as [|x xs IH]; simpl; [reflexivity|].
  rewrite Hf. destruct (before x m); simpl; [now rewrite IH|reflexivity].
Qed.

Lemma order_by_map before (f : Meeting -> Meeting) l :
  (forall a b, before (f a) (f b) = before a b) ->
  order_by before (map f l) = map f (order_by before l).
Proof.
  intros Hf. induction l as [|x xs IH]; simpl; [reflexivity|].
  rewrite IH. now apply insert_by_map.
Qed.

(** The head of a sorted table may stand in front of every row. *)
Lemma order_by_head before l r :
  sorting before ->
  hd_error (order_by before l) = Some r ->
  In r l /\ forall x, In x l -> x = r \/ in_order before r x.
Proof.
  intros Hso H.
  pose proof (order_by_sorted before l Hso) as Hs.
  pose proof (order_by_In before l) as Hin.
  destruct (order_by before l) as [|y ys]; [discriminate|].
  inversion H; subst y; clear H.
  split; [apply Hin; now left|].
  intros x Hx. apply Hin in Hx. destruct Hx as [->|Hx]; [now left|right].
  inversion Hs as [|? ? _ Hall]; subst.
  rewrite Forall_forall in Hall. now apply Hall.
Qed.

Lemma str_eqb_eq a b : str_eqb a b = true <-> a = b.
Proof. apply String.eqb_eq. Qed.

Lemma str_eqb_neq a b : str_eqb a b = false <-> a <> b.
Proof. apply String.eqb_neq. Qed.

Lemma nonempty_false s : nonempty s = false <-> s = EmptyString.
Proof.
  unfold nonempty. rewrite negb_false_iff. apply str_eqb_eq.
Qed.

Lemma nonempty_true s : nonempty s = true <-> s <> EmptyString.
Proof.
  unfold nonempty. rewrite negb_true_iff. apply str_eqb_neq.
Qed.

Lemma status_in_In s l : status_in s l = true <-> In s l.
Proof.
  unfold status_in. rewrite existsb_exists. split.
  - intros (x & Hx & E). apply str_eqb_eq in E. now subst.
  - intros H. exists s. split; [exact H|now apply str_eqb_eq].
Qed.

Lemma status_in_not_In s l : status_in s l = false <-> ~ In s l.
Proof.
  rewrite <- status_in_In. destruct (status_in s l); split; congruence.
Qed.

(** The order of texts. *)
Lemma ascii_compare_trans a b c o :
  Ascii.compare a b = o -> Ascii.compare b c = o -> Ascii.compare a c = o.
Proof.
  unfold Ascii.compare. destruct o; intros H1 H2.
  - apply N.compare_eq_iff in H1, H2. apply N.compare_eq_iff. congruence.
  - rewrite N.compare_lt_iff in *. lia.
  - rewrite N.compare_gt_iff in *. lia.
Qed.

Lemma string_compare_trans : forall a b c o,
  String.compare a b = o -> String.compare b c = o -> String.compare a c = o.
Proof.
  induction a as [|x a IH]; intros [|y b] [|z c] o; cbn; try congruence.
  destruct (Ascii.compare x y) eqn:Exy; destruct (Ascii.compare y z) eqn:Eyz;
    intros H1 H2; subst; try discriminate.
  - rewrite (ascii_compare_trans x y z Eq Exy Eyz). now apply (IH b c).
  - apply Ascii.compare_eq_iff in Exy. subst y. now rewrite Eyz.
  - apply Ascii.compare_eq_iff in Exy. subst y. now rewrite Eyz.
  - apply Ascii.compare_eq_iff in Eyz. subst z. now rewrite Exy.
  - now rewrite (ascii_compare_trans x y z Lt Exy Eyz).
  - apply Ascii.compare_eq_iff in Eyz. subst z. now rewrite Exy.
  - now rewrite (ascii_compare_trans x y z Gt Exy Eyz).
Qed.

Lemma string_ltb_asym a b : String.ltb a b = true -> String.ltb b a = false.
Proof.
  unfold String.ltb. rewrite (String.compare_antisym b a).
  destruct (String.compare a b); cbn; congruence.
Qed.

Lemma string_ltb_leb a b : String.ltb b a = false <-> String.leb a b = true.
Proof.
  unfold String.ltb, String.leb. rewrite (String.compare_antisym b a).
  destruct (String.compare a b); cbn; split; congruence.
Qed.

Lemma string_leb_trans a b c :
  String.leb a b = true -> String.leb b c = true -> String.leb a c = true.
Proof.
  unfold String.leb.
  destruct (String.compare a b) eqn:Eab; [| |discriminate];
    destruct (String.compare b c) eqn:Ebc; try discriminate; intros _ _.
  - now rewrite (string_compare_trans a b c Eq Eab Ebc).
  - apply String.compare_eq_iff in Eab. subst b. now rewrite Ebc.
  - apply String.compare_eq_iff in Ebc. subst c. now rewrite Eab.
  - now rewrite (string_compare_trans a b c Lt Eab Ebc).
Qed.

(** The orders of the stores. *)
Lemma sorts_before_le env col a b :
  sorts_before env col b a = false <-> store_le env (col a) (col b).
Proof.
  unfold sorts_before, store_le. destruct (use_postgres env).
  - rewrite Z.ltb_ge. reflexivity.
  - apply string_ltb_leb.
Qed.

Lemma store_le_trans env a b c :
  store_le env a b -> store_le env b c -> store_le env a c.
Proof.
  unfold store_le. destruct (use_postgres env); [lia|apply string_leb_trans].
Qed.

Lemma store_le_total env a b : store_le env a b \/ store_le env b a.
Proof.
  unfold store_le. destruct (use_postgres env); [lia|apply String.leb_total].
Qed.

Lemma sorting_asc env col : sorting (sorts_before env col).
Proof.
  constructor.
  - intros a b H. apply sorts_before_le.
    destruct (store_le_total env (col a) (col b)) as [Hle|Hle]; [exact Hle|].
    apply sorts_before_le in Hle. congruence.
  - intros a b c H1 H2. rewrite sorts_before_le in *.
    now apply (store_le_trans env _ (col b)).
Qed.

Lemma sorting_desc env col : sorting (fun a b => sorts_before env col b a).
Proof.
  constructor.
  - intros a b H. now apply (so_asym _ (sorting_asc env col)).
  - intros a b c H1 H2.
    now apply (so_trans _ (sorting_asc env col) c b a).
Qed.

Lemma asc_In env col l m : In m (asc env col l) <-> In m l.
Proof. apply order_by_In. Qed.

Lemma desc_In env col l m : In m (desc env col l) <-> In m l.
Proof. apply order_by_In. Qed.

Lemma asc_sorted env col l :
  StronglySorted (fun a b => store_le env (col a) (col b)) (asc env col l).
Proof.
  pose proof (order_by_sorted _ l (sorting_asc env col)) as H.
  fold (asc env col l) in H.
  induction H as [|x xs _ IH Hall]; constructor; [exact IH|].
  eapply Forall_impl; [|exact Hall]. intros y Hy. now apply sorts_before_le.
Qed.

Lemma desc_sorted env col l :
  StronglySorted (fun a b => store_le env (col b) (col a)) (desc env col l).
Proof.
  pose proof (order_by_sorted _ l (sorting_desc env col)) as H.
  fold (desc env col l) in H.
  induction H as [|x xs _ IH Hall]; constructor; [exact IH|].
  eapply Forall_impl; [|exact Hall]. intros y Hy. unfold in_order in Hy.
  now apply (sorts_before_le env col y x).
Qed.

Lemma utc_now env k : pg_instant env (now_at env k) = clock env k.
Proof. unfold now_at, pg_instant, utc. lia. Qed.

(* ------------------------------------------------------------------ *)
(** ** C4: the conflict query *)

Lemma sql_lt_iff a b : sql_lt a b = true <-> lt_some a b.
Proof.
  unfold sql_lt, lt_some. destruct a as [x|], b as [y|].
  - rewrite Z.ltb_lt. split.
    + intros H. now exists x, y.
    + intros (x' & y' & E1 & E2 & H). inversion E1; inversion E2; now subst.
  - split; [discriminate|]. intros (x' & y' & _ & E & _). discriminate.
  - split; [discriminate|]. intros (x' & y' & E & _). discriminate.
  - split; [discriminate|]. intros (x' & y' & E & _). discriminate.
Qed.

Lemma sql_le_iff a b : sql_le a b = true <-> le_some a b.
Proof.
  unfold sql_le, le_some. destruct a as [x|], b as [y|].
  - rewrite Z.leb_le. split.
    + intros H. now exists x, y.
    + intros (x' & y' & E1 & E2 & H). inversion E1; inversion E2; now subst.
  - split; [discriminate|]. intros (x' & y' & _ & E & _). discriminate.
  - split; [discriminate|]. intros (x' & y' & E & _). discriminate.
  - split; [discriminate|]. intros (x' & y' & E & _). discriminate.
Qed.


Lemma overlap_pg_iff env start end' r :
  overlap_pg env start end' r = true <->
  overlaps (pg_instant env start) (pg_instant env end')
           (pg_instant env (start_time r))
           (option_map (pg_instant env) (end_time r)).
Proof.
  unfold overlap_pg, overlaps. rewrite andb_true_iff, Z.ltb_lt.
  destruct (end_time r); cbn [option_map]; rewrite Z.ltb_lt; lia.
Qed.


Lemma conflicts_with_status env start end' excl r :
  conflicts_with env start end' excl r = true ->
  ~ In (status r) excluded_statuses.
Proof.
  unfold conflicts_with. rewrite !andb_true_iff, negb_true_iff.
  intros [[H _] _]. now apply status_in_not_In.
Qed.

(** The query proper, once the end is defaulted and the parameters are
    bound. *)
Lemma check_conflicts_run env start end_opt excl w end' :
  default_end start end_opt = Ok end' ->
  binds env excl = true ->
  check_conflicts env start end_opt excl w
  = (Ok (asc env start_time
           (filter (conflicts_with env start end' excl) (rows w))), w).
Proof.
  unfold check_conflicts, default_end, bind, lift. intros Hd Hb.
  destruct end_opt as [e|].
  - inversion Hd; subst. now rewrite Hb.
  - rewrite Hd. now rewrite Hb.
Qed.

Lemma check_conflicts_keeps env start end_opt excl w :
  snd (check_conflicts env start end_opt excl w) = w.
Proof.
  unfold check_conflicts, bind, lift.
  destruct end_opt as [e|]; [|destruct (dt_add _ _)];
    try reflexivity; destruct (binds env excl); reflexivity.
Qed.


(** Touching windows in general: under PostgreSQL a record that ends no
    later than the candidate starts is never reported. *)
Lemma check_conflicts_boundary env start end_opt excl w r e res :
  use_postgres env = true ->
  check_conflicts env start end_opt excl w = (Ok res, w) ->
  end_time r = Some e -> pg_instant env e <= pg_instant env start -> ~ In r res.
Proof.
  intros Hpg H He Hle Hin.
  unfold check_conflicts, bind, lift in H.
  destruct (match end_opt with
            | Some e0 => Ok e0
            | None => dt_add start (timedelta_hours 1)
            end) as [end'|]; [|discriminate].
  destruct (binds env excl); [|discriminate].
  inversion H; subst; clear H.
  apply asc_In, filter_In in Hin. destruct Hin as [_ Hc].
  unfold conflicts_with in Hc. rewrite Hpg, !andb_true_iff in Hc.
  destruct Hc as [[_ Ho] _]. apply overlap_pg_iff in Ho.
  unfold overlaps in Ho. rewrite He in Ho. cbn in Ho. lia.
Qed.

(* ------------------------------------------------------------------ *)
(** ** C8: the due query *)

Lemma dt_add_raises d delta e : dt_add d delta = Raise e -> e = OverflowError.
Proof.
  unfold dt_add. destruct (_ && _); [discriminate|]. now inversion 1.
Qed.

Lemma horizon_raises now minutes_ahead e :
  horizon now minutes_ahead = Raise e -> e = OverflowError.
Proof.
  unfold horizon, timedelta_of_minutes.
  destruct (_ && _).
  - destruct (dt_add now (timedelta_minutes minutes_ahead)) eqn:E1.
    + destruct (dt_add now (- timedelta_minutes 10)) eqn:E2; [discriminate|].
      intros H. inversion H; subst. now apply dt_add_raises in E2.
    + intros H. inversion H; subst. now apply dt_add_raises in E1.
  - now inversion 1.
Qed.

(** The due query reads the clock once and leaves the store alone. *)
Lemma get_upcoming_run env minutes_ahead w :
  get_upcoming env minutes_ahead w
  = match horizon (now_at env (ticks w)) minutes_ahead with
    | Ok (cutoff, past_cutoff) =>
        (Ok (asc env start_time
               (filter (is_upcoming env (now_at env (ticks w)) cutoff past_cutoff)
                       (rows w))),
         tick w)
    | Raise e => (Raise e, tick w)
    end.
Proof.
  unfold get_upcoming, horizon, bind, lift, datetime_now, tick. cbn beta iota.
  destruct (timedelta_of_minutes minutes_ahead) as [delta|]; [|reflexivity].
  destruct (dt_add _ delta) as [cutoff|]; [|reflexivity].
  destruct (dt_add _ (- timedelta_minutes 10)); reflexivity.
Qed.

Lemma get_upcoming_ticks env minutes_ahead w :
  snd (get_upcoming env minutes_ahead w) = tick w.
Proof.
  rewrite get_upcoming_run.
  destruct (horizon _ _) as [[cutoff past]|]; reflexivity.
Qed.

Lemma is_upcoming_pending env now cutoff past_cutoff r :
  is_upcoming env now cutoff past_cutoff r = true -> status r = "pending"%string.
Proof.
  unfold is_upcoming. rewrite andb_true_iff. intros [H _].
  now apply str_eqb_eq.
Qed.

Lemma get_upcoming_pending env minutes_ahead w res w' r :
  get_upcoming env minutes_ahead w = (Ok res, w') ->
  In r res -> In r (rows w) /\ status r = "pending"%string.
Proof.
  rewrite get_upcoming_run.
  destruct (horizon _ _) as [[cutoff past]|]; [|discriminate].
  intros H Hin. inversion H; subst; clear H.
  apply asc_In, filter_In in Hin. destruct Hin as [Hin Hup].
  split; [exact Hin|]. now apply is_upcoming_pending in Hup.
Qed.

Lemma horizon_instants env k minutes_ahead cutoff past_cutoff :
  horizon (now_at env k) minutes_ahead = Ok (cutoff, past_cutoff) ->
  pg_instant env cutoff = clock env k + timedelta_minutes minutes_ahead
  /\ pg_instant env past_cutoff = clock env k - timedelta_minutes 10.
Proof.
  unfold horizon, timedelta_of_minutes, dt_add, now_at. cbn [wall_clock].
  destruct (_ && _); [|discriminate].
  destruct (_ && _); [|discriminate].
  destruct (_ && _); [|discriminate].
  intros H. inversion H; subst. unfold pg_instant, utc. cbn beta.
  unfold timedelta_minutes. lia.
Qed.

Lemma window_pg_iff env k minutes_ahead cutoff past_cutoff r :
  horizon (now_at env k) minutes_ahead = Ok (cutoff, past_cutoff) ->
  window_pg env (now_at env k) cutoff past_cutoff r = true <->
  due_at (clock env k) (timedelta_minutes minutes_ahead)
         (pg_instant env (start_time r))
         (option_map (pg_instant env) (end_time r)).
Proof.
  intros Hh. apply (horizon_instants env) in Hh. destruct Hh as [Hc Hp].
  unfold window_pg, due_at. rewrite Hc, Hp, utc_now.
  rewrite orb_true_iff, !andb_true_iff, !Z.leb_le, Z.ltb_lt.
  destruct (end_time r); cbn [option_map]; [rewrite Z.ltb_lt|]; intuition lia.
Qed.

Lemma window_sqlite_iff env now cutoff past_cutoff r :
  window_sqlite env now cutoff past_cutoff r = true <->
  due_sqlite env now cutoff past_cutoff r.
Proof.
  unfold window_sqlite, due_sqlite.
  rewrite orb_true_iff, !andb_true_iff, !sql_le_iff, sql_lt_iff.
  destruct (end_time r); [rewrite sql_lt_iff|]; tauto.
Qed.

(** C8. [get_upcoming(minutes_ahead)] reads the clock once and returns,
    ordered as the store sorts start times, exactly the pending records
    that are due. Under PostgreSQL a record is due when its start lies
    within [[now - 10 min, now + minutes_ahead]] or its window straddles
    [now], on instants; under SQLite the same tests are made on what
    [datetime()] gives for each time. When the horizon cannot be computed
    the call raises [OverflowError]. [check_upcoming] is that query at
    [join_before_minutes + 1]. The stores part in two places. With the
    clock at 09:00:00.5 a pending record that started at 08:50:00 and is
    over lies outside the window: PostgreSQL leaves it out, SQLite, whose
    [datetime()] counts whole seconds, returns it. And of two due records
    whose start texts carry different UTC offsets SQLite returns the later
    one first, the texts being in order. *)
Theorem get_upcoming_exact (env : Env) (minutes_ahead : Z) (w : World) :
  let now := now_at env (ticks w) in
  match horizon now minutes_ahead with
  | Ok (cutoff, past_cutoff) =>
      exists res,
        get_upcoming env minutes_ahead w = (Ok res, tick w)
        /\ (forall r,
              In r res <->
              In r (rows w)
              /\ status r = "pending"%string
              /\ if use_postgres env
                 then due_at (clock env (ticks w))
                             (timedelta_minutes minutes_ahead)
                             (pg_instant env (start_time r))
                             (option_map (pg_instant env) (end_time r))
                 else due_sqlite env now cutoff past_cutoff r)
        /\ StronglySorted
             (fun a b => store_le env (start_time a) (start_time b)) res
  | Raise e =>
      e = OverflowError
      /\ get_upcoming env minutes_ahead w = (Raise OverflowError, tick w)
  end
  /\ check_upcoming env w = get_upcoming env (join_before_minutes env + 1) w
  /\ (let G := booked 1 "G" (at_hm 8 50) (Some (at_hm 8 55)) in
      let east := booked 1 "east"
                    (Aware (instant_hm 11 1) (fun _ => timedelta_hours 2)) None in
      let west := booked 2 "west" (at_hm 9 2) None in
      isoformat (now_at env_sqlite_half 0)
      = "2024-01-01T09:00:00.500000+00:00"%string
      /\ ~ due_at (instant_hm 9 0 + 500000) (timedelta_minutes 2)
                  (instant_hm 8 50) (Some (instant_hm 8 55))
      /\ fst (get_upcoming env_half 2 (world_of [G])) = Ok []
      /\ fst (get_upcoming env_sqlite_half 2 (world_of [G])) = Ok [G]
      /\ isoformat (start_time east) = "2024-01-01T11:01:00+02:00"%string
      /\ isoformat (start_time west) = "2024-01-01T09:02:00+00:00"%string
      /\ utc (instant_hm 11 1) (fun _ => timedelta_hours 2) < instant_hm 9 2
      /\ fst (get_upcoming env0 2 (world_of [east; west])) = Ok [east; west]
      /\ fst (get_upcoming env_sqlite_dev 2 (world_of [east; west]))
         = Ok [west; east]).
Proof.
  cbv zeta. split; [|split; [reflexivity|]].
  2:{ repeat split; try (vm_compute; reflexivity).
      unfold due_at, instant_hm, day_2024, timedelta_days, timedelta_hours,
        timedelta_minutes. cbn. lia. }
  rewrite get_upcoming_run.
  destruct (horizon _ minutes_ahead) as [[cutoff past_cutoff]|e] eqn:Hh.
  - eexists. split; [reflexivity|]. split; [|apply asc_sorted].
    intros r. rewrite asc_In, filter_In. unfold is_upcoming.
    rewrite andb_true_iff, str_eqb_eq.
    destruct (use_postgres env).
    + rewrite (window_pg_iff env (ticks w) minutes_ahead cutoff past_cutoff r Hh).
      tauto.
    + rewrite window_sqlite_iff. tauto.
  - apply horizon_raises in Hh. subst e. now split.
Qed.
(* ------------------------------------------------------------------ *)
(** ** Well-formed stores *)

Lemma NoDup_map_eq {A B} (f : A -> B) l x y :
  NoDup (map f l) -> In x l -> In y l -> f x = f y -> x = y.
Proof.
  induction l as [|a l IH]; simpl; [tauto|].
  intros Hnd Hx Hy E. inversion Hnd as [|? ? Hnotin Hnd']; subst.
  destruct Hx as [->|Hx], Hy as [->|Hy]; auto.
  - exfalso. apply Hnotin. rewrite E. now apply in_map.
  - exfalso. apply Hnotin. rewrite <- E. now apply in_map.
Qed.

Lemma Forall2_map_self {A} (R : A -> A -> Prop) (f : A -> A) l :
  (forall x, In x l -> R x (f x)) -> Forall2 R l (map f l).
Proof.
  induction l as [|a l IH]; simpl; intros H; constructor; auto.
Qed.

Lemma id_matches_iff i r : id_matches (Some i) r = true <-> id r = Some i.
Proof.
  unfold id_matches. destruct (id r) as [j|].
  - rewrite Z.eqb_eq. split; congruence.
  - split; discriminate.
Qed.

Lemma id_matches_None r : id_matches None r = false.
Proof. reflexivity. Qed.

Lemma update_rows_only_changes l r s :
  NoDup (map id l) -> In r l -> (exists i, id r = Some i) ->
  Forall2 (only_changes r s) l (update_rows (id r) s l).
Proof.
  intros Hnd Hr (i & Hi). unfold update_rows. apply Forall2_map_self.
  intros x Hx. rewrite Hi. destruct (id_matches (Some i) x) eqn:E.
  - apply id_matches_iff in E. left.
    assert (x = r) by (eapply NoDup_map_eq; eauto; congruence).
    now subst.
  - right. split; [|reflexivity]. intros ->.
    apply id_matches_iff in Hi. congruence.
Qed.

Lemma update_rows_length i s l : List.length (update_rows i s l) = List.length l.
Proof. apply length_map. Qed.

Lemma update_rows_ids i s l : map id (update_rows i s l) = map id l.
Proof.
  unfold update_rows. rewrite map_map. apply map_ext.
  intros r. now destruct (id_matches i r).
Qed.

Lemma update_rows_keys i s l :
  map message_id (update_rows i s l) = map message_id l.
Proof.
  unfold update_rows. rewrite map_map. apply map_ext.
  intros r. now destruct (id_matches i r).
Qed.

(* ------------------------------------------------------------------ *)
(** ** Lookup by protocol identity *)

Lemma get_by_uid_empty env w : get_by_uid env EmptyString w = (Ok None, w).
Proof. reflexivity. Qed.

Lemma store_le_refl env a : store_le env a a.
Proof. now destruct (store_le_total env a a). Qed.

Lemma get_by_uid_found env u w r :
  get_by_uid env u w = (Ok (Some r), w) ->
  u <> EmptyString /\ most_recent_for env u (rows w) r.
Proof.
  unfold get_by_uid. destruct (nonempty u) eqn:Hu; simpl; [|discriminate].
  intros H. inversion H as [Hhd]; clear H.
  split; [now apply nonempty_true|].
  apply order_by_head in Hhd; [|apply sorting_desc].
  destruct Hhd as [Hr Hmax].
  apply filter_In in Hr. destruct Hr as [Hr Hu']. apply str_eqb_eq in Hu'.
  repeat split; auto.
  intros r' Hr' Hu''.
  destruct (Hmax r') as [->|Hord].
  - apply filter_In. split; [exact Hr'|now apply str_eqb_eq].
  - apply store_le_refl.
  - unfold in_order in Hord. now apply (sorts_before_le env created_at r' r).
Qed.

Lemma get_by_uid_total env u w :
  exists o, get_by_uid env u w = (Ok o, w).
Proof.
  unfold get_by_uid. destruct (nonempty u); simpl; eexists; reflexivity.
Qed.

Lemma get_by_uid_missing env u w :
  get_by_uid env u w = (Ok None, w) ->
  u = EmptyString \/ forall r, In r (rows w) -> uid r <> u.
Proof.
  unfold get_by_uid. destruct (nonempty u) eqn:Hu; simpl.
  - intros H. inversion H as [Hhd]; clear H. right. intros r Hr E.
    pose proof (desc_In env created_at
                  (filter (fun r => str_eqb (uid r) u) (rows w)) r) as Hin.
    destruct (desc _ _ _); [|discriminate].
    apply Hin. apply filter_In. split; [exact Hr|now apply str_eqb_eq].
  - intros _. left. now apply nonempty_false.
Qed.

(* ------------------------------------------------------------------ *)
(** ** C10, C6: cancellations *)

Lemma process_invite_cancel env inv w :
  inv_method inv = "CANCEL"%string ->
  process_invite env inv w = _handle_cancellation env inv w.
Proof.
  intros H. unfold process_invite. rewrite H. reflexivity.
Qed.

Lemma sync_invite_cancel env inv w :
  inv_method inv = "CANCEL"%string ->
  sync_invite env inv w
  = (let (r, w') := _handle_cancellation env inv w in
     match r with
     | Ok _ => (Ok false, w')
     | Raise e => (Raise e, w')
     end).
Proof.
  intros H. unfold sync_invite. rewrite H. reflexivity.
Qed.

(** C10. A CANCEL invite whose uid is empty is a no-op: the handler returns
    before any lookup, on either ingestion path, and [get_by_uid] of the
    empty string answers [None] whatever the store holds. *)
Theorem cancel_without_uid_noop (env : Env) (inv : MeetingInvite) (w : World) :
  inv_method inv = "CANCEL"%string ->
  inv_uid inv = EmptyString ->
  _handle_cancellation env inv w = (Ok tt, w)
  /\ process_invite env inv w = (Ok tt, w)
  /\ sync_invite env inv w = (Ok false, w)
  /\ get_by_uid env EmptyString w = (Ok None, w).
Proof.
  intros Hm Hu.
  assert (H : _handle_cancellation env inv w = (Ok tt, w)).
  { unfold _handle_cancellation. rewrite Hu. reflexivity. }
  repeat split.
  - exact H.
  - rewrite process_invite_cancel by exact Hm. exact H.
  - rewrite sync_invite_cancel by exact Hm. now rewrite H.
Qed.

Lemma cancel_without_uid_noop_witness :
  let w := world_of [booked 1 "A" (at_hm 10 0) (Some (at_hm 11 0))] in
  process_invite env0 (cancel_invite EmptyString) w = (Ok tt, w).
Proof.
  intros w.
  exact (proj1 (proj2 (cancel_without_uid_noop env0 (cancel_invite EmptyString) w
                         eq_refl eq_refl))).
Defined.

(** What [_handle_cancellation] does, by the result of the lookup. *)
Lemma handle_cancellation_cases env inv w :
  exists w',
    _handle_cancellation env inv w = (Ok tt, w')
    /\ next_id w' = next_id w /\ ticks w' = ticks w /\ events w' = events w
    /\ ((exists r, get_by_uid env (inv_uid inv) w = (Ok (Some r), w)
                   /\ rows w' = if status_in (status r) ["cancelled"; "completed"]%string
                                then rows w
                                else update_rows (id r) "cancelled" (rows w))
        \/ (get_by_uid env (inv_uid inv) w = (Ok None, w) /\ rows w' = rows w)).
Proof.
  unfold _handle_cancellation.
  destruct (nonempty (inv_uid inv)) eqn:Hu; cbn [negb].
  - unfold bind.
    destruct (get_by_uid_total env (inv_uid inv) w) as (o & Ho). rewrite Ho.
    destruct o as [r|].
    + destruct (status_in (status r) ["cancelled"; "completed"]%string) eqn:Hs;
        cbn [negb]; unfold update_status, ret;
        eexists; (split; [reflexivity|]); repeat split;
        left; exists r; rewrite ?Hs; auto.
    + eexists. split; [reflexivity|]. repeat split. right. auto.
  - exists w. split; [reflexivity|]. repeat split. right.
    apply nonempty_false in Hu. rewrite Hu. auto.
Qed.

(** C6. A CANCEL invite never inserts a row. It resolves the record with
    the invite's uid whose [created_at] comes last in the order of the
    store: the latest instant under PostgreSQL, the greatest ISO text under
    SQLite. If that record is neither cancelled nor completed its status
    becomes cancelled and nothing else changes; if it is cancelled or
    completed, or no record matches, the store is unchanged. *)
Theorem cancel_resolves_by_uid (env : Env) (inv : MeetingInvite) (w : World) :
  store_wf w ->
  inv_method inv = "CANCEL"%string ->
  exists w',
    process_invite env inv w = (Ok tt, w')
    /\ sync_invite env inv w = (Ok false, w')
    /\ List.length (rows w') = List.length (rows w)
    /\ map id (rows w') = map id (rows w)
    /\ next_id w' = next_id w /\ events w' = events w
    /\ ((exists r,
           get_by_uid env (inv_uid inv) w = (Ok (Some r), w)
           /\ most_recent_for env (inv_uid inv) (rows w) r
           /\ (~ In (status r) ["cancelled"; "completed"]%string ->
               Forall2 (only_changes r "cancelled") (rows w) (rows w'))
           /\ (In (status r) ["cancelled"; "completed"]%string ->
               rows w' = rows w))
        \/ (get_by_uid env (inv_uid inv) w = (Ok None, w)
            /\ (inv_uid inv = EmptyString
                \/ forall r, In r (rows w) -> uid r <> inv_uid inv)
            /\ rows w' = rows w)).
Proof.
  intros Hwf Hm.
  destruct (handle_cancellation_cases env inv w)
    as (w' & Hrun & Hn & Ht & He & Hcases).
  exists w'.
  rewrite process_invite_cancel, sync_invite_cancel, Hrun by exact Hm.
  split; [reflexivity|]. split; [reflexivity|].
  assert (Hlen : List.length (rows w') = List.length (rows w)
                 /\ map id (rows w') = map id (rows w)).
  { destruct Hcases as [(r & _ & Hr)|(_ & Hr)]; rewrite Hr.
    - destruct (status_in _ _); [auto|].
      now rewrite update_rows_length, update_rows_ids.
    - auto. }
  destruct Hlen as [Hlen Hids].
  repeat (split; [assumption|]).
  destruct Hcases as [(r & Hget & Hr)|(Hget & Hr)].
  - left. exists r. destruct (get_by_uid_found _ _ _ _ Hget) as [Hne Hmost].
    split; [exact Hget|]. split; [exact Hmost|].
    destruct (status_in (status r) ["cancelled"; "completed"]%string) eqn:Hs.
    + apply status_in_In in Hs. split; [tauto|auto].
    + apply status_in_not_In in Hs. split; [|tauto].
      intros _. rewrite Hr. destruct Hmost as (Hin & _).
      apply update_rows_only_changes; [apply Hwf|exact Hin|].
      pose proof (wf_ids _ Hwf) as Hall. rewrite Forall_forall in Hall.
      destruct (Hall _ Hin) as (i & Hi & _). now exists i.
  - right. split; [exact Hget|]. split; [|exact Hr].
    now apply (get_by_uid_missing env).
Qed.

Lemma world_of_A_wf : store_wf (world_of [meeting_A]).
Proof.
  constructor; simpl.
  - lia.
  - repeat constructor. exists 1. split; [reflexivity|lia].
  - repeat constructor. simpl. tauto.
  - repeat constructor. simpl. tauto.
Qed.

Lemma world_of_issues_wf : store_wf (world_of [first_issue; second_issue]).
Proof.
  constructor; simpl.
  - lia.
  - repeat constructor; [exists 1|exists 2]; (split; [reflexivity|lia]).
  - repeat constructor; simpl; intuition discriminate.
  - repeat constructor; simpl; intuition discriminate.
Qed.

(** Where the stores part: of two records of one uid written under
    different UTC offsets, the second forty minutes after the first,
    PostgreSQL cancels the one created last; SQLite cancels the one whose
    text is greater, which is the one created first. *)
Lemma cancel_resolves_by_uid_witness :
  isoformat (created_at first_issue) = "2024-01-01T12:30:00+02:00"%string
  /\ isoformat (created_at second_issue) = "2024-01-01T12:10:00+01:00"%string
  /\ utc (instant_hm 12 30) (fun _ => timedelta_hours 2)
     < utc (instant_hm 12 10) (fun _ => timedelta_hours 1)
  /\ (exists w',
        process_invite env0 (cancel_invite "uid-r")
                       (world_of [first_issue; second_issue]) = (Ok tt, w')
        /\ map status (rows w') = ["pending"; "cancelled"]%string)
  /\ (exists w',
        process_invite env_sqlite_dev (cancel_invite "uid-r")
                       (world_of [first_issue; second_issue]) = (Ok tt, w')
        /\ map status (rows w') = ["cancelled"; "pending"]%string).
Proof.
  split; [vm_compute; reflexivity|]. split; [vm_compute; reflexivity|].
  split; [vm_compute; reflexivity|]. split.
  - destruct (cancel_resolves_by_uid env0 (cancel_invite "uid-r")
                (world_of [first_issue; second_issue]) world_of_issues_wf eq_refl)
      as (w' & Hrun & _).
    exists w'. split; [exact Hrun|].
    vm_compute in Hrun. inversion Hrun. reflexivity.
  - destruct (cancel_resolves_by_uid env_sqlite_dev (cancel_invite "uid-r")
                (world_of [first_issue; second_issue]) world_of_issues_wf eq_refl)
      as (w' & Hrun & _).
    exists w'. split; [exact Hrun|].
    vm_compute in Hrun. inversion Hrun. reflexivity.
Defined.

(** Of two records of one uid created at the same time, both stores
    resolve the one inserted first. *)
Example get_by_uid_equal_created :
  let a := issue 1 "<r1@example.com>" (at_hm 12 0) in
  let b := issue 2 "<r2@example.com>" (at_hm 12 0) in
  fst (get_by_uid env0 "uid-r" (world_of [a; b])) = Ok (Some a)
  /\ fst (get_by_uid env_sqlite_dev "uid-r" (world_of [a; b])) = Ok (Some a).
Proof. split; reflexivity. Qed.

(* ------------------------------------------------------------------ *)
(** ** Insert-if-absent *)

Lemma add_meeting_fresh env m w :
  key_exists (message_id m) (rows w) = false ->
  add_meeting env m w = (Ok (Some (next_id w)), inserted env m w).
Proof.
  intros H. unfold add_meeting. rewrite H. reflexivity.
Qed.

Lemma add_meeting_duplicate env m w :
  key_exists (message_id m) (rows w) = true ->
  rows (snd (add_meeting env m w)) = rows w
  /\ events (snd (add_meeting env m w)) = events w
  /\ ticks (snd (add_meeting env m w)) = ticks w
  /\ (fst (add_meeting env m w) = Ok None
      \/ fst (add_meeting env m w) = Raise (IntegrityError (raised_driver env))).
Proof.
  intros H. unfold add_meeting. rewrite H.
  destruct (driver_eqb _ _); simpl; auto.
Qed.

(** Where the class caught is the class raised, a duplicate key gives
    [None]. *)
Lemma add_meeting_duplicate_none env m w :
  driver_eqb (raised_driver env) (caught_driver env) = true ->
  key_exists (message_id m) (rows w) = true ->
  fst (add_meeting env m w) = Ok None.
Proof.
  intros Hd H. unfold add_meeting. rewrite H, Hd. reflexivity.
Qed.

Lemma key_exists_In k l :
  key_exists k l = true <-> In k (map message_id l).
Proof.
  unfold key_exists. rewrite existsb_exists, in_map_iff. split.
  - intros (r & Hr & E). apply str_eqb_eq in E. eauto.
  - intros (r & E & Hr). exists r. split; [exact Hr|now apply str_eqb_eq].
Qed.

Lemma truthy_id_pos i : 0 < i -> truthy_id (Some i) = true.
Proof.
  intros H. unfold truthy_id. apply negb_true_iff, Z.eqb_neq. lia.
Qed.

(** A rejected insert leaves rows and events alone and hands back [None]
    or the exception. *)
Lemma add_meeting_rejected env m w :
  key_exists (message_id m) (rows w) = true ->
  exists r w',
    add_meeting env m w = (r, w')
    /\ rows w' = rows w /\ events w' = events w
    /\ (r = Ok None \/ exists e, r = Raise e).
Proof.
  intros Hk. unfold add_meeting. rewrite Hk.
  destruct (driver_eqb _ _); do 2 eexists; (split; [reflexivity|]); cbn; eauto.
Qed.

(** The conflict query leaves the world alone. *)
Lemma check_conflicts_result env start end_opt excl w :
  check_conflicts env start end_opt excl w
  = (fst (check_conflicts env start end_opt excl w), w).
Proof.
  rewrite <- (check_conflicts_keeps env start end_opt excl w) at 3.
  now destruct (check_conflicts env start end_opt excl w).
Qed.

Ltac reject_insert Hk :=
  match goal with
  | |- context [add_meeting ?env ?m ?w0] =>
      let r := fresh "r" in
      let w1 := fresh "w1" in
      let E := fresh "E" in
      let Hr := fresh "Hr" in
      let He := fresh "He" in
      let Hres := fresh "Hres" in
      destruct (add_meeting_rejected env m w0 Hk)
        as (r & w1 & E & Hr & He & Hres);
      rewrite E; cbn [rows events] in Hr, He;
      destruct Hres as [->|(? & ->)]; cbn [truthy_id]; cbn beta iota;
      do 2 eexists; (split; [reflexivity|]); auto
  end.

Lemma redelivery_process env inv w :
  inv_method inv <> "CANCEL"%string ->
  key_exists (inv_message_id inv) (rows w) = true ->
  exists r w',
    process_invite env inv w = (r, w')
    /\ rows w' = rows w /\ events w' = events w.
Proof.
  intros Hm Hk. apply str_eqb_neq in Hm.
  unfold process_invite. rewrite Hm.
  destruct (nonempty (inv_join_url inv)); cbn [negb]; [|unfold ret; eauto].
  destruct (inv_start_time inv) as [start|]; [|unfold ret; eauto].
  unfold bind at 1. unfold datetime_now at 1. cbn beta iota.
  unfold bind at 1. unfold lift at 1.
  destruct (ended_before inv _) as [[|]|e]; [| |eauto].
  - unfold record_missed, bind, datetime_now, ret. cbn beta iota.
    reject_insert Hk.
  - unfold bind at 1. rewrite check_conflicts_result.
    destruct (fst (check_conflicts _ _ _ _ _)) as [[|c cs]|e];
      [| |cbn [rows events]; eauto];
      unfold bind, datetime_now, ret; cbn beta iota;
      reject_insert Hk.
Qed.

Lemma redelivery_sync env inv w :
  inv_method inv <> "CANCEL"%string ->
  key_exists (inv_message_id inv) (rows w) = true ->
  exists r w',
    sync_invite env inv w = (r, w')
    /\ rows w' = rows w /\ events w' = events w.
Proof.
  intros Hm Hk. apply str_eqb_neq in Hm.
  unfold sync_invite. rewrite Hm.
  destruct (nonempty (inv_join_url inv)); cbn [negb]; [|unfold ret; eauto].
  destruct (inv_start_time inv) as [start|]; [|unfold ret; eauto].
  unfold bind at 1. unfold datetime_now at 1. cbn beta iota.
  unfold bind at 1. unfold lift at 1.
  destruct (ended_before inv _) as [[|]|e]; [| |eauto].
  - unfold record_missed, bind, datetime_now, ret. cbn beta iota.
    reject_insert Hk.
  - unfold bind at 1. rewrite check_conflicts_result.
    destruct (fst (check_conflicts _ _ _ _ _)) as [[|c cs]|e];
      [| |cbn [rows events]; eauto];
      unfold bind, datetime_now, ret; cbn beta iota;
      reject_insert Hk.
Qed.

(** Whatever the configuration, a non-CANCEL invite whose key is stored
    already leaves rows and event log as they are: nothing is inserted, no
    RSVP is requested, no join is triggered. *)
Lemma redelivery_changes_nothing env inv w :
  inv_method inv <> "CANCEL"%string ->
  key_exists (inv_message_id inv) (rows w) = true ->
  rows (exec (process_invite env inv) w) = rows w
  /\ events (exec (process_invite env inv) w) = events w
  /\ rows (exec (sync_invite env inv) w) = rows w
  /\ events (exec (sync_invite env inv) w) = events w.
Proof.
  intros Hm Hk. unfold exec.
  destruct (redelivery_process env inv w Hm Hk) as (r & w' & -> & Hr & He).
  destruct (redelivery_sync env inv w Hm Hk) as (r2 & w2 & -> & Hr2 & He2).
  auto.
Qed.

(* ------------------------------------------------------------------ *)
(** ** C7: invites that are skipped or already over *)

Lemma ended_before_aware inv e_wall e_tz env k :
  inv_end_time inv = Some (Aware e_wall e_tz) ->
  ended_before inv (now_at env k) = Ok (utc e_wall e_tz <? clock env k).
Proof.
  intros He. unfold ended_before. rewrite He.
  unfold now_at, dt_lt. f_equal. f_equal. unfold utc. cbn beta. lia.
Qed.

Lemma ended_before_naive inv e_wall env k :
  inv_end_time inv = Some (Naive e_wall) ->
  ended_before inv (now_at env k) = Raise TypeError.
Proof.
  intros He. unfold ended_before. now rewrite He.
Qed.

Lemma ended_before_none inv now :
  inv_end_time inv = None -> ended_before inv now = Ok false.
Proof.
  intros He. unfold ended_before. now rewrite He.
Qed.

(** C7. For a non-CANCEL invite: without a join URL or without a start time
    nothing is stored and nothing is sent. Otherwise, when the invite's end
    is timezone-aware and lies before the time of ingestion, the record
    goes to the store with status missed (inserted unless its key is
    already held), no RSVP is sent and no join is triggered; both ingestion
    paths agree. When the invite's end is naive, as [_parse_ics] makes it
    for all-day and floating-time events, the comparison with the clock
    raises [TypeError]: nothing is stored, and the pass of [sync_inbox]
    ends there. *)
Theorem skipped_or_missed (env : Env) (inv : MeetingInvite) (w : World) :
  inv_method inv <> "CANCEL"%string ->
  ((inv_join_url inv = EmptyString \/ inv_start_time inv = None) ->
   process_invite env inv w = (Ok tt, w)
   /\ sync_invite env inv w = (Ok false, w))
  /\ (forall start e_wall e_tz,
         inv_join_url inv <> EmptyString ->
         inv_start_time inv = Some start ->
         inv_end_time inv = Some (Aware e_wall e_tz) ->
         utc e_wall e_tz < clock env (ticks w) ->
         let m := meeting_of inv start "missed" (now_at env (S (ticks w))) in
         let w' := exec (process_invite env inv) w in
         exec (sync_invite env inv) w = w'
         /\ events w' = events w
         /\ status m = "missed"%string
         /\ (key_exists (inv_message_id inv) (rows w) = false ->
             process_invite env inv w = (Ok tt, w')
             /\ rows w' = rows w ++ [stored env m (next_id w)
                                       (_detect_platform (inv_join_url inv))])
         /\ (key_exists (inv_message_id inv) (rows w) = true ->
             rows w' = rows w))
  /\ (forall start e_wall,
         inv_join_url inv <> EmptyString ->
         inv_start_time inv = Some start ->
         inv_end_time inv = Some (Naive e_wall) ->
         process_invite env inv w = (Raise TypeError, tick w)
         /\ sync_invite env inv w = (Raise TypeError, tick w)
         /\ forall rest,
             sync_inbox env true (inv :: rest) w = (Raise TypeError, tick w)).
Proof.
  intros Hm. apply str_eqb_neq in Hm. split; [|split].
  - intros Hskip. unfold process_invite, sync_invite. rewrite Hm.
    destruct (nonempty (inv_join_url inv)) eqn:Hu; cbn [negb]; [|now split].
    destruct Hskip as [Hurl|Hstart].
    + apply nonempty_false in Hurl. congruence.
    + rewrite Hstart. now split.
  - intros start e_wall e_tz Hurl Hstart Hend Hpast m w'.
    apply nonempty_true in Hurl.
    assert (Hended : ended_before inv (now_at env (ticks w)) = Ok true).
    { rewrite (ended_before_aware inv e_wall e_tz env (ticks w) Hend).
      f_equal. now apply Z.ltb_lt. }
    subst w'. unfold exec, process_invite, sync_invite.
    rewrite Hm, Hurl, Hstart. cbn [negb].
    unfold bind, datetime_now, lift. cbn beta iota. rewrite Hended.
    unfold record_missed, bind, datetime_now, ret. cbn beta iota.
    cbn [ticks rows next_id events]. fold m.
    destruct (key_exists (inv_message_id inv) (rows w)) eqn:Hk.
    + destruct (add_meeting_duplicate env m (tick (tick w)))
        as (Hr & He & _ & Hres); [exact Hk|].
      unfold tick in *. cbn [ticks rows next_id events] in *.
      destruct (add_meeting env m _) as [res w1]. cbn [fst snd] in *.
      destruct res; cbn [snd]; repeat split; auto; discriminate.
    + pose proof (add_meeting_fresh env m (tick (tick w)) Hk) as Hadd.
      unfold tick in Hadd. cbn [ticks rows next_id events] in Hadd.
      rewrite Hadd.
      cbn [snd inserted tick rows events next_id].
      repeat split; discriminate.
  - intros start e_wall Hurl Hstart Hend.
    apply nonempty_true in Hurl.
    pose proof (ended_before_naive inv e_wall env (ticks w) Hend) as Hended.
    assert (Hs : sync_invite env inv w = (Raise TypeError, tick w)).
    { unfold sync_invite. rewrite Hm, Hurl, Hstart. cbn [negb].
      unfold bind, datetime_now, lift. cbn beta iota. now rewrite Hended. }
    split; [|split; [exact Hs|]].
    + unfold process_invite. rewrite Hm, Hurl, Hstart. cbn [negb].
      unfold bind, datetime_now, lift. cbn beta iota. now rewrite Hended.
    + intros rest. unfold sync_inbox. cbn [negb sync_loop].
      unfold bind at 1. now rewrite Hs.
Qed.

Lemma skipped_or_missed_witness :
  (let w' := exec (process_invite env0 invite_old) (world_of [meeting_A]) in
   events w' = [] /\ map status (rows w') = ["pending"; "missed"]%string)
  /\ sync_inbox env0 true [invite_all_day; invite_C] (world_of [meeting_A])
     = (Raise TypeError, tick (world_of [meeting_A])).
Proof.
  split.
  - intros w'.
    assert (Hm : inv_method invite_old <> "CANCEL"%string) by discriminate.
    destruct (skipped_or_missed env0 invite_old (world_of [meeting_A]) Hm)
      as (_ & H & _).
    assert (Hurl : inv_join_url invite_old <> EmptyString) by discriminate.
    assert (Hpast : utc (instant_hm 8 0) (fun _ => 0)
                    < clock env0 (ticks (world_of [meeting_A])))
      by (vm_compute; reflexivity).
    destruct (H (at_hm 7 0) (instant_hm 8 0) (fun _ => 0)
                Hurl eq_refl eq_refl Hpast)
      as (_ & Hev & _ & Hins & _).
    split; [exact Hev|].
    destruct (Hins eq_refl) as [_ Hrows]. subst w'. rewrite Hrows. reflexivity.
  - assert (Hm : inv_method invite_all_day <> "CANCEL"%string) by discriminate.
    assert (Hurl : inv_join_url invite_all_day <> EmptyString) by discriminate.
    exact (proj2 (proj2 (proj2 (proj2
             (skipped_or_missed env0 invite_all_day (world_of [meeting_A]) Hm))
             (Naive day_2024) (day_2024 + timedelta_days 1)
             Hurl eq_refl eq_refl)) [invite_C]).
Defined.

(* ------------------------------------------------------------------ *)
(** ** C5: the conflict policy *)

Lemma decline_reason_format conflicts :
  let shown := firstn 3 conflicts in
  let joined := String.concat ", " (map title shown) in
  (List.length shown <= 3)%nat
  /\ decline_reason conflicts
     = ("Scheduling conflict with: "
        ++ (if (List.length conflicts <=? 3)%nat then joined
            else joined ++ " (+" ++ str_of_nat (List.length conflicts - 3)
                        ++ " more)"))%string.
Proof.
  intros shown joined. split.
  - subst shown. rewrite length_firstn. lia.
  - unfold decline_reason, conflict_titles. fold shown. fold joined.
    destruct (3 <? List.length conflicts)%nat eqn:E.
    + apply Nat.ltb_lt in E.
      destruct (List.length conflicts <=? 3)%nat eqn:E'; [|reflexivity].
      apply Nat.leb_le in E'. lia.
    + apply Nat.ltb_ge in E.
      destruct (List.length conflicts <=? 3)%nat eqn:E'; [reflexivity|].
      apply Nat.leb_gt in E'. lia.
Qed.

Example decline_reason_five :
  decline_reason [booked 1 "T1" (at_hm 10 0) None; booked 2 "T2" (at_hm 10 0) None;
                  booked 3 "T3" (at_hm 10 0) None; booked 4 "T4" (at_hm 10 0) None;
                  booked 5 "T5" (at_hm 10 0) None]
  = "Scheduling conflict with: T1, T2, T3 (+2 more)"%string.
Proof. reflexivity. Qed.

Example decline_reason_two :
  decline_reason [booked 1 "T1" (at_hm 10 0) None; booked 2 "T2" (at_hm 10 0) None]
  = "Scheduling conflict with: T1, T2"%string.
Proof. reflexivity. Qed.

(** The conflict query of the pipeline answers when the default end can be
    computed. *)
Lemma check_conflicts_answers env start end_opt w end' :
  default_end start end_opt = Ok end' ->
  exists conflicts, check_conflicts env start end_opt None w = (Ok conflicts, w).
Proof.
  intros Hd. eexists. now apply (check_conflicts_run env start end_opt None w end').
Qed.

(** C5 (amended). For an actionable non-CANCEL invite whose end, when it
    has one, is timezone-aware and not past, and whose default end can be
    computed, the conflict query alone decides: the record goes to the
    store as declined when the query answers a non-empty list and as
    pending when it answers the empty list. When the invite's key is not
    stored yet the record is inserted, and the matching RSVP (decline with
    the reason, or accept) is requested if an RSVP sender is configured;
    the reason names at most three titles, followed by [(+N more)] beyond
    three; after a pending insert [process_invite] goes on to the join
    check. When the key is stored already nothing is inserted and nothing
    requested. *)
Theorem conflict_policy (env : Env) (inv : MeetingInvite) (w : World)
        (start end' : datetime) :
  inv_method inv <> "CANCEL"%string ->
  inv_join_url inv <> EmptyString ->
  inv_start_time inv = Some start ->
  ended_before inv (now_at env (ticks w)) = Ok false ->
  default_end start (inv_end_time inv) = Ok end' ->
  0 < next_id w ->
  exists conflicts,
    check_conflicts env start (inv_end_time inv) None w = (Ok conflicts, w)
    /\ (key_exists (inv_message_id inv) (rows w) = false ->
        let m := meeting_of inv start (decided_status conflicts)
                            (now_at env (S (ticks w))) in
        let w1 := mkWorld
                    (rows w ++ [stored env m (next_id w)
                                  (_detect_platform (inv_join_url inv))])
                    (next_id w + 1) (S (S (ticks w)))
                    (events w ++ if send_rsvp env
                                 then [decided_rsvp inv conflicts] else []) in
        sync_invite env inv w = (Ok (is_nil conflicts), w1)
        /\ process_invite env inv w
           = (if is_nil conflicts then join_if_due env m w1 else (Ok tt, w1)))
    /\ (key_exists (inv_message_id inv) (rows w) = true ->
        rows (exec (process_invite env inv) w) = rows w
        /\ events (exec (process_invite env inv) w) = events w
        /\ rows (exec (sync_invite env inv) w) = rows w
        /\ events (exec (sync_invite env inv) w) = events w)
    /\ decline_reason conflicts
       = ("Scheduling conflict with: "
          ++ (if (List.length conflicts <=? 3)%nat
              then String.concat ", " (map title (firstn 3 conflicts))
              else String.concat ", " (map title (firstn 3 conflicts))
                   ++ " (+" ++ str_of_nat (List.length conflicts - 3)
                   ++ " more)"))%string.
Proof.
  intros Hm Hurl Hstart Hended Hd Hnext.
  pose proof Hm as Hm'.
  apply str_eqb_neq in Hm. apply nonempty_true in Hurl.
  destruct (check_conflicts_answers env start (inv_end_time inv) w end' Hd)
    as (conflicts & Hcheck').
  assert (Hcheck : check_conflicts env start (inv_end_time inv) None (tick w)
                   = (Ok conflicts, tick w)).
  { rewrite (check_conflicts_run env start (inv_end_time inv) None _ end' Hd eq_refl).
    rewrite (check_conflicts_run env start (inv_end_time inv) None _ end' Hd eq_refl)
      in Hcheck'.
    inversion Hcheck' as [E]. cbn [tick rows]. now rewrite E. }
  exists conflicts. split; [exact Hcheck'|].
  split; [|split; [|apply decline_reason_format]].
  - intros Hk. split.
    + unfold sync_invite. rewrite Hm, Hurl, Hstart. cbn [negb].
      unfold bind at 1. unfold datetime_now at 1. cbn beta iota.
      unfold bind at 1. unfold lift at 1.
      rewrite Hended. unfold bind at 1. fold (tick w). rewrite Hcheck.
      unfold decided_status, decided_rsvp.
      destruct conflicts as [|c cs]; cbn [is_nil];
        unfold bind, datetime_now, add_meeting, tick; cbn beta iota;
        cbn [rows message_id meeting_of next_id ticks]; rewrite Hk;
        rewrite (truthy_id_pos _ Hnext);
        unfold rsvp_accept, rsvp_decline, emit, ret;
        destruct (send_rsvp env); cbn [rows next_id ticks events];
        rewrite ?app_nil_r; reflexivity.
    + unfold process_invite. rewrite Hm, Hurl, Hstart. cbn [negb].
      unfold bind at 1. unfold datetime_now at 1. cbn beta iota.
      unfold bind at 1. unfold lift at 1.
      rewrite Hended. unfold bind at 1. fold (tick w). rewrite Hcheck.
      unfold decided_status, decided_rsvp.
      destruct conflicts as [|c cs]; cbn [is_nil];
        unfold bind, datetime_now, add_meeting, tick; cbn beta iota;
        cbn [rows message_id meeting_of next_id ticks]; rewrite Hk;
        rewrite (truthy_id_pos _ Hnext);
        unfold rsvp_accept, rsvp_decline, emit, ret;
        destruct (send_rsvp env); cbn [rows next_id ticks events];
        rewrite ?app_nil_r; reflexivity.
  - intros Hk. now apply redelivery_changes_nothing.
Qed.

Lemma conflict_policy_witness :
  exists conflicts,
    check_conflicts env0 (at_hm 10 30) (Some (at_hm 11 30)) None (world_of [meeting_A])
    = (Ok conflicts, world_of [meeting_A])
    /\ conflicts = [meeting_A]
    /\ sync_invite env0 invite_B (world_of [meeting_A])
       = (Ok false,
          mkWorld [meeting_A;
                   stored env0
                     (meeting_of invite_B (at_hm 10 30) "declined" (at_hm 9 0))
                     2 "google_meet"]
                  3 2
                  [RsvpDecline invite_B "Scheduling conflict with: A"]).
Proof.
  assert (Hm : inv_method invite_B <> "CANCEL"%string) by discriminate.
  assert (Hurl : inv_join_url invite_B <> EmptyString) by discriminate.
  assert (Hnext : 0 < next_id (world_of [meeting_A])) by (vm_compute; reflexivity).
  destruct (conflict_policy env0 invite_B (world_of [meeting_A]) (at_hm 10 30)
              (at_hm 11 30) Hm Hurl eq_refl eq_refl eq_refl Hnext)
    as (conflicts & Hc & Hfresh & _).
  destruct (Hfresh eq_refl) as [Hsync _].
  exists conflicts. split; [exact Hc|].
  assert (E : conflicts = [meeting_A]).
  { vm_compute in Hc. inversion Hc. reflexivity. }
  split; [exact E|]. rewrite Hsync, E. vm_compute. reflexivity.
Defined.

(** C5 as stated fails in two ways. With the RSVP sender switched off the
    conflicting invite is stored as declined but no decline is requested;
    and when the invite's key is already stored nothing is inserted and
    nothing requested, conflict or not. *)
Lemma conflict_policy_counterexample :
  (fst (check_conflicts env_no_rsvp (at_hm 10 30) (Some (at_hm 11 30)) None
          (world_of [meeting_A])) = Ok [meeting_A]
   /\ let w' := exec (process_invite env_no_rsvp invite_B) (world_of [meeting_A]) in
      map status (rows w') = ["pending"; "declined"]%string
      /\ ~ exists reason, In (RsvpDecline invite_B reason) (events w'))
  /\ (let w1 := exec (process_invite env0 invite_B) (world_of [meeting_A]) in
      let w2 := exec (process_invite env0 invite_B) w1 in
      fst (check_conflicts env0 (at_hm 10 30) (Some (at_hm 11 30)) None w1)
      = Ok [meeting_A]
      /\ List.length (rows w2) = List.length (rows w1)
      /\ events w2 = events w1).
Proof.
  split; [split; [reflexivity|split; [reflexivity|]]|].
  - intros (reason & H). vm_compute in H. exact H.
  - repeat split; reflexivity.
Qed.

(* ------------------------------------------------------------------ *)
(** ** C2: redelivery of a stored message *)

(** With [psycopg2] importable and SQLite in use, the class raised is not
    the class caught. *)
Lemma add_meeting_duplicate_raises env m w :
  HAS_POSTGRES env = true -> use_postgres env = false ->
  key_exists (message_id m) (rows w) = true ->
  add_meeting env m w = (Raise (IntegrityError Sqlite3), w).
Proof.
  intros Hhas Huse Hk. unfold add_meeting, raised_driver, caught_driver.
  rewrite Hk, Huse, Hhas. cbn. now destruct w.
Qed.

(** C2, at the configuration where it fails: [psycopg2] can be imported but
    no connection string is set, so the calendar uses SQLite while
    [add_meeting] catches [psycopg2.IntegrityError]. The first delivery of
    invite C stores it; the second delivery makes [add_meeting] raise
    instead of returning [None], [process_invite] propagates the exception,
    and a [sync_inbox] pass that meets the stored message stops there, so
    the invite after it is not ingested. *)
Theorem duplicate_raises_on_sqlite_fallback :
  let w1 := exec (process_invite env_sqlite_dev invite_C) (world_of [meeting_A]) in
  map message_id (rows w1) = ["A"; "<c@example.com>"]%string
  /\ add_meeting env_sqlite_dev
       (meeting_of invite_C (at_hm 11 0) "pending" (at_hm 9 0)) w1
     = (Raise (IntegrityError Sqlite3), w1)
  /\ fst (process_invite env_sqlite_dev invite_C w1)
     = Raise (IntegrityError Sqlite3)
  /\ fst (sync_inbox env_sqlite_dev true [invite_C; invite_old] w1)
     = Raise (IntegrityError Sqlite3)
  /\ rows (exec (sync_inbox env_sqlite_dev true [invite_C; invite_old]) w1)
     = rows w1
  /\ fst (process_invite env0 invite_C
            (exec (process_invite env0 invite_C) (world_of [meeting_A])))
     = Ok tt.
Proof.
  repeat split; vm_compute; reflexivity.
Qed.

(* ------------------------------------------------------------------ *)
(** ** The status machine the code implements *)

Lemma moves_refl s : moves s s.
Proof. apply rt_refl. Qed.

Lemma moves_trans a b c : moves a b -> moves b c -> moves a c.
Proof. apply rt_trans. Qed.

Lemma cancelled_is_final s : moves "cancelled" s -> s = "cancelled"%string.
Proof.
  intros H. apply clos_rt_rt1n in H.
  remember "cancelled"%string as c eqn:Ec.
  induction H as [|x y z Hxy Hyz IH]; [reflexivity|]. subst x.
  inversion Hxy as [| | |s Hs]; subst; try discriminate.
  - exfalso. apply Hs. simpl. auto.
Qed.

Lemma completed_is_final s : moves "completed" s -> s = "completed"%string.
Proof.
  intros H. apply clos_rt_rt1n in H.
  remember "completed"%string as c eqn:Ec.
  induction H as [|x y z Hxy Hyz IH]; [reflexivity|]. subst x.
  inversion Hxy as [| | |s Hs]; subst; try discriminate.
  - exfalso. apply Hs. simpl. auto.
Qed.

(** Statuses from which the engine can take a record nowhere but to
    cancelled. *)
Lemma settled_moves s s' :
  In s ["bot_spawned"; "spawn_failed"; "missed"; "declined"]%string ->
  moves s s' -> s' = s \/ s' = "cancelled"%string.
Proof.
  intros Hs H. apply clos_rt_rt1n in H.
  induction H as [|x y z Hxy Hyz IH]; [now left|].
  right. inversion Hxy as [| | |s0 Hs0]; subst;
    try (simpl in Hs; repeat destruct Hs as [Hs|Hs]; try discriminate; tauto).
  apply cancelled_is_final. now apply clos_rt1n_rt.
Qed.

Lemma set_status_same r : set_status r (status r) = r.
Proof. now destruct r. Qed.

Lemma row_evolves_refl r : row_evolves r r.
Proof. split; [symmetry; apply set_status_same|apply moves_refl]. Qed.

Lemma row_evolves_trans a b c : row_evolves a b -> row_evolves b c -> row_evolves a c.
Proof.
  intros [E1 M1] [E2 M2]. split; [|eapply moves_trans; eauto].
  rewrite E2 at 1. rewrite E1. reflexivity.
Qed.

Lemma intake_row_evolves a b : intake_row a -> row_evolves a b -> intake_row b.
Proof.
  intros (s0 & Hs0 & M) [_ M']. exists s0. split; [exact Hs0|].
  eapply moves_trans; eauto.
Qed.

Lemma Forall2_refl_on {A} (R : A -> A -> Prop) l :
  (forall x, R x x) -> Forall2 R l l.
Proof. intros H. induction l; constructor; auto. Qed.

Lemma Forall2_trans_on {A} (R : A -> A -> Prop) :
  (forall a b c, R a b -> R b c -> R a c) ->
  forall l1 l2 l3, Forall2 R l1 l2 -> Forall2 R l2 l3 -> Forall2 R l1 l3.
Proof.
  intros HR l1 l2 l3 H12. revert l3.
  induction H12; intros l3 H23; inversion H23; subst; constructor; eauto.
Qed.

Lemma Forall2_Forall_r {A} (R : A -> A -> Prop) (P : A -> Prop) l1 l2 :
  (forall a b, P a -> R a b -> P b) ->
  Forall2 R l1 l2 -> Forall P l1 -> Forall P l2.
Proof.
  intros HR H. induction H; intros HP; inversion HP; subst; constructor; eauto.
Qed.

Lemma evolves_refl l : evolves l l.
Proof.
  exists l, []. rewrite app_nil_r. repeat split; [|constructor].
  apply Forall2_refl_on, row_evolves_refl.
Qed.

Lemma evolves_trans l1 l2 l3 : evolves l1 l2 -> evolves l2 l3 -> evolves l1 l3.
Proof.
  intros (o1 & a1 & -> & H1 & A1) (o2 & a2 & -> & H2 & A2).
  apply Forall2_app_inv_l in H2. destruct H2 as (o2a & o2b & Ha & Hb & ->).
  exists o2a, (o2b ++ a2). split; [now rewrite app_assoc|]. split.
  - eapply Forall2_trans_on; eauto. apply row_evolves_trans.
  - apply Forall_app. split; [|exact A2].
    eapply Forall2_Forall_r; [|exact Hb|exact A1]. apply intake_row_evolves.
Qed.

(* ------------------------------------------------------------------ *)
(** ** Invariants of sequential runs *)

Lemma spawned_ids_app a b : spawned_ids (a ++ b) = spawned_ids a ++ spawned_ids b.
Proof. apply flat_map_app. Qed.

Lemma has_id_mono n n' r : n <= n' -> has_id n r -> has_id n' r.
Proof. intros Hn (i & Hi & Hr). exists i. split; [exact Hi|lia]. Qed.

Lemma update_rows_has_id n i s l :
  Forall (has_id n) l -> Forall (has_id n) (update_rows i s l).
Proof.
  unfold update_rows. intros H. apply Forall_map.
  eapply Forall_impl; [|exact H]. intros r Hr.
  now destruct (id_matches i r).
Qed.

Lemma update_rows_twice i s1 s2 l :
  update_rows i s2 (update_rows i s1 l) = update_rows i s2 l.
Proof.
  unfold update_rows. rewrite map_map. apply map_ext. intros r.
  destruct (id_matches i r) eqn:E.
  - unfold id_matches in *. cbn [id set_status]. rewrite E. reflexivity.
  - rewrite E. reflexivity.
Qed.

Lemma update_rows_In i s l r' :
  In r' (update_rows i s l) ->
  exists r, In r l /\ id r' = id r
            /\ ((id_matches i r = true /\ r' = set_status r s)
                \/ (id_matches i r = false /\ r' = r)).
Proof.
  unfold update_rows. rewrite in_map_iff. intros (r & E & Hr).
  exists r. split; [exact Hr|].
  destruct (id_matches i r); subst r'; auto.
Qed.

Lemma update_rows_wf w i s :
  store_wf w -> store_wf (with_rows w (update_rows i s (rows w))).
Proof.
  intros [H1 H2 H3 H4]. constructor; cbn [with_rows rows next_id].
  - exact H1.
  - now apply update_rows_has_id.
  - now rewrite update_rows_ids.
  - now rewrite update_rows_keys.
Qed.

(** Rows selected by an update, in a table with a primary key. *)
Lemma matched_row_unique w r x :
  store_wf w -> In r (rows w) -> In x (rows w) ->
  id_matches (id r) x = true -> x = r.
Proof.
  intros Hwf Hr Hx Hm.
  pose proof (wf_ids _ Hwf) as Hall. rewrite Forall_forall in Hall.
  destruct (Hall _ Hr) as (i & Hi & _). rewrite Hi in Hm.
  apply id_matches_iff in Hm.
  eapply NoDup_map_eq; [apply (wf_pk _ Hwf)|exact Hx|exact Hr|congruence].
Qed.

Lemma update_rows_evolves w r s :
  store_wf w -> In r (rows w) -> moves (status r) s ->
  Forall2 row_evolves (rows w) (update_rows (id r) s (rows w)).
Proof.
  intros Hwf Hr Hmv. unfold update_rows. apply Forall2_map_self.
  intros x Hx. destruct (id_matches (id r) x) eqn:E.
  - assert (x = r) by (eapply matched_row_unique; eauto). subst x.
    split; [reflexivity|exact Hmv].
  - apply row_evolves_refl.
Qed.

Lemma evolves_in_place l l' : Forall2 row_evolves l l' -> evolves l l'.
Proof.
  intros H. exists l', []. rewrite app_nil_r. repeat split; auto.
Qed.

Lemma trigger_join_eq env m w :
  let created := create_namespaced_job env (List.length (events w)) m in
  trigger_join env m w
  = (Ok tt,
     mkWorld (update_rows (id m) (spawn_status created) (rows w))
             (next_id w) (ticks w) (events w ++ [SpawnJob m created])).
Proof.
  intros created. unfold trigger_join, bind, update_status, emit, with_rows.
  cbn beta iota. cbn [rows next_id ticks events]. fold created.
  rewrite update_rows_twice. reflexivity.
Qed.

Lemma moves_pending_spawn c : moves "pending" (spawn_status c).
Proof.
  eapply rt_trans; [apply rt_step, T_joining|].
  apply rt_step. destruct c; constructor.
Qed.

Lemma step_preserves env w w' :
  Inv w -> step env w w' ->
  Inv w' /\ evolves (rows w) (rows w') /\ next_id w <= next_id w'.
Proof.
  intros [Hwf Hlo] Hstep.
  destruct Hwf as [W1 W2 W3 W4]. destruct Hlo as [L1 L2 L3].
  assert (Hwf : store_wf w) by (constructor; assumption).
  destruct Hstep as [|ev Hev|m Hm|r Hr Hs|m r Hr Hid Hs].
  - (* a clock reading *)
    split; [|split; [apply evolves_refl|cbn; lia]].
    split; constructor; cbn; assumption.
  - (* an RSVP request *)
    assert (E : spawned_ids (events w ++ [ev]) = spawned_ids (events w)).
    { rewrite spawned_ids_app. destruct ev; cbn in *;
        rewrite ?app_nil_r; tauto. }
    split; [|split; [apply evolves_refl|cbn; lia]].
    split; constructor; cbn [emit snd rows next_id events]; rewrite ?E;
      assumption.
  - (* insert-if-absent *)
    unfold add_meeting.
    destruct (key_exists (message_id m) (rows w)) eqn:Hk.
    + assert (Hn : next_id w <= (if use_postgres env
                                 then next_id w + 1 else next_id w))
        by (destruct (use_postgres env); lia).
      assert (Hgoal :
                forall w1, rows w1 = rows w -> events w1 = events w ->
                           next_id w1 = (if use_postgres env
                                         then next_id w + 1 else next_id w) ->
                           Inv w1 /\ evolves (rows w) (rows w1)
                           /\ next_id w <= next_id w1).
      { intros w1 Er Ee En. rewrite Er, En.
        split; [|split; [apply evolves_refl|exact Hn]].
        split; constructor; rewrite ?Er, ?Ee, ?En; auto; try lia.
        - eapply Forall_impl; [|exact W2]. intros a. now apply has_id_mono.
        - intros i Hi. destruct (L2 i Hi) as (k & -> & Hk').
          exists k. split; [reflexivity|lia]. }
      destruct (driver_eqb _ _); apply Hgoal; reflexivity.
    + cbn [snd rows next_id events].
      set (row := stored env m (next_id w) _).
      assert (Hfresh : ~ In (Some (next_id w)) (map id (rows w))).
      { rewrite in_map_iff. intros (x & Ex & Hx).
        rewrite Forall_forall in W2. destruct (W2 x Hx) as (i & Hi & Hlt).
        rewrite Hi in Ex. inversion Ex. lia. }
      split; [split; constructor; cbn [rows next_id events]|split].
      * lia.
      * apply Forall_app. split.
        -- eapply Forall_impl; [|exact W2]. intros a.
           apply has_id_mono. lia.
        -- constructor; [|constructor]. exists (next_id w).
           split; [reflexivity|lia].
      * rewrite map_app. cbn [map id row stored].
        apply NoDup_app. repeat split; auto.
        -- repeat constructor. simpl. tauto.
        -- intros a Ha [<-|[]]. contradiction.
      * rewrite map_app. cbn [map message_id row stored].
        apply NoDup_app. repeat split; auto.
        -- repeat constructor. simpl. tauto.
        -- intros a Ha [<-|[]].
           apply key_exists_In in Ha. congruence.
      * exact L1.
      * intros i Hi. destruct (L2 i Hi) as (k & -> & Hk').
        exists k. split; [reflexivity|lia].
      * intros x Hx Hsp. apply in_app_or in Hx. destruct Hx as [Hx|[<-|[]]].
        -- now apply L3.
        -- cbn [id row stored] in Hsp.
           destruct (L2 _ Hsp) as (k & Ek & Hk'). inversion Ek. lia.
      * exists (rows w), [row]. repeat split.
        -- apply Forall2_refl_on, row_evolves_refl.
        -- constructor; [|constructor]. exists (status m).
           split; [exact Hm|apply moves_refl].
      * lia.
  - (* a cancellation *)
    cbn [update_status snd].
    split; [split|split].
    + now apply update_rows_wf.
    + constructor; cbn [with_rows rows next_id events]; auto.
      intros x Hx Hsp. apply update_rows_In in Hx.
      destruct Hx as (x0 & Hx0 & Eid & [[_ ->]|[_ ->]]).
      * cbn. discriminate.
      * now apply L3.
    + cbn [with_rows rows]. apply evolves_in_place.
      apply update_rows_evolves; auto.
      apply rt_step. now constructor.
    + cbn. lia.
  - (* a join trigger *)
    rewrite trigger_join_eq. cbn [snd].
    set (c := create_namespaced_job env _ m).
    assert (Hnew : ~ In (id m) (spawned_ids (events w))).
    { intros Hin. rewrite <- Hid in Hin. now apply (L3 r Hr Hin). }
    split; [split|split].
    + apply (update_rows_wf w (id m) (spawn_status c)) in Hwf.
      destruct Hwf as [V1 V2 V3 V4]. constructor; assumption.
    + constructor; cbn [rows next_id events].
      * rewrite spawned_ids_app. cbn [spawned_ids flat_map app].
        apply NoDup_app. repeat split; auto.
        -- repeat constructor. simpl. tauto.
        -- intros a Ha [<-|[]]. contradiction.
      * intros i Hi. rewrite spawned_ids_app in Hi.
        apply in_app_or in Hi. destruct Hi as [Hi|[<-|[]]]; [now apply L2|].
        rewrite Forall_forall in W2. rewrite <- Hid. apply (W2 r Hr).
      * intros x Hx Hsp. apply update_rows_In in Hx.
        destruct Hx as (x0 & Hx0 & Eid & [[_ ->]|[Hno ->]]).
        -- destruct c; cbn; discriminate.
        -- rewrite spawned_ids_app in Hsp. apply in_app_or in Hsp.
           destruct Hsp as [Hsp|[E|[]]]; [now apply L3|].
           exfalso. rewrite <- Hid in E.
           rewrite Forall_forall in W2. destruct (W2 r Hr) as (i & Hi & _).
           rewrite <- Hid, Hi in Hno. rewrite Hi in E.
           symmetry in E. apply id_matches_iff in E. congruence.
    + cbn [rows]. apply evolves_in_place. rewrite <- Hid.
      apply update_rows_evolves; auto.
      rewrite Hs. apply moves_pending_spawn.
    + cbn. lia.
Qed.

Lemma reach_preserves env w w' :
  Inv w -> reach env w w' ->
  Inv w' /\ evolves (rows w) (rows w') /\ next_id w <= next_id w'.
Proof.
  intros Hinv H. revert Hinv.
  induction H as [x y Hstep|x|x y z _ IH1 _ IH2]; intros Hinv.
  - now apply (step_preserves env).
  - split; [exact Hinv|split; [apply evolves_refl|lia]].
  - destruct (IH1 Hinv) as (Hy & E1 & N1).
    destruct (IH2 Hy) as (Hz & E2 & N2).
    split; [exact Hz|split; [eapply evolves_trans; eauto|lia]].
Qed.

Lemma safe_ret {A} env (a : A) : safe env (ret a).
Proof. intros w _. apply rt_refl. Qed.

Lemma safe_bind {A B} env (c : M A) (k : A -> M B) :
  safe env c -> (forall a, safe env (k a)) -> safe env (bind c k).
Proof.
  intros Hc Hk w Hinv. unfold bind.
  pose proof (Hc w Hinv) as Hr.
  destruct (c w) as [[a|e] w1]; cbn [snd] in *; [|exact Hr].
  eapply rt_trans; [exact Hr|]. apply Hk.
  now apply (reach_preserves env w w1).
Qed.

Lemma safe_now env : safe env (datetime_now env).
Proof. intros w _. apply rt_step. apply S_tick. Qed.

Lemma safe_add env m :
  In (status m) intake_statuses -> safe env (add_meeting env m).
Proof. intros Hm w _. apply rt_step. now apply S_insert. Qed.

Lemma safe_lift {A} env (r : Result A) : safe env (lift r).
Proof. intros w _. apply rt_refl. Qed.

Lemma safe_check_conflicts env s e x : safe env (check_conflicts env s e x).
Proof. intros w _. rewrite check_conflicts_keeps. apply rt_refl. Qed.

Lemma safe_rsvp_accept env inv : safe env (rsvp_accept env inv).
Proof.
  intros w _. unfold rsvp_accept. destruct (send_rsvp env).
  - apply rt_step. now apply S_rsvp.
  - apply rt_refl.
Qed.

Lemma safe_rsvp_decline env inv reason : safe env (rsvp_decline env inv reason).
Proof.
  intros w _. unfold rsvp_decline. destruct (send_rsvp env).
  - apply rt_step. now apply S_rsvp.
  - apply rt_refl.
Qed.

Lemma world_eq w w' :
  rows w' = rows w -> next_id w' = next_id w -> ticks w' = ticks w ->
  events w' = events w -> w' = w.
Proof. destruct w, w'; cbn; intros; subst; reflexivity. Qed.

Lemma safe_cancellation env inv : safe env (_handle_cancellation env inv).
Proof.
  intros w Hinv.
  destruct (handle_cancellation_cases env inv w)
    as (w' & Hrun & Hn & Ht & He & Hcases).
  rewrite Hrun. cbn [snd].
  destruct Hcases as [(r & Hget & Hr)|(_ & Hr)].
  - destruct (get_by_uid_found _ _ _ _ Hget) as (_ & Hin & _).
    destruct (status_in (status r) ["cancelled"; "completed"]%string) eqn:Hs.
    + rewrite (world_eq w w') by assumption. apply rt_refl.
    + apply status_in_not_In in Hs.
      replace w' with (snd (update_status (id r) "cancelled" w)).
      * apply rt_step. now apply S_cancel.
      * symmetry. apply world_eq; cbn; auto.
  - rewrite (world_eq w w') by assumption. apply rt_refl.
Qed.

Lemma NoDup_map_filter {A B} (f : A -> B) (p : A -> bool) l :
  NoDup (map f l) -> NoDup (map f (filter p l)).
Proof.
  induction l as [|a l IH]; cbn; [auto|].
  intros H. inversion H as [|? ? Hn Hd]; subst.
  destruct (p a); cbn; [|auto]. constructor; [|auto].
  rewrite in_map_iff in *. intros (x & E & Hx). apply Hn.
  apply filter_In in Hx. exists x. tauto.
Qed.

(** The [for meeting in upcoming] loop over distinct pending rows: every
    one of them is triggered, once, in order. *)
Lemma trigger_loop env ms :
  forall w,
    Inv w -> NoDup (map id ms) ->
    (forall m, In m ms ->
               exists r, In r (rows w) /\ id r = id m
                         /\ status r = "pending"%string) ->
    reach env w (snd (for_each ms (trigger_join env) w))
    /\ fst (for_each ms (trigger_join env) w) = Ok tt
    /\ spawned_ids (events (snd (for_each ms (trigger_join env) w)))
       = spawned_ids (events w) ++ map id ms.
Proof.
  induction ms as [|m ms IH]; intros w Hinv Hnd Hpend.
  - cbn. rewrite app_nil_r. repeat split. apply rt_refl.
  - cbn [for_each]. unfold bind.
    destruct (Hpend m (or_introl eq_refl)) as (r & Hr & Hid & Hs).
    assert (Hstep : step env w (snd (trigger_join env m w)))
      by (eapply S_trigger; eauto).
    pose proof (trigger_join_eq env m w) as E. cbn zeta in E.
    rewrite E in *. cbn [snd] in Hstep.
    set (w1 := mkWorld _ _ _ _) in *.
    destruct (step_preserves env w w1 Hinv Hstep) as (Hinv1 & _ & _).
    inversion Hnd as [|? ? Hnotin Hnd']; subst.
    destruct (IH w1 Hinv1 Hnd') as (Hreach & Hok & Hsp).
    { intros m' Hm'. destruct (Hpend m' (or_intror Hm')) as (r' & Hr' & Hid' & Hs').
      exists r'. split; [|auto]. subst w1. cbn [rows].
      unfold update_rows. apply in_map_iff. exists r'. split; [|exact Hr'].
      destruct (id_matches (id m) r') eqn:Em; [|reflexivity].
      exfalso. apply Hnotin. apply in_map_iff. exists m'. split; [|exact Hm'].
      unfold id_matches in Em. rewrite <- Hid'.
      destruct (id m) as [x|]; [|discriminate].
      destruct (id r') as [i|]; [|discriminate].
      apply Z.eqb_eq in Em. congruence. }
    split; [eapply rt_trans; [apply rt_step; exact Hstep|exact Hreach]|].
    split; [exact Hok|].
    rewrite Hsp. subst w1. cbn [events]. rewrite spawned_ids_app.
    cbn [spawned_ids flat_map map app]. now rewrite <- app_assoc.
Qed.

(** What one scan does from a good world: when the horizon of the due
    query can be computed every due meeting is triggered, once, in order;
    when it cannot, the scan ends with the exception after reading the
    clock. *)
Lemma scan_spawns_due env w :
  Inv w ->
  reach env w (snd (_check_and_join_upcoming env w))
  /\ match horizon (now_at env (ticks w)) (join_before_minutes env + 1) with
     | Ok _ =>
         exists due,
           check_upcoming env w = (Ok due, tick w)
           /\ fst (_check_and_join_upcoming env w) = Ok tt
           /\ spawned_ids (events (snd (_check_and_join_upcoming env w)))
              = spawned_ids (events w) ++ map id due
     | Raise e => _check_and_join_upcoming env w = (Raise e, tick w)
     end.
Proof.
  intros Hinv.
  assert (Htick : step env w (tick w)) by apply S_tick.
  pose proof (get_upcoming_run env (join_before_minutes env + 1) w) as Hget.
  unfold _check_and_join_upcoming, bind. change (check_upcoming env w)
    with (get_upcoming env (join_before_minutes env + 1) w).
  rewrite Hget.
  destruct (horizon _ _) as [[cutoff past_cutoff]|e].
  - set (due := asc env start_time _) in *.
    destruct (step_preserves env w (tick w) Hinv Htick) as (Hinv1 & _ & _).
    destruct (trigger_loop env due (tick w) Hinv1) as (Hreach & Hok & Hsp).
    + eapply Permutation_NoDup.
      * apply Permutation_map. apply order_by_perm.
      * apply NoDup_map_filter. apply Hinv.
    + intros m Hm. apply asc_In, filter_In in Hm. destruct Hm as (Hin & Hs).
      exists m. cbn [tick rows]. apply is_upcoming_pending in Hs. auto.
    + split; [eapply rt_trans; [apply rt_step; exact Htick|exact Hreach]|].
      exists due. split; [reflexivity|]. split; [exact Hok|exact Hsp].
  - split; [|reflexivity]. cbn [snd]. now apply rt_step.
Qed.

Lemma safe_scan env : safe env (_check_and_join_upcoming env).
Proof.
  intros w Hinv. now destruct (scan_spawns_due env w Hinv) as (H & _).
Qed.

Lemma safe_join_if_due env m : safe env (join_if_due env m).
Proof.
  unfold join_if_due. apply safe_bind; [apply safe_now|]. intros now.
  apply safe_bind; [apply safe_lift|]. intros time_until.
  destruct (starts_soon env time_until); [apply safe_scan|].
  destruct (_ <? 0); [|apply safe_ret].
  destruct (end_time m) as [e|]; [|apply safe_scan].
  apply safe_bind; [apply safe_lift|]. intros running.
  destruct running; [apply safe_scan|apply safe_ret].
Qed.

Lemma safe_record_missed env inv start : safe env (record_missed env inv start).
Proof.
  unfold record_missed. apply safe_bind; [apply safe_now|]. intros created.
  apply safe_bind; [|intros; apply safe_ret].
  apply safe_add. cbn. auto.
Qed.

Lemma safe_process_invite env inv : safe env (process_invite env inv).
Proof.
  unfold process_invite.
  destruct (str_eqb _ _); [apply safe_cancellation|].
  destruct (negb _); [apply safe_ret|].
  destruct (inv_start_time inv) as [start|]; [|apply safe_ret].
  apply safe_bind; [apply safe_now|]. intros now.
  apply safe_bind; [apply safe_lift|]. intros ended.
  destruct ended; [apply safe_record_missed|].
  apply safe_bind; [apply safe_check_conflicts|]. intros conflicts.
  destruct conflicts as [|c cs].
  - apply safe_bind; [apply safe_now|]. intros created.
    apply safe_bind; [apply safe_add; cbn; auto|]. intros meeting_id.
    destruct (truthy_id meeting_id); [|apply safe_ret].
    apply safe_bind; [apply safe_rsvp_accept|]. intros _.
    apply safe_join_if_due.
  - apply safe_bind; [apply safe_now|]. intros created.
    apply safe_bind; [apply safe_add; cbn; auto|]. intros meeting_id.
    destruct (truthy_id meeting_id); [|apply safe_ret].
    apply safe_rsvp_decline.
Qed.

Lemma safe_sync_invite env inv : safe env (sync_invite env inv).
Proof.
  unfold sync_invite.
  destruct (str_eqb _ _).
  { apply safe_bind; [apply safe_cancellation|intros; apply safe_ret]. }
  destruct (negb _); [apply safe_ret|].
  destruct (inv_start_time inv) as [start|]; [|apply safe_ret].
  apply safe_bind; [apply safe_now|]. intros now.
  apply safe_bind; [apply safe_lift|]. intros ended.
  destruct ended.
  { apply safe_bind; [apply safe_record_missed|intros; apply safe_ret]. }
  apply safe_bind; [apply safe_check_conflicts|]. intros conflicts.
  destruct conflicts as [|c cs].
  - apply safe_bind; [apply safe_now|]. intros created.
    apply safe_bind; [apply safe_add; cbn; auto|]. intros meeting_id.
    destruct (truthy_id meeting_id); [|apply safe_ret].
    apply safe_bind; [apply safe_rsvp_accept|intros; apply safe_ret].
  - apply safe_bind; [apply safe_now|]. intros created.
    apply safe_bind; [apply safe_add; cbn; auto|]. intros meeting_id.
    destruct (truthy_id meeting_id); [|apply safe_ret].
    apply safe_bind; [apply safe_rsvp_decline|intros; apply safe_ret].
Qed.

Lemma safe_sync_loop env fetched : forall n, safe env (sync_loop env fetched n).
Proof.
  induction fetched as [|inv rest IH]; intros n; cbn [sync_loop].
  - apply safe_ret.
  - apply safe_bind; [apply safe_sync_invite|]. intros added. apply IH.
Qed.

Lemma safe_sync_inbox env connected fetched :
  safe env (sync_inbox env connected fetched).
Proof.
  unfold sync_inbox. destruct (negb connected);
    [apply safe_ret|apply safe_sync_loop].
Qed.

Lemma bind_assoc {A B C} (c : M A) (k1 : A -> M B) (k2 : B -> M C) w :
  bind (bind c k1) k2 w = bind c (fun a => bind (k1 a) k2) w.
Proof.
  unfold bind. destruct (c w) as [[a|e] w1]; reflexivity.
Qed.

Lemma safe_ext {A} env (c c' : M A) :
  (forall w, c w = c' w) -> safe env c' -> safe env c.
Proof. intros E H w Hinv. rewrite E. now apply H. Qed.

Lemma safe_get_all_pending env : safe env (get_all_pending env).
Proof. intros w _. apply rt_refl. Qed.

Lemma safe_run_once env connected fetched :
  safe env (run_once env connected fetched).
Proof.
  unfold run_once. apply safe_bind; [apply safe_now|]. intros _.
  apply safe_bind; [apply safe_sync_inbox|]. intros _.
  eapply safe_ext.
  - intros w. symmetry. apply (bind_assoc (check_upcoming env)).
  - apply safe_bind; [exact (safe_scan env)|]. intros _.
    apply safe_bind; [apply safe_get_all_pending|]. intros pending.
    destruct pending; [apply safe_ret|].
    apply safe_bind; [apply safe_now|]. intros now.
    apply safe_bind; [apply safe_lift|intros; apply safe_ret].
Qed.

(** ** Sequential runs of the engine *)

Lemma run_op_reach env o w : Inv w -> reach env w (run_op env o w).
Proof.
  intros Hinv. destruct o; cbn [run_op]; unfold exec.
  - now apply safe_process_invite.
  - now apply safe_scan.
  - now apply safe_sync_inbox.
  - now apply safe_run_once.
Qed.

Lemma run_ops_reach env ops : forall w, Inv w -> reach env w (run_ops env ops w).
Proof.
  induction ops as [|o ops IH]; intros w Hinv; cbn [run_ops fold_left].
  - apply rt_refl.
  - eapply rt_trans; [apply run_op_reach; exact Hinv|].
    apply IH. eapply reach_preserves; [exact Hinv|].
    now apply run_op_reach.
Qed.

(** A store without a Job requested yet is a good world. *)
Lemma Inv_initial w : store_wf w -> spawned_ids (events w) = [] -> Inv w.
Proof.
  intros Hwf He. split; [exact Hwf|].
  constructor; rewrite He; [constructor| |]; intros; contradiction.
Qed.

(* ------------------------------------------------------------------ *)
(** ** C3: the status machine *)

Lemma evolves_nth l l' n r :
  evolves l l' -> nth_error l n = Some r ->
  exists r', nth_error l' n = Some r' /\ row_evolves r r'.
Proof.
  intros (old' & added & -> & H & _). revert n.
  induction H as [|x y xs ys Hxy Hrest IH]; intros n Hn.
  - destruct n; discriminate.
  - destruct n as [|n]; cbn in *.
    + inversion Hn; subst. eauto.
    + now apply IH.
Qed.

(** C3 as stated fails: a cancellation moves a missed record, and one whose
    spawn failed, to cancelled, and a successful trigger leaves the record
    in [bot_spawned]; the status [joined] is never written. *)
Lemma status_machine_counterexample :
  map status (rows (exec (process_invite env0 (cancel_invite "A"))
                         (world_of [missed_A])))
  = ["cancelled"%string]
  /\ map status (rows (exec (trigger_join env_k8s_down meeting_A)
                            (world_of [meeting_A])))
     = ["spawn_failed"%string]
  /\ map status (rows (exec (process_invite env_k8s_down (cancel_invite "A"))
                            (exec (trigger_join env_k8s_down meeting_A)
                                  (world_of [meeting_A]))))
     = ["cancelled"%string]
  /\ map status (rows (exec (trigger_join env0 meeting_A) (world_of [meeting_A])))
     = ["bot_spawned"%string]
  /\ "bot_spawned"%string <> "joined"%string.
Proof.
  repeat split; try reflexivity. discriminate.
Qed.

(** C3 (amended). In every sequential run of the engine's operations each
    stored record stays in place with its fields and its status moves along
    pending -> joining -> bot_spawned | spawn_failed, or to cancelled from
    any status other than cancelled and completed; records are created as
    pending, missed or declined. So no run moves a record out of cancelled
    or completed, and from bot_spawned, spawn_failed, missed or declined a
    record can only go to cancelled. [trigger_join] writes joining, then
    bot_spawned when the Job was created and spawn_failed when not. *)
Theorem status_machine (env : Env) (ops : list op) (w : World) :
  Inv w ->
  let w' := run_ops env ops w in
  evolves (rows w) (rows w')
  /\ (forall n r,
         nth_error (rows w) n = Some r ->
         exists r',
           nth_error (rows w') n = Some r'
           /\ r' = set_status r (status r')
           /\ moves (status r) (status r')
           /\ (In (status r) ["cancelled"; "completed"]%string ->
               status r' = status r)
           /\ (In (status r)
                  ["bot_spawned"; "spawn_failed"; "missed"; "declined"]%string ->
               status r' = status r \/ status r' = "cancelled"%string))
  /\ (forall m w0,
         let created := create_namespaced_job env (List.length (events w0)) m in
         trigger_join env m w0
         = (emit (SpawnJob m created) ;;;
            update_status (id m)
              (if created then "bot_spawned" else "spawn_failed"))
             (exec (update_status (id m) "joining") w0)
         /\ rows (exec (trigger_join env m) w0)
            = update_rows (id m)
                (if created then "bot_spawned" else "spawn_failed") (rows w0)).
Proof.
  intros Hinv w'.
  destruct (reach_preserves env w w' Hinv (run_ops_reach env ops w Hinv))
    as (_ & Hev & _).
  split; [exact Hev|]. split.
  - intros n r Hn. destruct (evolves_nth _ _ _ _ Hev Hn) as (r' & Hn' & E & Hmv).
    exists r'. repeat split; auto.
    + intros [Hs|[Hs|[]]]; rewrite <- Hs in *.
      * now apply cancelled_is_final.
      * now apply completed_is_final.
    + intros Hs. now apply settled_moves.
  - intros m w0 created. split; [reflexivity|].
    unfold exec. rewrite trigger_join_eq. reflexivity.
Qed.

Lemma world_of_A_Inv : Inv (world_of [meeting_A]).
Proof. apply Inv_initial; [apply world_of_A_wf|reflexivity]. Qed.

Lemma status_machine_witness :
  evolves (rows (world_of [meeting_A]))
          (rows (run_ops env0 [Ingest invite_B; Scan; Ingest (cancel_invite "A")]
                         (world_of [meeting_A]))).
Proof.
  exact (proj1 (status_machine env0
                  [Ingest invite_B; Scan; Ingest (cancel_invite "A")]
                  (world_of [meeting_A]) world_of_A_Inv)).
Defined.

(* ------------------------------------------------------------------ *)
(** ** C1: how often a join is triggered *)

(** C1 as stated fails: [update_status] is [UPDATE ... WHERE id = ?] with no
    condition on the status it replaces, and [trigger_join] does not look
    at the status it finds. When both callers have read the meeting as
    pending, both request a Job for it - even if the first has completed
    its [trigger_join] before the second starts. Run one after the other,
    they request it once. *)
Lemma trigger_twice_counterexample :
  spawned_ids (events (interleave env0 [true; false; true; false]
                                  Querying Querying (world_of [due_meeting])))
  = [Some 1; Some 1]
  /\ map status (rows (exec (update_status (Some 1) "joining")
                            (exec (trigger_join env0 due_meeting)
                                  (world_of [due_meeting]))))
     = ["joining"%string]
  /\ spawned_ids (events (interleave env0 [true; true; false; false]
                                     Querying Querying (world_of [due_meeting])))
     = [Some 1].
Proof.
  repeat split; reflexivity.
Qed.

(** C1 (amended). The status write is unconditional; what holds is
    at-most-once for sequential runs. In every sequential run of the
    engine's operations no meeting id has a Job requested twice; and one
    scan requests a Job for each meeting the due query returned, once and
    in order, after which none of them is pending. The due query returns
    whenever its horizon, now plus the minutes ahead and now minus ten
    minutes, is a date [datetime] can hold; when it is not, the query
    raises OverflowError and the scan ends there, with no Job requested. *)
Theorem triggered_once_sequentially (env : Env) (ops : list op) (w : World) :
  Inv w ->
  NoDup (spawned_ids (events (run_ops env ops w)))
  /\ match horizon (now_at env (ticks w)) (join_before_minutes env + 1) with
     | Ok _ =>
         exists due,
           check_upcoming env w = (Ok due, tick w)
           /\ spawned_ids (events (run_op env Scan w))
              = spawned_ids (events w) ++ map id due
           /\ forall r, In r (rows (run_op env Scan w)) ->
                        In (id r) (map id due) ->
                        status r <> "pending"%string
     | Raise e =>
         e = OverflowError
         /\ check_upcoming env w = (Raise OverflowError, tick w)
         /\ run_op env Scan w = tick w
     end
  /\ (forall meeting_id s w0,
         update_status meeting_id s w0
         = (Ok tt, with_rows w0 (update_rows meeting_id s (rows w0)))).
Proof.
  intros Hinv. split; [|split].
  - destruct (reach_preserves env w _ Hinv (run_ops_reach env ops w Hinv))
      as ((_ & Hlo) & _). apply Hlo.
  - destruct (scan_spawns_due env w Hinv) as (Hreach & Hscan).
    pose proof (horizon_raises (now_at env (ticks w))
                  (join_before_minutes env + 1)) as Hraise.
    pose proof (get_upcoming_run env (join_before_minutes env + 1) w) as Hget.
    destruct (horizon _ _) as [[cutoff past_cutoff]|e].
    + destruct Hscan as (due & Hcheck & _ & Hsp).
      exists due. split; [exact Hcheck|]. cbn [run_op]. unfold exec.
      split; [exact Hsp|].
      destruct (reach_preserves env w _ Hinv Hreach) as ((_ & Hlo) & _).
      intros r Hr Hid. apply (lo_not_pending _ Hlo r Hr).
      rewrite Hsp. apply in_or_app. now right.
    + assert (He : e = OverflowError) by now apply Hraise.
      subst e. split; [reflexivity|]. split; [exact Hget|].
      cbn [run_op]. unfold exec. now rewrite Hscan.
  - reflexivity.
Qed.

Lemma world_of_due_Inv : Inv (world_of [due_meeting]).
Proof.
  apply Inv_initial; [|reflexivity].
  constructor; cbn.
  - lia.
  - repeat constructor. exists 1. split; [reflexivity|lia].
  - repeat constructor. cbn. tauto.
  - repeat constructor. cbn. tauto.
Qed.

Lemma triggered_once_sequentially_witness :
  NoDup (spawned_ids (events (run_ops env0 [Scan; Ingest invite_C; Scan]
                                      (world_of [due_meeting]))))
  /\ spawned_ids (events (run_ops env0 [Scan; Ingest invite_C; Scan]
                                  (world_of [due_meeting])))
     = [Some 1].
Proof.
  split.
  - exact (proj1 (triggered_once_sequentially env0 [Scan; Ingest invite_C; Scan]
                    (world_of [due_meeting]) world_of_due_Inv)).
  - reflexivity.
Defined.

(* ------------------------------------------------------------------ *)
(** ** C9: catch-up after a reconnect *)

Lemma process_all_processed uids : forall st,
  Idle.processed (Idle.process_all uids st) = Idle.processed st ++ uids.
Proof.
  induction uids as [|u rest IH]; intros st; cbn [Idle.process_all].
  - now rewrite app_nil_r.
  - rewrite IH. cbn [Idle.processed]. now rewrite <- app_assoc.
Qed.

(** Catch-up from a cursor that is among the recent messages handles
    exactly the messages listed after it. *)
Lemma catch_up_after_cursor box today s st later :
  s <> EmptyString ->
  Idle.after_uid s (Idle.search_since box today) = Some later ->
  Idle.processed (Idle._process_new_messages box today (Some s) st)
  = Idle.processed st ++ later.
Proof.
  intros Hs Hafter. unfold Idle._process_new_messages.
  destruct (Idle.search_since box today) as [|u uids] eqn:E.
  - discriminate.
  - apply nonempty_true in Hs. rewrite Hs, Hafter.
    apply process_all_processed.
Qed.

(** A cursor that is not among the recent messages (or no cursor at all)
    makes catch-up handle every recent message. *)
Lemma catch_up_without_cursor box today s st :
  Idle.after_uid s (Idle.search_since box today) = None ->
  Idle.processed (Idle._process_new_messages box today (Some s) st)
  = Idle.processed st ++ Idle.search_since box today.
Proof.
  intros Hafter. unfold Idle._process_new_messages.
  destruct (Idle.search_since box today) as [|u uids] eqn:E.
  - now rewrite app_nil_r.
  - rewrite Hafter. destruct (nonempty s); apply process_all_processed.
Qed.

(** The reconnect path of [run]. The monitor starts with messages
    1-3 in the mailbox, handles message 4 when it arrives, then loses the
    connection; 5 and 6 arrive meanwhile. The next [IDLE] is not answered
    with a continuation, [_idle_loop] returns and [run] reconnects - and
    overwrites the cursor with the latest UID, 6. Messages 5 and 6 are never
    handled, although the comment in [run] says that reconnects use
    [last_seen_uid]. On the reconnect path inside [_idle_loop], which keeps
    the cursor, the same deliveries handle 4, 5, 6, 7. *)
Lemma reconnect_skips_arrivals :
  let gap := [Idle.Arrive (msg "5"); Idle.Arrive (msg "6")] in
  let before := [Idle.Arrive (msg "4"); Idle.Wake 0] in
  let after := [Idle.Wake 0; Idle.Arrive (msg "7"); Idle.Wake 0] in
  Idle.last_seen_uid (snd (Idle.run inbox3 before)) = Some "4"%string
  /\ Idle.last_seen_uid
       (snd (Idle.run inbox3 (before ++ gap ++ [Idle.IdleRefused])))
     = Some "6"%string
  /\ Idle.processed
       (snd (Idle.run inbox3 (before ++ gap ++ [Idle.IdleRefused] ++ after)))
     = ["4"; "7"]%string
  /\ Idle.processed
       (snd (Idle.run inbox3 (before ++ gap ++ [Idle.LoopError] ++ after)))
     = ["4"; "5"; "6"; "7"]%string.
Proof.
  repeat split; reflexivity.
Qed.

Lemma last_cons_default {A} (x : A) l d d' : last (x :: l) d = last (x :: l) d'.
Proof.
  revert x. induction l as [|y l IH]; intros x; [reflexivity|].
  change (last (y :: l) d = last (y :: l) d'). apply IH.
Qed.

Lemma process_all_cursor uids : forall st d,
  Idle.last_seen_uid st = Some d ->
  Idle.last_seen_uid (Idle.process_all uids st) = Some (last uids d).
Proof.
  induction uids as [|u rest IH]; intros st d Hd; cbn [Idle.process_all].
  - exact Hd.
  - rewrite (IH (Idle.mkMonitor (Some u) (Idle.processed st ++ [u])) u eq_refl).
    destruct rest as [|v rest]; [reflexivity|].
    change (last (u :: v :: rest) d) with (last (v :: rest) d).
    now rewrite (last_cons_default v rest u d).
Qed.

Lemma after_uid_split s uids later :
  Idle.after_uid s uids = Some later ->
  exists before, uids = before ++ s :: later /\ ~ In s before.
Proof.
  revert later. induction uids as [|u rest IH]; intros later H; cbn in H.
  - discriminate.
  - destruct (str_eqb u s) eqn:E.
    + apply str_eqb_eq in E. inversion H; subst. exists []. split; auto.
    + apply str_eqb_neq in E. destruct (IH _ H) as (before & -> & Hn).
      exists (u :: before). split; [reflexivity|].
      intros [Hu|Hin]; [congruence|contradiction].
Qed.

Lemma after_uid_none s uids :
  Idle.after_uid s uids = None <-> ~ In s uids.
Proof.
  induction uids as [|u rest IH]; cbn.
  - tauto.
  - destruct (str_eqb u s) eqn:E.
    + apply str_eqb_eq in E. split; [discriminate|]. intros H. tauto.
    + apply str_eqb_neq in E. rewrite IH. tauto.
Qed.

(** C9 as stated also fails where the code follows its comment
    [since_uid not found, process all recent]: once the message the cursor
    names has left the mailbox, the next catch-up starts over from all
    messages of the last day; 4, handled before, is handled again, and so
    are 1-3, which precede the cursor. *)
Lemma catch_up_counterexample :
  let ds := [Idle.Arrive (msg "4"); Idle.Arrive (msg "5"); Idle.Wake 0;
             Idle.Expunge "5"; Idle.LoopError; Idle.Arrive (msg "6");
             Idle.Wake 0] in
  Idle.processed (snd (Idle.run inbox3 (firstn 3 ds))) = ["4"; "5"]%string
  /\ Idle.last_seen_uid (snd (Idle.run inbox3 (firstn 3 ds))) = Some "5"%string
  /\ Idle.processed (snd (Idle.run inbox3 ds))
     = ["4"; "5"; "1"; "2"; "3"; "4"; "6"]%string.
Proof.
  repeat split; reflexivity.
Qed.

(** C9 (amended). A reconnect inside [_idle_loop] leaves monitor and cursor
    as they are, and the catch-up that follows starts from the cursor: when
    the cursor is among the messages of the last day, exactly the messages
    listed after it are handled, once each and in order, and the cursor
    moves to the last of them; when it is not among them, all messages of
    the last day are handled. *)
Theorem catch_up_from_cursor (box : Idle.Mailbox) (st : Idle.Monitor)
        (today : Z) (s : string) :
  Idle.last_seen_uid st = Some s ->
  s <> EmptyString ->
  let recent := Idle.search_since box today in
  let st' := snd (Idle.deliver (Idle.deliver (box, st) Idle.LoopError)
                               (Idle.Wake today)) in
  Idle.deliver (box, st) Idle.LoopError = (box, st)
  /\ (forall later,
         Idle.after_uid s recent = Some later ->
         (exists before, recent = before ++ s :: later /\ ~ In s before)
         /\ Idle.processed st' = Idle.processed st ++ later
         /\ Idle.last_seen_uid st' = Some (last later s))
  /\ (~ In s recent ->
      Idle.processed st' = Idle.processed st ++ recent).
Proof.
  intros Hcur Hs recent st'. split; [reflexivity|].
  subst st'. cbn [Idle.deliver snd]. rewrite Hcur. split.
  - intros later Hafter. split; [now apply after_uid_split|].
    split; [now apply catch_up_after_cursor|].
    unfold Idle._process_new_messages. fold recent.
    destruct recent as [|u uids] eqn:E; [discriminate|].
    apply nonempty_true in Hs. rewrite Hs, Hafter.
    now apply process_all_cursor.
  - intros Hnot. apply catch_up_without_cursor.
    now apply after_uid_none.
Qed.

Lemma catch_up_from_cursor_witness :
  Idle.processed
    (snd (Idle.deliver
            (Idle.deliver (inbox3 ++ [msg "4"; msg "5"],
                           Idle.mkMonitor (Some "3"%string) [])
                          Idle.LoopError)
            (Idle.Wake 0)))
  = ["4"; "5"]%string.
Proof.
  assert (Hs : "3"%string <> EmptyString) by discriminate.
  destruct (catch_up_from_cursor (inbox3 ++ [msg "4"; msg "5"])
              (Idle.mkMonitor (Some "3"%string) []) 0 "3" eq_refl Hs)
    as (_ & H & _).
  destruct (H ["4"; "5"]%string eq_refl) as (_ & Hp & _).
  exact Hp.
Defined.

(* ================================================================== *)
(** * Further properties of the store and the scheduler *)

(** ** The schema is kept *)

Lemma evolves_length l l' : evolves l l' -> (List.length l <= List.length l')%nat.
Proof.
  intros (old' & added & -> & H & _). rewrite length_app.
  apply Forall2_length in H. lia.
Qed.

(** X1. Every sequential run of the engine's operations keeps what the
    schema promises - ids are distinct and below the sequence counter,
    message ids are distinct - never lowers the counter and never removes a
    row. *)
Theorem runs_keep_schema (env : Env) (ops : list op) (w : World) :
  Inv w ->
  store_wf (run_ops env ops w)
  /\ next_id w <= next_id (run_ops env ops w)
  /\ (List.length (rows w) <= List.length (rows (run_ops env ops w)))%nat.
Proof.
  intros Hinv.
  destruct (reach_preserves env w _ Hinv (run_ops_reach env ops w Hinv))
    as ((Hwf & _) & Hev & Hn).
  split; [exact Hwf|]. split; [exact Hn|now apply evolves_length].
Qed.

Lemma runs_keep_schema_witness :
  store_wf (run_ops env0 [Ingest invite_B; Ingest invite_B; Scan;
                          Sync true [invite_C; cancel_invite "A"]]
                    (world_of [meeting_A])).
Proof.
  exact (proj1 (runs_keep_schema env0
                  [Ingest invite_B; Ingest invite_B; Scan;
                   Sync true [invite_C; cancel_invite "A"]]
                  (world_of [meeting_A]) world_of_A_Inv)).
Defined.

(** ** Insert, then look up *)

(** What sorts before every other row comes first. *)
Lemma order_by_head_first before l x :
  sorting before ->
  In x l -> (forall y, In y l -> y = x \/ before x y = true) ->
  hd_error (order_by before l) = Some x.
Proof.
  intros Hso Hx Hmin.
  pose proof (order_by_sorted before l Hso) as Hs.
  pose proof (order_by_In before l) as Hin.
  destruct (order_by before l) as [|h t].
  - exfalso. apply (Hin x) in Hx. exact Hx.
  - cbn. f_equal.
    assert (Hh : In h l) by (apply Hin; now left).
    destruct (Hmin h Hh) as [E|Hlt]; [exact E|].
    apply Hin in Hx. destruct Hx as [E|Hx]; [exact E|].
    inversion Hs as [|? ? _ Hall]; subst.
    rewrite Forall_forall in Hall. specialize (Hall x Hx).
    unfold in_order in Hall. congruence.
Qed.

(** X2. A meeting inserted under a new key, with a uid, and whose
    [created_at] as stored sorts after that of every stored record of that
    uid - by instant under PostgreSQL, by ISO text under SQLite - is what
    [get_by_uid] answers for that uid afterwards: the row as the store
    holds it, with the id the sequence gave it and the platform detected
    from its URL when it named none. *)
Theorem insert_then_lookup (env : Env) (m : Meeting) (w : World) :
  let row := stored env m (next_id w)
               (if nonempty (platform m) then platform m
                else _detect_platform (join_url m)) in
  key_exists (message_id m) (rows w) = false ->
  uid m <> EmptyString ->
  (forall r, In r (rows w) -> uid r = uid m ->
             sorts_before env created_at r row = true) ->
  let w' := exec (add_meeting env m) w in
  add_meeting env m w = (Ok (Some (next_id w)), w')
  /\ get_by_uid env (uid m) w' = (Ok (Some row), w').
Proof.
  intros row Hk Hu Hnew w'. subst w'. unfold exec.
  rewrite (add_meeting_fresh env m w Hk). cbn [snd]. split; [reflexivity|].
  unfold get_by_uid. apply nonempty_true in Hu. rewrite Hu. cbn [negb].
  f_equal. f_equal. cbn [inserted rows].
  change (stored env m (next_id w) (detected_platform m)) with row.
  unfold desc. apply order_by_head_first.
  - apply sorting_desc.
  - apply filter_In. split; [apply in_or_app; right; now left|].
    apply str_eqb_eq. reflexivity.
  - intros y Hy. apply filter_In in Hy. destruct Hy as [Hy Huid].
    apply str_eqb_eq in Huid. apply in_app_or in Hy.
    destruct Hy as [Hy|[<-|[]]]; [right|now left].
    exact (Hnew y Hy Huid).
Qed.

Lemma insert_then_lookup_witness :
  let m := meeting_of (request_invite "<r3@example.com>" "uid-r" "Review"
                         (at_hm 15 0) (Some (at_hm 16 0)))
                      (at_hm 15 0) "pending"
                      (Aware (instant_hm 13 0) (fun _ => timedelta_hours 2)) in
  let w' := exec (add_meeting env_sqlite_dev m) (world_of [first_issue]) in
  get_by_uid env_sqlite_dev "uid-r" w'
  = (Ok (Some (stored env_sqlite_dev m 2 "google_meet")), w')
  /\ isoformat (created_at (stored env_sqlite_dev m 2 "google_meet"))
     = "2024-01-01T13:00:00+02:00"%string.
Proof.
  intros m w'.
  assert (Hu : uid m <> EmptyString) by discriminate.
  assert (Hnew : forall r, In r (rows (world_of [first_issue])) ->
                           uid r = uid m ->
                           sorts_before env_sqlite_dev created_at r
                             (stored env_sqlite_dev m 2 "google_meet") = true).
  { intros r [<-|[]] _. vm_compute. reflexivity. }
  split; [|vm_compute; reflexivity].
  exact (proj2 (insert_then_lookup env_sqlite_dev m (world_of [first_issue])
                  eq_refl Hu Hnew)).
Defined.

(** ** Cancelling again, and what a cancellation frees *)

Lemma filter_map_same {A} (p : A -> bool) (f : A -> A) l :
  (forall x, p (f x) = p x) -> filter p (map f l) = map f (filter p l).
Proof.
  intros Hf. induction l as [|x xs IH]; cbn; [reflexivity|].
  rewrite Hf. destruct (p x); cbn; now rewrite IH.
Qed.

Lemma hd_error_map {A B} (f : A -> B) l :
  hd_error (map f l) = option_map f (hd_error l).
Proof. now destruct l. Qed.

(** A status update does not change which record a uid resolves to. *)
Lemma get_by_uid_after_update env u i s w r :
  get_by_uid env u w = (Ok (Some r), w) ->
  get_by_uid env u (with_rows w (update_rows i s (rows w)))
  = (Ok (Some (if id_matches i r then set_status r s else r)),
     with_rows w (update_rows i s (rows w))).
Proof.
  unfold get_by_uid. destruct (nonempty u); cbn [negb]; [|discriminate].
  intros H. inversion H as [Hhd]. f_equal. f_equal.
  cbn [with_rows rows]. unfold update_rows, desc.
  rewrite filter_map_same, order_by_map, hd_error_map.
  - unfold desc in Hhd. rewrite Hhd. reflexivity.
  - intros a b. now destruct (id_matches i a), (id_matches i b).
  - intros x. now destruct (id_matches i x).
Qed.

(** X3. Delivering the same CANCEL invite a second time changes nothing:
    the record it resolves to is the one the first delivery cancelled. *)
Theorem cancel_twice_is_once (env : Env) (inv : MeetingInvite) (w : World) :
  store_wf w ->
  inv_method inv = "CANCEL"%string ->
  exec (process_invite env inv) (exec (process_invite env inv) w)
  = exec (process_invite env inv) w.
Proof.
  intros Hwf Hm. unfold exec.
  rewrite !process_invite_cancel by exact Hm.
  destruct (handle_cancellation_cases env inv w)
    as (w1 & Hrun & Hn & Ht & He & Hcases).
  rewrite Hrun. cbn [snd].
  assert (Hnoop : forall r, get_by_uid env (inv_uid inv) w1 = (Ok (Some r), w1) ->
                            In (status r) ["cancelled"; "completed"]%string ->
                            snd (_handle_cancellation env inv w1) = w1).
  { intros r Hget Hs.
    destruct (handle_cancellation_cases env inv w1)
      as (w2 & Hrun2 & Hn2 & Ht2 & He2 & Hc2).
    rewrite Hrun2. cbn [snd]. apply world_eq; auto.
    destruct Hc2 as [(r2 & Hget2 & Hr2)|(_ & Hr2)]; [|exact Hr2].
    rewrite Hget in Hget2. inversion Hget2; subst r2.
    apply status_in_In in Hs. now rewrite Hs in Hr2. }
  destruct Hcases as [(r & Hget & Hr)|(Hget & Hr)].
  - destruct (status_in (status r) ["cancelled"; "completed"]%string) eqn:Hs.
    + assert (w1 = w) by (apply world_eq; auto). subst w1.
      apply (Hnoop r Hget). now apply status_in_In.
    + assert (E : w1 = with_rows w (update_rows (id r) "cancelled" (rows w)))
        by (apply world_eq; auto).
      destruct (get_by_uid_found _ _ _ _ Hget) as (_ & Hin & _).
      pose proof (wf_ids _ Hwf) as Hall. rewrite Forall_forall in Hall.
      destruct (Hall _ Hin) as (i & Hi & _).
      pose proof (get_by_uid_after_update _ _ (id r) "cancelled" _ _ Hget) as H2.
      rewrite <- E in H2.
      assert (Hself : id_matches (id r) r = true)
        by (rewrite Hi; now apply id_matches_iff).
      rewrite Hself in H2.
      apply (Hnoop _ H2). cbn. auto.
  - assert (w1 = w) by (apply world_eq; auto). subst w1.
    destruct (handle_cancellation_cases env inv w)
      as (w2 & Hrun2 & Hn2 & Ht2 & He2 & Hc2).
    rewrite Hrun2. cbn [snd]. apply world_eq; auto.
    destruct Hc2 as [(r2 & Hget2 & _)|(_ & Hr2)]; [|exact Hr2].
    rewrite Hget in Hget2. discriminate.
Qed.

Lemma cancel_twice_is_once_witness :
  exec (process_invite env0 (cancel_invite "A"))
       (exec (process_invite env0 (cancel_invite "A")) (world_of [meeting_A]))
  = exec (process_invite env0 (cancel_invite "A")) (world_of [meeting_A]).
Proof.
  exact (cancel_twice_is_once env0 (cancel_invite "A") (world_of [meeting_A])
           world_of_A_wf eq_refl).
Defined.

(** A conflict query that answers was asked with an end it could take
    and an id the store could bind. *)
Lemma check_conflicts_answered env start end_opt excl w res :
  check_conflicts env start end_opt excl w = (Ok res, w) ->
  exists end',
    res = asc env start_time
            (filter (conflicts_with env start end' excl) (rows w)).
Proof.
  intros H.
  destruct (default_end start end_opt) as [end'|e] eqn:Hd.
  - destruct (binds env excl) eqn:Hb.
    + rewrite (check_conflicts_run env start end_opt excl w end' Hd Hb) in H.
      exists end'. now inversion H.
    + exfalso. unfold check_conflicts, bind, lift in H.
      unfold default_end in Hd. destruct end_opt as [e0|].
      * rewrite Hb in H. discriminate.
      * rewrite Hd, Hb in H. discriminate.
  - exfalso. unfold check_conflicts, bind, lift in H.
    unfold default_end in Hd. destruct end_opt as [e0|]; [discriminate|].
    rewrite Hd in H. discriminate.
Qed.

(** X4. A cancellation frees the slot: once a CANCEL has cancelled the
    record its uid resolves to, every conflict query answers what it
    answered before, without that record. *)
Theorem cancellation_frees_slot (env : Env) (inv : MeetingInvite) (w : World)
        (r : Meeting) :
  store_wf w ->
  inv_method inv = "CANCEL"%string ->
  get_by_uid env (inv_uid inv) w = (Ok (Some r), w) ->
  ~ In (status r) ["cancelled"; "completed"]%string ->
  let w' := exec (process_invite env inv) w in
  forall start end_opt excl res res',
    check_conflicts env start end_opt excl w = (Ok res, w) ->
    check_conflicts env start end_opt excl w' = (Ok res', w') ->
    forall x, In x res' <-> In x res /\ x <> r.
Proof.
  intros Hwf Hm Hget Hs w' start end_opt excl res res' Hres Hres' x.
  assert (Hrows : rows w' = update_rows (id r) "cancelled" (rows w)).
  { subst w'. unfold exec. rewrite process_invite_cancel by exact Hm.
    destruct (handle_cancellation_cases env inv w)
      as (w1 & Hrun & _ & _ & _ & Hcases).
    rewrite Hrun. cbn [snd].
    destruct Hcases as [(r' & Hget' & Hr')|(Hget' & _)].
    - rewrite Hget in Hget'. inversion Hget'; subst r'.
      apply status_in_not_In in Hs. now rewrite Hs in Hr'.
    - rewrite Hget in Hget'. discriminate. }
  destruct (get_by_uid_found _ _ _ _ Hget) as (_ & Hin & _).
  destruct (default_end start end_opt) as [end'|e] eqn:Hd.
  2:{ apply check_conflicts_answered in Hres. destruct Hres as (end' & _).
      exfalso. clear - Hd Hres'. unfold check_conflicts, bind, lift in Hres'.
      unfold default_end in Hd. destruct end_opt; [discriminate|].
      rewrite Hd in Hres'. discriminate. }
  destruct (binds env excl) eqn:Hb.
  2:{ exfalso. clear - Hd Hb Hres'. unfold check_conflicts, bind, lift in Hres'.
      unfold default_end in Hd. destruct end_opt.
      - rewrite Hb in Hres'. discriminate.
      - rewrite Hd, Hb in Hres'. discriminate. }
  rewrite (check_conflicts_run env start end_opt excl w end' Hd Hb) in Hres.
  rewrite (check_conflicts_run env start end_opt excl w' end' Hd Hb) in Hres'.
  inversion Hres as [Er]. inversion Hres' as [Er'].
  rewrite !asc_In, !filter_In, Hrows. split.
  - intros [Hx Hc]. apply update_rows_In in Hx.
    destruct Hx as (x0 & Hx0 & _ & [[_ ->]|[Hno ->]]).
    + exfalso. apply conflicts_with_status in Hc.
      apply Hc. cbn. auto.
    + split; [now split|]. intros ->.
      pose proof (wf_ids _ Hwf) as Hall. rewrite Forall_forall in Hall.
      destruct (Hall _ Hin) as (i & Hi & _).
      rewrite Hi in Hno. apply id_matches_iff in Hi. congruence.
  - intros [[Hx Hc] Hne]. split; [|exact Hc].
    unfold update_rows. apply in_map_iff. exists x. split; [|exact Hx].
    destruct (id_matches (id r) x) eqn:E; [|reflexivity].
    exfalso. apply Hne. eapply matched_row_unique; eauto.
Qed.

Lemma cancellation_frees_slot_witness :
  let w := world_of [meeting_A] in
  let w' := exec (process_invite env0 (cancel_invite "A")) w in
  check_conflicts env0 (at_hm 10 30) (Some (at_hm 11 30)) None w
  = (Ok [meeting_A], w)
  /\ check_conflicts env0 (at_hm 10 30) (Some (at_hm 11 30)) None w' = (Ok [], w')
  /\ (In meeting_A [] <-> In meeting_A [meeting_A] /\ meeting_A <> meeting_A).
Proof.
  cbv zeta. split; [reflexivity|]. split; [reflexivity|].
  assert (Hs : ~ In (status meeting_A) ["cancelled"; "completed"]%string).
  { cbn. intros [H|[H|[]]]; discriminate. }
  exact (cancellation_frees_slot env0 (cancel_invite "A") (world_of [meeting_A])
           meeting_A world_of_A_wf eq_refl eq_refl Hs
           (at_hm 10 30) (Some (at_hm 11 30)) None [meeting_A] []
           eq_refl eq_refl meeting_A).
Defined.

(** ** Delivering an invite twice *)

Lemma step_keeps_key env k w w' :
  step env w w' ->
  key_exists k (rows w) = true -> key_exists k (rows w') = true.
Proof.
  intros Hstep Hk. rewrite key_exists_In in *.
  destruct Hstep as [|ev Hev|m Hm|r Hr Hs|m r Hr Hid Hs].
  - exact Hk.
  - exact Hk.
  - unfold add_meeting.
    destruct (key_exists (message_id m) (rows w)).
    + destruct (driver_eqb _ _); exact Hk.
    + cbn [snd rows]. rewrite map_app. apply in_or_app. now left.
  - cbn [update_status snd with_rows rows]. now rewrite update_rows_keys.
  - rewrite trigger_join_eq. cbn [snd rows]. now rewrite update_rows_keys.
Qed.

Lemma reach_keeps_key env k w w' :
  reach env w w' ->
  key_exists k (rows w) = true -> key_exists k (rows w') = true.
Proof.
  induction 1 as [x y Hstep|x|x y z _ IH1 _ IH2]; intros Hk.
  - now apply (step_keeps_key env k x y).
  - exact Hk.
  - auto.
Qed.

Lemma add_meeting_stores_key env m :
  stores_key (message_id m) (add_meeting env m).
Proof.
  intros w _. unfold add_meeting.
  destruct (key_exists (message_id m) (rows w)) eqn:Hk.
  - destruct (driver_eqb _ _); exact Hk.
  - cbn [snd rows]. apply key_exists_In. rewrite map_app.
    apply in_or_app. right. now left.
Qed.

Lemma stores_key_then {A B} env k (c : M A) (f : A -> M B) :
  safe env c -> stores_key k c -> (forall a, safe env (f a)) ->
  stores_key k (bind c f).
Proof.
  intros Hsafe Hc Hf w Hinv. unfold bind.
  pose proof (Hc w Hinv) as Hk. pose proof (Hsafe w Hinv) as Hr.
  destruct (c w) as [[a|e] w1]; cbn [snd] in *; [|exact Hk].
  eapply reach_keeps_key; [|exact Hk]. apply Hf.
  now apply (reach_preserves env w w1).
Qed.

Lemma stores_key_after {A B} env k (c : M A) (f : A -> M B) :
  safe env c -> (forall w, exists a, fst (c w) = Ok a) ->
  (forall a, stores_key k (f a)) ->
  stores_key k (bind c f).
Proof.
  intros Hsafe Hok Hf w Hinv. unfold bind.
  pose proof (Hsafe w Hinv) as Hr. destruct (Hok w) as (a & Ha).
  destruct (c w) as [[a'|e] w1]; cbn [fst snd] in *; [|discriminate].
  apply Hf. now apply (reach_preserves env w w1).
Qed.

Lemma record_missed_stores_key env inv start :
  stores_key (inv_message_id inv) (record_missed env inv start).
Proof.
  unfold record_missed.
  apply (stores_key_after env); [apply safe_now|intros; eexists; reflexivity|].
  intros created.
  apply (stores_key_then env);
    [apply safe_add; cbn; auto
    |apply (add_meeting_stores_key env (meeting_of inv start "missed" created))
    |intros; apply safe_ret].
Qed.

(** Once the conflicts are known, the record goes to the store. *)
Lemma decided_stores_key env inv start conflicts :
  stores_key (inv_message_id inv)
    (match conflicts with
     | _ :: _ =>
         let reason := decline_reason conflicts in
         created <- datetime_now env ;;
         meeting_id <- add_meeting env (meeting_of inv start "declined" created) ;;
         if truthy_id meeting_id then rsvp_decline env inv reason else ret tt
     | [] =>
         created <- datetime_now env ;;
         let meeting := meeting_of inv start "pending" created in
         meeting_id <- add_meeting env meeting ;;
         if truthy_id meeting_id
         then rsvp_accept env inv ;;; join_if_due env meeting
         else ret tt
     end).
Proof.
  destruct conflicts as [|c cs].
  - apply (stores_key_after env); [apply safe_now|intros; eexists; reflexivity|].
    intros created.
    apply (stores_key_then env);
      [apply safe_add; cbn; auto
      |apply (add_meeting_stores_key env (meeting_of inv start "pending" created))
      |].
    intros meeting_id. destruct (truthy_id meeting_id); [|apply safe_ret].
    apply safe_bind; [apply safe_rsvp_accept|intros; apply safe_join_if_due].
  - apply (stores_key_after env); [apply safe_now|intros; eexists; reflexivity|].
    intros created.
    apply (stores_key_then env);
      [apply safe_add; cbn; auto
      |apply (add_meeting_stores_key env (meeting_of inv start "declined" created))
      |].
    intros meeting_id. destruct (truthy_id meeting_id); [|apply safe_ret].
    apply safe_rsvp_decline.
Qed.

Lemma process_invite_stores_key env inv start ended end' w :
  Inv w ->
  inv_method inv <> "CANCEL"%string ->
  inv_join_url inv <> EmptyString ->
  inv_start_time inv = Some start ->
  ended_before inv (now_at env (ticks w)) = Ok ended ->
  default_end start (inv_end_time inv) = Ok end' ->
  key_exists (inv_message_id inv) (rows (snd (process_invite env inv w))) = true.
Proof.
  intros Hinv Hm Hurl Hstart Hended Hend.
  apply str_eqb_neq in Hm. apply nonempty_true in Hurl.
  unfold process_invite. rewrite Hm, Hurl, Hstart. cbn [negb].
  unfold bind at 1. unfold datetime_now at 1. cbn beta iota.
  fold (tick w). unfold bind at 1. unfold lift at 1. rewrite Hended.
  assert (Hinv1 : Inv (tick w)).
  { now destruct (step_preserves env w (tick w) Hinv (S_tick env w)). }
  destruct ended.
  - now apply record_missed_stores_key.
  - unfold bind at 1.
    rewrite (check_conflicts_run env start (inv_end_time inv) None (tick w) end'
               Hend eq_refl).
    now apply decided_stores_key.
Qed.

Lemma one_row_per_key k l :
  NoDup (map message_id l) -> key_exists k l = true ->
  List.length (filter (fun r => str_eqb (message_id r) k) l) = 1%nat.
Proof.
  induction l as [|a l IH]; cbn; [discriminate|].
  intros Hnd Hk. inversion Hnd as [|? ? Hnotin Hnd']; subst.
  destruct (str_eqb (message_id a) k) eqn:E; cbn.
  - f_equal. apply str_eqb_eq in E. subst k.
    destruct (filter _ l) as [|b bs] eqn:F; [reflexivity|].
    exfalso. apply Hnotin.
    assert (Hb : In b (filter (fun r => str_eqb (message_id r) (message_id a)) l))
      by (rewrite F; now left).
    apply filter_In in Hb. destruct Hb as [Hb Eb]. apply str_eqb_eq in Eb.
    rewrite <- Eb. now apply in_map.
  - apply IH; assumption.
Qed.

(** X5. An actionable invite (not a CANCEL, with join URL and start time)
    whose end, if it names one, can be compared with the clock - both
    carry a time zone - and whose default end, start plus one hour, is a
    date [datetime] can hold when it names none, leaves exactly one record
    with its message id when delivered to [process_invite], in every
    configuration of the store; delivering it again, by push or by poll,
    changes neither the rows nor the log of RSVP and Job requests. *)
Theorem delivered_twice_stored_once (env : Env) (inv : MeetingInvite) (w : World)
        (start end' : datetime) (ended : bool) :
  Inv w ->
  inv_method inv <> "CANCEL"%string ->
  inv_join_url inv <> EmptyString ->
  inv_start_time inv = Some start ->
  ended_before inv (now_at env (ticks w)) = Ok ended ->
  default_end start (inv_end_time inv) = Ok end' ->
  let w1 := exec (process_invite env inv) w in
  List.length (filter (fun r => str_eqb (message_id r) (inv_message_id inv))
                      (rows w1)) = 1%nat
  /\ rows (exec (process_invite env inv) w1) = rows w1
  /\ events (exec (process_invite env inv) w1) = events w1
  /\ rows (exec (sync_invite env inv) w1) = rows w1
  /\ events (exec (sync_invite env inv) w1) = events w1.
Proof.
  intros Hinv Hm Hurl Hstart Hended Hend w1.
  assert (Hk : key_exists (inv_message_id inv) (rows w1) = true).
  { apply (process_invite_stores_key env inv start ended end' w); assumption. }
  assert (Hwf : store_wf w1).
  { apply (reach_preserves env w w1 Hinv).
    now apply safe_process_invite. }
  split; [apply one_row_per_key; [apply Hwf|exact Hk]|].
  now apply redelivery_changes_nothing.
Qed.

Lemma delivered_twice_stored_once_witness :
  let w1 := exec (process_invite env_sqlite_dev invite_B) (world_of [meeting_A]) in
  rows (exec (process_invite env_sqlite_dev invite_B) w1) = rows w1
  /\ map message_id (rows w1) = ["A"; "<b@example.com>"]%string.
Proof.
  intros w1.
  assert (Hm : inv_method invite_B <> "CANCEL"%string) by discriminate.
  assert (Hurl : inv_join_url invite_B <> EmptyString) by discriminate.
  destruct (delivered_twice_stored_once env_sqlite_dev invite_B
              (world_of [meeting_A]) (at_hm 10 30) (at_hm 11 30) false
              world_of_A_Inv Hm Hurl eq_refl eq_refl eq_refl)
    as (_ & Hrows & _).
  split; [exact Hrows|reflexivity].
Defined.

(** ** What a poll of the inbox counts *)

Lemma accepts_app a b : accepts (a ++ b) = (accepts a + accepts b)%nat.
Proof. unfold accepts. now rewrite filter_app, length_app. Qed.

Lemma add_meeting_cases env m w :
  exists r w1,
    add_meeting env m w = (r, w1)
    /\ events w1 = events w
    /\ ((exists i, r = Ok (Some i) /\ exists row, rows w1 = rows w ++ [row])
        \/ ((r = Ok None \/ exists e, r = Raise e) /\ rows w1 = rows w)).
Proof.
  unfold add_meeting. destruct (key_exists _ _).
  - destruct (driver_eqb _ _); do 2 eexists; (split; [reflexivity|]);
      (split; [reflexivity|]); right; cbn; eauto.
  - do 2 eexists. split; [reflexivity|]. split; [reflexivity|].
    left. eexists. split; [reflexivity|]. eexists. reflexivity.
Qed.

Ltac count_done :=
  intros H; inversion H; subst; clear H;
  cbn [rows events bump];
  rewrite ?spawned_ids_app, ?accepts_app, ?length_app;
  cbn [spawned_ids flat_map accepts filter List.length app];
  rewrite ?app_nil_r;
  repeat split; try (intros; discriminate); try lia; try congruence.

Lemma sync_invite_effect env inv w added w1 :
  sync_invite env inv w = (Ok added, w1) ->
  spawned_ids (events w1) = spawned_ids (events w)
  /\ (List.length (rows w) + bump added <= List.length (rows w1))%nat
  /\ (send_rsvp env = true ->
      accepts (events w1) = (accepts (events w) + bump added)%nat).
Proof.
  unfold sync_invite.
  destruct (str_eqb (inv_method inv) "CANCEL").
  { destruct (handle_cancellation_cases env inv w)
      as (w2 & Hrun & _ & _ & He & Hcases).
    unfold bind. rewrite Hrun. unfold ret. intros H; inversion H; subst.
    rewrite He. cbn [bump]. repeat split; try lia.
    destruct Hcases as [(r & _ & Hr)|(_ & Hr)]; rewrite Hr.
    - destruct (status_in _ _); rewrite ?update_rows_length; lia.
    - lia. }
  destruct (negb (nonempty (inv_join_url inv))); [unfold ret; count_done|].
  destruct (inv_start_time inv) as [start|]; [|unfold ret; count_done].
  unfold bind at 1. unfold datetime_now at 1. cbn beta iota.
  unfold bind at 1. unfold lift at 1.
  destruct (ended_before inv (now_at env (ticks w))) as [[|]|e0];
    [| |intros H; discriminate H].
  - unfold record_missed, bind, datetime_now, ret. cbn beta iota.
    match goal with
    | |- context [add_meeting env ?m ?w0] =>
        destruct (add_meeting_cases env m w0)
          as (r & w2 & E & He & [(i & -> & row & Hr)|([->|(e & ->)] & Hr)]);
        rewrite E; cbn [rows events] in He, Hr
    end; try discriminate;
      intros H; inversion H; subst; rewrite He, Hr, ?length_app;
      cbn [bump List.length]; repeat split; lia.
  - unfold bind at 1. rewrite check_conflicts_result.
    destruct (fst (check_conflicts env start (inv_end_time inv) None _))
      as [[|c cs]|e0]; [| |intros H; discriminate H];
      unfold bind at 1; unfold datetime_now at 1; cbn beta iota;
      unfold bind at 1;
      match goal with
      | |- context [add_meeting env ?m ?w0] =>
          destruct (add_meeting_cases env m w0)
            as (r & w2 & E & He & [(i & -> & row & Hr)|([->|(e & ->)] & Hr)]);
          rewrite E; cbn [rows events] in He, Hr
      end; try discriminate;
      cbn [truthy_id]; try destruct (negb (_ =? 0));
      unfold bind, rsvp_accept, rsvp_decline, emit, ret;
      try destruct (send_rsvp env); cbn beta iota;
      intros H; inversion H; subst; cbn [rows events];
      rewrite ?He, ?Hr, ?spawned_ids_app, ?accepts_app, ?length_app;
      cbn [bump List.length spawned_ids flat_map accepts filter app];
      rewrite ?app_nil_r;
      repeat split; try (intros; discriminate); lia.
Qed.

Lemma sync_loop_effect env fetched : forall n w n' w',
  sync_loop env fetched n w = (Ok n', w') ->
  n <= n' <= n + Z.of_nat (List.length fetched)
  /\ spawned_ids (events w') = spawned_ids (events w)
  /\ Z.of_nat (List.length (rows w)) + (n' - n)
     <= Z.of_nat (List.length (rows w'))
  /\ (send_rsvp env = true ->
      Z.of_nat (accepts (events w'))
      = Z.of_nat (accepts (events w)) + (n' - n)).
Proof.
  induction fetched as [|inv rest IH]; intros n w n' w'; cbn [sync_loop].
  - unfold ret. intros H; inversion H; subst. cbn. repeat split; lia.
  - unfold bind. destruct (sync_invite env inv w) as [[added|e] w1] eqn:E;
      [|discriminate].
    intros H. apply IH in H. destruct H as (Hn & Hsp & Hrows & Hacc).
    destruct (sync_invite_effect env inv w added w1 E) as (Hsp1 & Hrows1 & Hacc1).
    cbn [List.length]. destruct added; cbn [bump] in *;
      (split; [lia|]); (split; [congruence|]); (split; [lia|]);
      intros Hs; specialize (Hacc Hs); specialize (Hacc1 Hs); lia.
Qed.

(** X6. The number [sync_inbox] returns counts the invites of the pass that
    were stored as pending: it is at most the number of invites fetched and
    at most the number of rows the pass added, and with an RSVP sender
    configured it is the number of accepts requested. A pass never requests
    a Job; without a connection it returns 0 and touches nothing. *)
Theorem sync_inbox_count (env : Env) (connected : bool)
        (fetched : list MeetingInvite) (w w' : World) (n : Z) :
  sync_inbox env connected fetched w = (Ok n, w') ->
  0 <= n <= Z.of_nat (List.length fetched)
  /\ spawned_ids (events w') = spawned_ids (events w)
  /\ Z.of_nat (List.length (rows w)) + n <= Z.of_nat (List.length (rows w'))
  /\ (send_rsvp env = true ->
      Z.of_nat (accepts (events w')) = Z.of_nat (accepts (events w)) + n)
  /\ (connected = false -> n = 0 /\ w' = w).
Proof.
  unfold sync_inbox. destruct connected; cbn [negb].
  - intros H. apply sync_loop_effect in H.
    destruct H as (Hn & Hsp & Hrows & Hacc).
    repeat split; try lia; try assumption; try discriminate.
    intros Hs. rewrite (Hacc Hs). lia.
  - unfold ret. intros H; inversion H; subst.
    repeat split; cbn; lia.
Qed.

Lemma sync_inbox_count_witness :
  let fetched := [invite_B; invite_C; invite_old; cancel_invite "A"] in
  let w' := exec (sync_inbox env0 true fetched) (world_of [meeting_A]) in
  Z.of_nat (accepts (events w')) = Z.of_nat (accepts []) + 1.
Proof.
  intros fetched w'.
  assert (E : sync_inbox env0 true fetched (world_of [meeting_A]) = (Ok 1, w'))
    by (vm_compute; reflexivity).
  destruct (sync_inbox_count env0 true fetched (world_of [meeting_A]) w' 1 E)
    as (_ & _ & _ & H & _).
  exact (H eq_refl).
Defined.

(** ** An invite for a meeting that is about to start *)

(** What [process_invite] comes to for an invite that is stored as pending. *)
Lemma process_invite_accepts env inv w start :
  inv_method inv <> "CANCEL"%string ->
  inv_join_url inv <> EmptyString ->
  inv_start_time inv = Some start ->
  ended_before inv (now_at env (ticks w)) = Ok false ->
  key_exists (inv_message_id inv) (rows w) = false ->
  0 < next_id w ->
  check_conflicts env start (inv_end_time inv) None w = (Ok [], w) ->
  let m := meeting_of inv start "pending" (now_at env (S (ticks w))) in
  let w1 := snd (rsvp_accept env inv
                   (snd (add_meeting env m (tick (tick w))))) in
  process_invite env inv w = join_if_due env m w1.
Proof.
  intros Hm Hurl Hstart Hended Hk Hnext Hnone m w1.
  apply str_eqb_neq in Hm. apply nonempty_true in Hurl.
  assert (Hcheck : check_conflicts env start (inv_end_time inv) None (tick w)
                   = (Ok [], tick w)).
  { destruct (check_conflicts_answered _ _ _ _ _ _ Hnone) as (end' & E).
    rewrite check_conflicts_result in Hnone |- *.
    inversion Hnone as [E1].
    unfold check_conflicts, bind, lift in E1 |- *.
    destruct (match inv_end_time inv with
              | Some e => Ok e
              | None => dt_add start (timedelta_hours 1)
              end); cbn [fst binds] in E1 |- *; [|discriminate].
    cbn [tick rows]. now rewrite E1. }
  unfold process_invite. rewrite Hm, Hurl, Hstart. cbn [negb].
  unfold bind at 1. unfold datetime_now at 1. cbn beta iota.
  unfold bind at 1. unfold lift at 1.
  rewrite Hended. unfold bind at 1. fold (tick w). rewrite Hcheck.
  unfold bind at 1. unfold datetime_now at 1. cbn beta iota.
  cbn [tick ticks rows next_id events]. fold m.
  change (mkWorld (rows w) (next_id w) (S (S (ticks w))) (events w))
    with (tick (tick w)).
  subst w1. unfold bind at 1.
  rewrite (add_meeting_fresh env m (tick (tick w)) Hk).
  cbn [tick next_id]. rewrite (truthy_id_pos _ Hnext).
  unfold bind. cbn [snd].
  destruct (rsvp_accept env inv _) as [[u|e] w2] eqn:E; [reflexivity|].
  unfold rsvp_accept, emit, ret in E. destruct (send_rsvp env); discriminate.
Qed.

(** X7. An invite stored as pending whose start can be compared with the
    clock and lies within the join horizon, or which has started and not
    ended, when [process_invite] looks at the clock, and whose record is
    due at the reading the due query makes, has its Job requested before
    [process_invite] returns, and is no longer pending then. The horizon
    is [join_before_minutes + 1] minutes, of at most 2^32 seconds. *)
Theorem imminent_invite_is_joined (env : Env) (inv : MeetingInvite) (w : World)
        (start : datetime) (time_until : Z) (cutoff past_cutoff : datetime) :
  Inv w ->
  inv_method inv <> "CANCEL"%string ->
  inv_join_url inv <> EmptyString ->
  inv_start_time inv = Some start ->
  ended_before inv (now_at env (ticks w)) = Ok false ->
  key_exists (inv_message_id inv) (rows w) = false ->
  check_conflicts env start (inv_end_time inv) None w = (Ok [], w) ->
  let minutes_ahead := join_before_minutes env + 1 in
  let now2 := now_at env (S (S (ticks w))) in
  let now3 := now_at env (S (S (S (ticks w)))) in
  let m := meeting_of inv start "pending" (now_at env (S (ticks w))) in
  let row := stored env m (next_id w) (detected_platform m) in
  minutes_ahead * 60 <= 2 ^ 32 ->
  dt_sub start now2 = Ok time_until ->
  (0 <= time_until < timedelta_minutes minutes_ahead
   \/ (time_until < 0
       /\ (inv_end_time inv = None
           \/ exists e, inv_end_time inv = Some e /\ dt_lt now2 e = Ok true))) ->
  horizon now3 minutes_ahead = Ok (cutoff, past_cutoff) ->
  (if use_postgres env
   then due_at (clock env (S (S (S (ticks w))))) (timedelta_minutes minutes_ahead)
               (pg_instant env (start_time row))
               (option_map (pg_instant env) (end_time row))
   else due_sqlite env now3 cutoff past_cutoff row) ->
  let w' := exec (process_invite env inv) w in
  In (Some (next_id w)) (spawned_ids (events w'))
  /\ forall r, In r (rows w') -> id r = Some (next_id w) ->
               status r <> "pending"%string.
Proof.
  intros Hinv Hm Hurl Hstart Hended Hk Hnone minutes_ahead now2 now3 m row
         Hbound Hsub Hdue2 Hhor Hdue3 w'.
  assert (Hnext : 0 < next_id w) by apply Hinv.
  pose proof (process_invite_accepts env inv w start
                Hm Hurl Hstart Hended Hk Hnext Hnone) as Hrun.
  cbn zeta in Hrun. fold m in Hrun.
  set (w1 := snd (rsvp_accept env inv _)) in *.
  (* the world in which the join check starts *)
  assert (Hreach1 : reach env w w1).
  { eapply rt_trans; [apply rt_step, S_tick|].
    eapply rt_trans; [apply rt_step, S_tick|].
    eapply rt_trans; [apply rt_step; apply (S_insert env _ m); cbn; auto|].
    subst w1. unfold rsvp_accept. destruct (send_rsvp env).
    - apply rt_step. now apply S_rsvp.
    - apply rt_refl. }
  destruct (reach_preserves env w w1 Hinv Hreach1) as (Hinv1 & _ & _).
  assert (Hw1 : rows w1 = rows w ++ [row]
                /\ ticks w1 = S (S (ticks w))
                /\ spawned_ids (events w1) = spawned_ids (events w)).
  { subst w1. rewrite (add_meeting_fresh env m (tick (tick w)) Hk).
    unfold rsvp_accept, emit, ret. destruct (send_rsvp env);
      cbn [snd inserted tick rows ticks events next_id];
      rewrite ?spawned_ids_app; cbn [spawned_ids flat_map];
      rewrite ?app_nil_r; auto. }
  destruct Hw1 as (Hrows1 & Hticks1 & Hsp1).
  (* the join check goes on to the scan *)
  assert (Hjoin : join_if_due env m w1
                  = _check_and_join_upcoming env (tick w1)).
  { unfold join_if_due. unfold bind at 1. unfold datetime_now at 1.
    cbn beta iota. fold (tick w1).
    rewrite Hticks1. fold now2. cbn [start_time m meeting_of end_time].
    unfold bind at 1. unfold lift at 1. rewrite Hsub.
    unfold starts_soon. fold minutes_ahead.
    assert (Eb : (minutes_ahead * 60 <=? 2 ^ 32) = true) by now apply Z.leb_le.
    rewrite Eb.
    destruct Hdue2 as [[H1 H2]|[H1 H2]].
    - assert (E1 : (time_until <? minutes_ahead * 60 * 1000000) = true)
        by (apply Z.ltb_lt; unfold timedelta_minutes in H2; lia).
      assert (E2 : (0 <=? time_until) = true) by (apply Z.leb_le; lia).
      now rewrite E1, E2.
    - assert (E2 : (0 <=? time_until) = false) by (apply Z.leb_gt; lia).
      assert (E3 : (time_until <? 0) = true) by (apply Z.ltb_lt; lia).
      rewrite E2, andb_false_r, E3.
      destruct H2 as [->|(e & -> & He)]; [reflexivity|].
      unfold bind at 1. unfold lift at 1. now rewrite He. }
  assert (Htick : step env w1 (tick w1)) by apply S_tick.
  destruct (step_preserves env w1 (tick w1) Hinv1 Htick) as (Hinv2 & _ & _).
  destruct (scan_spawns_due env (tick w1) Hinv2) as (Hreach & Hscan).
  pose proof (get_upcoming_run env minutes_ahead (tick w1)) as Hget.
  cbn [tick ticks] in Hscan, Hget. rewrite Hticks1 in Hscan, Hget.
  fold now3 minutes_ahead in Hscan, Hget. rewrite Hhor in Hscan, Hget.
  destruct Hscan as (due & Hcheck & _ & Hsp).
  assert (Hin : In row due).
  { change (check_upcoming env (tick w1))
      with (get_upcoming env minutes_ahead (tick w1)) in Hcheck.
    cbn [tick] in Hcheck. rewrite Hget in Hcheck. inversion Hcheck as [Hd].
    apply asc_In, filter_In. cbn [rows]. rewrite Hrows1.
    split; [apply in_or_app; right; now left|].
    unfold is_upcoming. rewrite andb_true_iff. split; [reflexivity|].
    destruct (use_postgres env).
    - now apply (window_pg_iff env (S (S (S (ticks w)))) minutes_ahead
                   cutoff past_cutoff row Hhor).
    - now apply window_sqlite_iff. }
  subst w'. unfold exec. rewrite Hrun, Hjoin. split.
  - cbn [tick] in Hsp |- *. rewrite Hsp. apply in_or_app. right.
    apply (in_map id) in Hin. exact Hin.
  - intros r Hr Hid.
    destruct (reach_preserves env (tick w1) _ Hinv2 Hreach)
      as ((_ & Hlo) & _).
    apply (lo_not_pending _ Hlo r Hr). cbn [tick] in Hsp |- *.
    rewrite Hsp, Hid.
    apply in_or_app. right. apply (in_map id) in Hin. exact Hin.
Qed.

Lemma imminent_invite_is_joined_witness :
  In (Some 2)
     (spawned_ids (events (exec (process_invite env_sqlite_dev invite_soon)
                                (world_of [meeting_A]))))
  /\ dt_sub (at_hm 9 1) (now_at env_sqlite_dev 2) = Ok (timedelta_minutes 1).
Proof.
  assert (Hm : inv_method invite_soon <> "CANCEL"%string) by discriminate.
  assert (Hurl : inv_join_url invite_soon <> EmptyString) by discriminate.
  assert (Hb : (join_before_minutes env_sqlite_dev + 1) * 60 <= 2 ^ 32)
    by (vm_compute; discriminate).
  assert (H2 : 0 <= timedelta_minutes 1
               < timedelta_minutes (join_before_minutes env_sqlite_dev + 1))
    by (vm_compute; split; [discriminate|reflexivity]).
  assert (H3 : due_sqlite env_sqlite_dev (now_at env_sqlite_dev 3)
                 (Aware (instant_hm 9 2) (fun _ => 0))
                 (Aware (instant_hm 8 50) (fun _ => 0))
                 (stored env_sqlite_dev
                    (meeting_of invite_soon (at_hm 9 1) "pending"
                                (now_at env_sqlite_dev 1))
                    2 "google_meet")).
  { left. split; do 2 eexists; (split; [reflexivity|]);
      (split; [reflexivity|]); vm_compute; discriminate. }
  split; [|reflexivity].
  exact (proj1 (imminent_invite_is_joined env_sqlite_dev invite_soon
                  (world_of [meeting_A]) (at_hm 9 1) (timedelta_minutes 1)
                  (Aware (instant_hm 9 2) (fun _ => 0))
                  (Aware (instant_hm 8 50) (fun _ => 0))
                  world_of_A_Inv Hm Hurl eq_refl eq_refl eq_refl
                  eq_refl Hb eq_refl (or_introl H2) eq_refl H3)).
Defined.

(* ================================================================== *)
(** * Further properties of the IDLE monitor *)

Lemma latest_snoc l u : latest (l ++ [u]) = Some u.
Proof. unfold latest. now rewrite rev_app_distr. Qed.

Lemma process_all_app a b st :
  Idle.process_all (a ++ b) st = Idle.process_all b (Idle.process_all a st).
Proof.
  revert st. induction a as [|u a IH]; intros st; [reflexivity|].
  cbn [app Idle.process_all]. apply IH.
Qed.

Lemma process_all_latest uids : forall st base,
  Idle.last_seen_uid st = latest base ->
  Idle.last_seen_uid (Idle.process_all uids st) = latest (base ++ uids).
Proof.
  induction uids as [|u rest IH]; intros st base Hb; cbn [Idle.process_all].
  - now rewrite app_nil_r.
  - rewrite (IH _ (base ++ [u])).
    + now rewrite <- app_assoc.
    + cbn. now rewrite latest_snoc.
Qed.

Lemma after_uid_at s pre todo :
  ~ In s pre -> Idle.after_uid s (pre ++ s :: todo) = Some todo.
Proof.
  induction pre as [|a pre IH]; intros Hn; cbn.
  - assert (E : str_eqb s s = true) by now apply str_eqb_eq.
    now rewrite E.
  - assert (E : str_eqb a s = false).
    { apply str_eqb_neq. intros ->. apply Hn. now left. }
    rewrite E. apply IH. intros H. apply Hn. now right.
Qed.

Lemma search_since_app a b today :
  Idle.search_since (a ++ b) today
  = Idle.search_since a today ++ Idle.search_since b today.
Proof. unfold Idle.search_since. now rewrite filter_app, map_app. Qed.

Lemma search_since_all box today :
  (forall m, In m box -> recent today m) ->
  Idle.search_since box today = map Idle.msg_uid box.
Proof.
  intros H. unfold Idle.search_since. f_equal.
  induction box as [|m box IH]; cbn; [reflexivity|].
  assert (E : (today - 1 <=? Idle.msg_day m) = true)
    by (apply Z.leb_le; apply H; now left).
  rewrite E. f_equal. apply IH. intros x Hx. apply H. now right.
Qed.

Lemma search_since_none box today :
  (forall m, In m box -> ~ recent today m) ->
  Idle.search_since box today = [].
Proof.
  intros H. unfold Idle.search_since.
  induction box as [|m box IH]; cbn; [reflexivity|].
  assert (E : (today - 1 <=? Idle.msg_day m) = false).
  { apply Z.leb_gt. specialize (H m (or_introl eq_refl)). unfold recent in H. lia. }
  rewrite E. apply IH. intros x Hx. apply H. now right.
Qed.

Lemma search_since_In box today u :
  In u (Idle.search_since box today) <->
  exists m, In m box /\ Idle.msg_uid m = u /\ recent today m.
Proof.
  unfold Idle.search_since, recent. rewrite in_map_iff. split.
  - intros (m & E & Hm). apply filter_In in Hm. destruct Hm as [Hm Hd].
    apply Z.leb_le in Hd. eauto.
  - intros (m & Hm & E & Hd). exists m. split; [exact E|].
    apply filter_In. split; [exact Hm|]. now apply Z.leb_le.
Qed.

Lemma search_since_sub box today u :
  In u (Idle.search_since box today) -> In u (map Idle.msg_uid box).
Proof.
  rewrite search_since_In. intros (m & Hm & <- & _). now apply in_map.
Qed.

Lemma NoDup_app_apart {A} (l1 l2 : list A) a :
  NoDup (l1 ++ l2) -> In a l1 -> ~ In a l2.
Proof.
  induction l1 as [|x l1 IH]; cbn; [tauto|].
  intros Hnd [->|Hin] H2; inversion Hnd as [|? ? Hn Hnd']; subst.
  - apply Hn. apply in_or_app. now right.
  - now apply IH.
Qed.

(** One calm wake-up handles exactly what waits. *)
Lemma calm_wake known waiting st today :
  in_step known waiting st ->
  (forall m, In m waiting -> recent today m) ->
  match rev known with
  | c :: _ => recent today c \/ forall m, In m known -> ~ recent today m
  | [] => True
  end ->
  Idle._process_new_messages (known ++ waiting) today (Idle.last_seen_uid st) st
  = Idle.process_all (map Idle.msg_uid waiting) st.
Proof.
  intros (Hcur & Hnd & Hne) Hwait Hcursor.
  unfold Idle._process_new_messages.
  rewrite search_since_app, (search_since_all waiting today Hwait), Hcur.
  destruct known as [|c k _] using rev_ind.
  - cbn [map latest rev Idle.search_since filter app].
    now destruct (map Idle.msg_uid waiting).
  - rewrite rev_app_distr in Hcursor. cbn [rev app] in Hcursor.
    rewrite map_app. cbn [map]. rewrite latest_snoc.
    rewrite !map_app in Hnd, Hne. cbn [map] in Hnd, Hne.
    assert (Hc : nonempty (Idle.msg_uid c) = true).
    { apply nonempty_true. intros E. apply Hne. rewrite <- E.
      apply in_or_app. left. apply in_or_app. right. now left. }
    destruct Hcursor as [Hin|Hout].
    + rewrite search_since_app.
      assert (E : Idle.search_since [c] today = [Idle.msg_uid c]).
      { apply search_since_all. intros m [<-|[]]. exact Hin. }
      rewrite E, <- app_assoc. cbn [app].
      assert (Eafter : Idle.after_uid (Idle.msg_uid c)
                         (Idle.search_since k today
                          ++ Idle.msg_uid c :: map Idle.msg_uid waiting)
                       = Some (map Idle.msg_uid waiting)).
      { apply after_uid_at. intros H. apply search_since_sub in H.
        rewrite <- app_assoc in Hnd. cbn [app] in Hnd.
        apply NoDup_remove_2 in Hnd. apply Hnd. apply in_or_app. now left. }
      destruct (Idle.search_since k today
                ++ Idle.msg_uid c :: map Idle.msg_uid waiting) as [|u0 us] eqn:E0.
      * now destruct (Idle.search_since k today).
      * now rewrite Hc, Eafter.
    + rewrite (search_since_none (k ++ [c]) today Hout). cbn [app].
      destruct (map Idle.msg_uid waiting) as [|u0 us] eqn:E0; [reflexivity|].
      rewrite Hc.
      assert (Eafter : Idle.after_uid (Idle.msg_uid c) (u0 :: us) = None).
      { apply after_uid_none.
        apply (NoDup_app_apart _ _ _ Hnd).
        apply in_or_app. right. now left. }
      now rewrite Eafter.
Qed.

Lemma calm_fold ds : forall rest box known waiting st,
  box = known ++ waiting ->
  in_step known waiting st ->
  calm known waiting (ds ++ rest) ->
  exists known' waiting' st',
    fold_left Idle.deliver ds (box, st) = (known' ++ waiting', st')
    /\ in_step known' waiting' st'
    /\ calm known' waiting' rest
    /\ Idle.processed st' ++ map Idle.msg_uid waiting'
       = Idle.processed st ++ map Idle.msg_uid waiting ++ arrivals ds
    /\ map Idle.msg_uid (known' ++ waiting')
       = map Idle.msg_uid (known ++ waiting) ++ arrivals ds.
Proof.
  induction ds as [|d ds IH]; intros rest box known waiting st -> Hin Hcalm.
  - exists known, waiting, st. cbn. rewrite !app_nil_r. auto.
  - destruct d as [m|today| | |u]; cbn [app calm] in Hcalm; try contradiction;
      cbn [fold_left arrivals].
    + change (Idle.deliver (known ++ waiting, st) (Idle.Arrive m))
        with ((known ++ waiting) ++ [m], st).
      destruct Hcalm as (Hne & Hfresh & Hcalm).
      destruct Hin as (Hcur & Hnd & Hnoempty).
      destruct (IH rest ((known ++ waiting) ++ [m]) known (waiting ++ [m]) st)
        as (known' & waiting' & st' & Hrun & Hin' & Hcalm' & Hp & Hu).
      * now rewrite app_assoc.
      * unfold in_step. rewrite app_assoc, map_app. cbn [map].
        split; [exact Hcur|]. split.
        -- apply NoDup_app. repeat split; auto.
           ++ repeat constructor. cbn. tauto.
           ++ intros a Ha [<-|[]]. contradiction.
        -- intros H. apply in_app_or in H.
           destruct H as [H|[H|[]]]; [contradiction|]. now apply Hne.
      * exact Hcalm.
      * exists known', waiting', st'. repeat split; try assumption; try apply Hin'.
        -- rewrite Hp, map_app. cbn [map]. now rewrite <- !app_assoc.
        -- rewrite Hu, app_assoc, !map_app. cbn [map]. now rewrite <- !app_assoc.
    + change (Idle.deliver (known ++ waiting, st) (Idle.Wake today))
        with (known ++ waiting,
              Idle._process_new_messages (known ++ waiting) today
                (Idle.last_seen_uid st) st).
      destruct Hcalm as (Hwait & Hcursor & Hcalm).
      rewrite (calm_wake known waiting st today Hin Hwait Hcursor).
      destruct Hin as (Hcur & Hnd & Hnoempty).
      destruct (IH rest (known ++ waiting) (known ++ waiting) []
                   (Idle.process_all (map Idle.msg_uid waiting) st))
        as (known' & waiting' & st' & Hrun & Hin' & Hcalm' & Hp & Hu).
      * now rewrite app_nil_r.
      * unfold in_step. rewrite app_nil_r. repeat split; try assumption.
        rewrite map_app. now apply process_all_latest.
      * exact Hcalm.
      * exists known', waiting', st'. repeat split; try assumption; try apply Hin'.
        -- rewrite Hp, process_all_processed. cbn [map app].
           now rewrite <- app_assoc.
        -- rewrite Hu, app_nil_r. reflexivity.
    + change (Idle.deliver (known ++ waiting, st) Idle.LoopError)
        with (known ++ waiting, st).
      apply (IH rest (known ++ waiting) known waiting st eq_refl Hin Hcalm).
Qed.

Lemma arrivals_app a b : arrivals (a ++ b) = arrivals a ++ arrivals b.
Proof.
  induction a as [|d a IH]; [reflexivity|].
  destruct d; cbn [app arrivals]; now rewrite IH.
Qed.

(** X8. While the connection is only ever re-established inside
    [_idle_loop], no message leaves the mailbox, and at each wake-up the
    messages not handled yet are within the [SINCE] window, as is the
    message the cursor names unless no message up to it is: after a wake-up
    the monitor has handled exactly the messages that arrived since [run]
    started, each once, in the order of arrival, and none of the messages
    that were there before. *)
Theorem calm_deliveries_handled_once (box0 : Idle.Mailbox)
        (ds : list Idle.Delivery) (today : Z) :
  NoDup (map Idle.msg_uid box0) ->
  ~ In EmptyString (map Idle.msg_uid box0) ->
  calm box0 [] (ds ++ [Idle.Wake today]) ->
  Idle.processed (snd (Idle.run box0 (ds ++ [Idle.Wake today]))) = arrivals ds
  /\ NoDup (arrivals ds)
  /\ forall u, In u (arrivals ds) -> ~ In u (map Idle.msg_uid box0).
Proof.
  intros Hnd Hne Hcalm. unfold Idle.run.
  assert (Hin0 : in_step box0 [] (Idle.mkMonitor (Idle._get_latest_uid box0) [])).
  { unfold in_step. rewrite app_nil_r. repeat split; auto. }
  destruct (calm_fold ds [Idle.Wake today] box0 box0 [] _
              (eq_sym (app_nil_r box0)) Hin0 Hcalm)
    as (known & waiting & st & Hrun & Hin & Hlast & Hp & Hu).
  rewrite fold_left_app. unfold Idle.Mailbox in *. rewrite Hrun.
  cbn [fold_left].
  change (Idle.deliver (known ++ waiting, st) (Idle.Wake today))
    with (known ++ waiting,
          Idle._process_new_messages (known ++ waiting) today
            (Idle.last_seen_uid st) st).
  cbn [calm] in Hlast. destruct Hlast as (Hwait & Hcursor & _).
  rewrite (calm_wake known waiting st today Hin Hwait Hcursor).
  cbn [snd]. rewrite process_all_processed, Hp. cbn [Idle.processed map app].
  split; [reflexivity|].
  destruct Hin as (_ & Hnd' & _). rewrite Hu, app_nil_r in Hnd'. split.
  - exact (NoDup_app_remove_l _ _ Hnd').
  - intros u Hu1 Hu0. exact (NoDup_app_apart _ _ _ Hnd' Hu0 Hu1).
Qed.

Lemma calm_deliveries_handled_once_witness :
  Idle.processed
    (snd (Idle.run old_mail
            ([Idle.Arrive (Idle.mkMessage "4" 0); Idle.Wake 0;
              Idle.Arrive (Idle.mkMessage "5" 1); Idle.LoopError;
              Idle.Wake 2;
              Idle.Arrive (Idle.mkMessage "6" 2)] ++ [Idle.Wake 2])))
  = ["4"; "5"; "6"]%string.
Proof.
  assert (Hnd : NoDup (map Idle.msg_uid old_mail)).
  { repeat constructor; cbn; intuition discriminate. }
  assert (Hne : ~ In EmptyString (map Idle.msg_uid old_mail)).
  { cbn. intuition discriminate. }
  assert (Hcalm : calm old_mail []
                    ([Idle.Arrive (Idle.mkMessage "4" 0); Idle.Wake 0;
                      Idle.Arrive (Idle.mkMessage "5" 1); Idle.LoopError;
                      Idle.Wake 2;
                      Idle.Arrive (Idle.mkMessage "6" 2)] ++ [Idle.Wake 2])).
  { unfold old_mail. cbn. unfold recent.
    split; [discriminate|]. split; [intuition discriminate|].
    split; [intros m [<-|[]]; cbn; lia|].
    split; [right; intros m [<-|[<-|[]]]; cbn; lia|].
    split; [discriminate|]. split; [intuition discriminate|].
    split; [intros m [<-|[]]; cbn; lia|].
    split; [right; intros m [<-|[<-|[<-|[]]]]; cbn; lia|].
    split; [discriminate|]. split; [intuition discriminate|].
    split; [intros m [<-|[]]; cbn; lia|].
    split; [left; cbn; lia|exact I]. }
  exact (proj1 (calm_deliveries_handled_once old_mail _ 2 Hnd Hne Hcalm)).
Defined.

(** ** A wake-up without new mail *)

Lemma search_since_later_nil box t1 t2 :
  t1 <= t2 -> Idle.search_since box t1 = [] -> Idle.search_since box t2 = [].
Proof.
  intros Ht H. apply search_since_none. intros m Hm Hr.
  assert (Hin : In (Idle.msg_uid m) (Idle.search_since box t1)).
  { apply search_since_In. exists m. unfold recent in *. repeat split; auto. lia. }
  rewrite H in Hin. exact Hin.
Qed.

Lemma search_since_cons a box today :
  Idle.search_since (a :: box) today
  = if today - 1 <=? Idle.msg_day a
    then Idle.msg_uid a :: Idle.search_since box today
    else Idle.search_since box today.
Proof.
  unfold Idle.search_since. cbn [filter]. now destruct (_ <=? _).
Qed.

(** The last message of one search is the last of a later one while it is
    within the window. *)
Lemma search_since_keeps_last box t1 t2 m : forall pre,
  NoDup (map Idle.msg_uid box) -> In m box -> t1 <= t2 -> recent t2 m ->
  Idle.search_since box t1 = pre ++ [Idle.msg_uid m] ->
  exists pre2, Idle.search_since box t2 = pre2 ++ [Idle.msg_uid m].
Proof.
  induction box as [|a box IH]; intros pre Hnd Hin Ht Hr Hs; [contradiction|].
  cbn [map] in Hnd. inversion Hnd as [|? ? Hfresh Hnd']; subst.
  rewrite search_since_cons in Hs |- *.
  assert (Hr1 : recent t1 m) by (unfold recent in *; lia).
  destruct Hin as [->|Hin].
  - assert (E1 : (t1 - 1 <=? Idle.msg_day m) = true) by now apply Z.leb_le.
    assert (E2 : (t2 - 1 <=? Idle.msg_day m) = true) by now apply Z.leb_le.
    rewrite E1 in Hs. rewrite E2.
    assert (Hnil : Idle.search_since box t1 = []).
    { destruct pre as [|p pre]; cbn [app] in Hs; inversion Hs as [[E]]; subst.
      - reflexivity.
      - exfalso. apply Hfresh. apply (search_since_sub box t1).
        match goal with H : Idle.search_since box t1 = _ |- _ => rewrite H end.
        apply in_or_app. right. now left. }
    rewrite (search_since_later_nil box t1 t2 Ht Hnil). now exists [].
  - assert (Hm1 : In (Idle.msg_uid m) (Idle.search_since box t1)).
    { apply search_since_In. now exists m. }
    assert (Hrec : forall pre', Idle.search_since box t1 = pre' ++ [Idle.msg_uid m] ->
                   exists pre2,
                     (if t2 - 1 <=? Idle.msg_day a
                      then Idle.msg_uid a :: Idle.search_since box t2
                      else Idle.search_since box t2) = pre2 ++ [Idle.msg_uid m]).
    { intros pre' Hs'. destruct (IH pre' Hnd' Hin Ht Hr Hs') as (pre2 & E).
      rewrite E. destruct (t2 - 1 <=? Idle.msg_day a);
        [now exists (Idle.msg_uid a :: pre2)|].
      now exists pre2. }
    destruct (t1 - 1 <=? Idle.msg_day a).
    + destruct pre as [|p pre]; cbn [app] in Hs; inversion Hs as [[E E']]; subst.
      * rewrite E' in Hm1. contradiction.
      * now apply (Hrec pre).
    + now apply (Hrec pre).
Qed.

(** After a wake-up the cursor names the last message of the search, if
    the search found any. *)
Lemma wake_cursor box st today :
  let st1 := Idle._process_new_messages box today (Idle.last_seen_uid st) st in
  (Idle.search_since box today = [] /\ st1 = st)
  \/ exists pre x, Idle.search_since box today = pre ++ [x]
                   /\ Idle.last_seen_uid st1 = Some x.
Proof.
  cbv zeta. unfold Idle._process_new_messages.
  destruct (Idle.search_since box today) as [|u0 us] eqn:E; [now left|].
  right.
  assert (Hl : u0 :: us <> []) by discriminate.
  destruct (exists_last Hl) as (pre & x & Ex). rewrite Ex.
  exists pre, x. split; [reflexivity|].
  assert (Hall : Idle.last_seen_uid (Idle.process_all (pre ++ [x]) st) = Some x).
  { rewrite process_all_app. reflexivity. }
  destruct (Idle.last_seen_uid st) as [s|] eqn:Hcur; [|exact Hall].
  destruct (nonempty s); [|exact Hall].
  destruct (Idle.after_uid s (pre ++ [x])) as [later|] eqn:Ea; [|exact Hall].
  apply after_uid_split in Ea. destruct Ea as (before & Eb & _).
  destruct later as [|y ys] using rev_ind.
  - apply app_inj_tail in Eb. destruct Eb as [_ ->]. exact Hcur.
  - clear IHys. rewrite process_all_app.
    change (before ++ s :: ys ++ [y]) with (before ++ (s :: ys) ++ [y]) in Eb.
    rewrite app_assoc in Eb. apply app_inj_tail in Eb.
    destruct Eb as [_ ->]. reflexivity.
Qed.

(** X9. A wake-up that follows a wake-up with no delivery in between (an
    IDLE timeout, say), on the same day or a later one, handles nothing and
    leaves the cursor where it is, whatever the cursor was before the first
    of the two: provided the UIDs of the mailbox are distinct and none is
    empty, and the message the cursor names after the first is still
    within the [SINCE] window of the second. *)
Theorem wake_without_new_mail (box : Idle.Mailbox) (st : Idle.Monitor)
        (t1 t2 : Z) :
  NoDup (map Idle.msg_uid box) ->
  ~ In EmptyString (map Idle.msg_uid box) ->
  t1 <= t2 ->
  let s1 := Idle.deliver (box, st) (Idle.Wake t1) in
  (forall m, In m box ->
             Idle.last_seen_uid (snd s1) = Some (Idle.msg_uid m) ->
             recent t2 m) ->
  Idle.deliver s1 (Idle.Wake t2) = s1.
Proof.
  intros Hnd Hne Ht s1. subst s1.
  change (Idle.deliver (box, st) (Idle.Wake t1))
    with (box, Idle._process_new_messages box t1 (Idle.last_seen_uid st) st).
  cbn [snd].
  pose proof (wake_cursor box st t1) as Hcases. cbv zeta in Hcases.
  set (st1 := Idle._process_new_messages box t1 (Idle.last_seen_uid st) st) in *.
  intros Hwin.
  change (Idle.deliver (box, st1) (Idle.Wake t2))
    with (box, Idle._process_new_messages box t2 (Idle.last_seen_uid st1) st1).
  f_equal. unfold Idle._process_new_messages.
  destruct Hcases as [(Hnil & _)|(pre & x & Hs & Hcur)].
  - now rewrite (search_since_later_nil box t1 t2 Ht Hnil).
  - assert (Hx : In x (Idle.search_since box t1))
      by (rewrite Hs; apply in_or_app; right; now left).
    apply search_since_In in Hx. destruct Hx as (m & Hm & <- & _).
    specialize (Hwin m Hm Hcur).
    destruct (search_since_keeps_last box t1 t2 m pre Hnd Hm Ht Hwin Hs)
      as (pre2 & Hs2).
    assert (Hnd2 : NoDup (Idle.search_since box t2)).
    { unfold Idle.search_since. now apply NoDup_map_filter. }
    rewrite Hs2 in Hnd2 |- *.
    assert (Hc : nonempty (Idle.msg_uid m) = true).
    { apply nonempty_true. intros E0. apply Hne. rewrite <- E0.
      now apply in_map. }
    assert (Eafter : Idle.after_uid (Idle.msg_uid m) (pre2 ++ [Idle.msg_uid m])
                     = Some []).
    { apply after_uid_at. apply NoDup_remove_2 in Hnd2.
      now rewrite app_nil_r in Hnd2. }
    destruct (pre2 ++ [Idle.msg_uid m]) as [|u0 us] eqn:E; [reflexivity|].
    rewrite Hcur, Hc, Eafter. reflexivity.
Qed.

Lemma wake_without_new_mail_witness :
  Idle.deliver (Idle.deliver (daily_mail, Idle.mkMonitor None []) (Idle.Wake 2))
               (Idle.Wake 3)
  = Idle.deliver (daily_mail, Idle.mkMonitor None []) (Idle.Wake 2)
  /\ Idle.processed
       (snd (Idle.deliver (daily_mail, Idle.mkMonitor None []) (Idle.Wake 2)))
     = ["2"; "3"]%string.
Proof.
  assert (Hnd : NoDup (map Idle.msg_uid daily_mail)).
  { repeat constructor; cbn; intuition discriminate. }
  assert (Hne : ~ In EmptyString (map Idle.msg_uid daily_mail)).
  { cbn. intuition discriminate. }
  assert (Ht : 2 <= 3) by lia.
  assert (Hwin : forall m, In m daily_mail ->
            Idle.last_seen_uid
              (snd (Idle.deliver (daily_mail, Idle.mkMonitor None [])
                                 (Idle.Wake 2)))
            = Some (Idle.msg_uid m) ->
            recent 3 m).
  { intros m [<-|[<-|[<-|[]]]] Hc; cbn in Hc; try discriminate Hc.
    unfold recent. cbn. lia. }
  split; [|reflexivity].
  exact (wake_without_new_mail daily_mail (Idle.mkMonitor None []) 2 3
           Hnd Hne Ht Hwin).
Defined.

(* ================================================================== *)
(** * Further properties of the queries and the parsers *)

(** ** The project of an address *)

Lemma before_at_split s p :
  before_at s = Some p ->
  (exists rest, s = (p ++ "@" ++ rest)%string)
  /\ forall c, In c (list_ascii_of_string p) -> c <> "@"%char.
Proof.
  revert p. induction s as [|c s IH]; intros p H; cbn in H; [discriminate|].
  destruct (Ascii.eqb c "@") eqn:E.
  - inversion H; subst. apply Ascii.eqb_eq in E. subst c. split.
    + now exists s.
    + intros c [].
  - destruct (before_at s) as [q|]; [|discriminate].
    inversion H; subst. destruct (IH q eq_refl) as ((rest & ->) & Hq). split.
    + now exists rest.
    + intros c' [<-|Hin]; [now apply Ascii.eqb_neq|now apply Hq].
Qed.

Lemma before_at_none s :
  before_at s = None -> forall c, In c (list_ascii_of_string s) -> c <> "@"%char.
Proof.
  induction s as [|c s IH]; intros H c' Hin; cbn in *; [contradiction|].
  destruct (Ascii.eqb c "@") eqn:E; [discriminate|].
  destruct (before_at s) as [q|]; [discriminate|].
  destruct Hin as [<-|Hin]; [now apply Ascii.eqb_neq|now apply IH].
Qed.

(** X10. The project taken from a recipient address is the text before the
    first [@]: the address is that text, an [@] and a rest, and the text
    holds no [@]; an address without [@] gives the project [unknown]. *)
Theorem project_is_local_part (to_address : string) :
  let p := _extract_project_from_address to_address in
  ((exists rest, to_address = (p ++ "@" ++ rest)%string)
   /\ forall c, In c (list_ascii_of_string p) -> c <> "@"%char)
  \/ (p = "unknown"%string
      /\ forall c, In c (list_ascii_of_string to_address) -> c <> "@"%char).
Proof.
  unfold _extract_project_from_address.
  destruct (before_at to_address) as [p|] eqn:E; cbn zeta.
  - left. now apply before_at_split.
  - right. split; [reflexivity|now apply before_at_none].
Qed.

(** ** The latest meetings *)

Lemma StronglySorted_app_parts {A} (R : A -> A -> Prop) l1 l2 :
  StronglySorted R (l1 ++ l2) ->
  StronglySorted R l1 /\ forall a b, In a l1 -> In b l2 -> R a b.
Proof.
  induction l1 as [|x l1 IH]; cbn; intros H.
  - split; [constructor|]. intros a b [].
  - inversion H as [|? ? Hs Hall]; subst. destruct (IH Hs) as [H1 H2].
    rewrite Forall_forall in Hall. split.
    + constructor; [exact H1|]. apply Forall_forall. intros y Hy.
      apply Hall. apply in_or_app. now left.
    + intros a b [<-|Ha] Hb.
      * apply Hall. apply in_or_app. now right.
      * now apply H2.
Qed.

(** X11. With a limit from 0 to 2^63 - 1 [list_all] answers the latest
    meetings: as many as the limit allows, descending by start time as the
    store sorts it - by instant under PostgreSQL, by ISO text under
    SQLite - and no stored meeting left out sorts after one that is
    listed. A negative limit down to -2^63 is refused by PostgreSQL and
    lists every meeting under SQLite. A limit that is no 64-bit integer is
    refused under both: by PostgreSQL, and by the driver of SQLite. *)
Theorem list_all_latest (env : Env) (limit : Z) (w : World) :
  (0 <= limit < 2 ^ 63 ->
   exists l rest,
     list_all env limit w = (Ok l, w)
     /\ List.length l = Nat.min (Z.to_nat limit) (List.length (rows w))
     /\ Permutation (rows w) (l ++ rest)
     /\ StronglySorted
          (fun a b => store_le env (start_time b) (start_time a)) l
     /\ forall a b, In a l -> In b rest ->
                    store_le env (start_time b) (start_time a))
  /\ (- 2 ^ 63 <= limit < 0 ->
      (use_postgres env = true -> list_all env limit w = (Raise DataError, w))
      /\ (use_postgres env = false ->
          exists l,
            list_all env limit w = (Ok l, w)
            /\ Permutation (rows w) l
            /\ StronglySorted
                 (fun a b => store_le env (start_time b) (start_time a)) l))
  /\ (limit < - 2 ^ 63 \/ 2 ^ 63 <= limit ->
      list_all env limit w
      = (Raise (if use_postgres env then DataError else OverflowError), w)).
Proof.
  unfold list_all, int64.
  set (sorted := desc env start_time (rows w)).
  assert (Hperm : Permutation (rows w) sorted) by apply order_by_perm.
  assert (Hs : StronglySorted
                 (fun a b => store_le env (start_time b) (start_time a)) sorted)
    by apply desc_sorted.
  split; [|split].
  - intros Hl. assert (E : (limit <? 0) = false) by (apply Z.ltb_ge; lia).
    assert (E1 : (- 2 ^ 63 <=? limit) = true) by (apply Z.leb_le; lia).
    assert (E2 : (limit <? 2 ^ 63) = true) by (apply Z.ltb_lt; lia).
    rewrite E, E1, E2. cbn [andb orb negb].
    exists (firstn (Z.to_nat limit) sorted), (skipn (Z.to_nat limit) sorted).
    rewrite firstn_skipn. split; [now destruct (use_postgres env)|].
    split; [rewrite length_firstn; now rewrite (Permutation_length Hperm)|].
    split; [exact Hperm|].
    rewrite <- (firstn_skipn (Z.to_nat limit) sorted) in Hs.
    apply StronglySorted_app_parts in Hs. exact Hs.
  - intros Hl. assert (E : (limit <? 0) = true) by (apply Z.ltb_lt; lia).
    assert (E1 : (- 2 ^ 63 <=? limit) = true) by (apply Z.leb_le; lia).
    assert (E2 : (limit <? 2 ^ 63) = true) by (apply Z.ltb_lt; lia).
    rewrite E, E1, E2. cbn [andb orb negb].
    split; intros ->; [reflexivity|].
    exists sorted. split; [reflexivity|]. split; [exact Hperm|exact Hs].
  - intros Hl.
    assert (E : (- 2 ^ 63 <=? limit) && (limit <? 2 ^ 63) = false).
    { apply andb_false_iff. destruct Hl as [Hl|Hl];
        [left; apply Z.leb_gt|right; apply Z.ltb_ge]; lia. }
    rewrite E. cbn [negb]. rewrite orb_true_r.
    now destruct (use_postgres env).
Qed.

Lemma list_all_latest_witness :
  list_all env_sqlite_dev 1 (world_of [meeting_A; due_meeting])
  = (Ok [meeting_A], world_of [meeting_A; due_meeting]).
Proof.
  assert (H : 0 <= 1 < 2 ^ 63) by (split; [lia|reflexivity]).
  destruct (proj1 (list_all_latest env_sqlite_dev 1
                     (world_of [meeting_A; due_meeting])) H)
    as (l & rest & E & _).
  rewrite E. vm_compute in E. inversion E. reflexivity.
Defined.

(** ** The platform of a join URL *)

Lemma prefix_iff n : forall h,
  String.prefix n h = true <-> exists post, h = (n ++ post)%string.
Proof.
  induction n as [|a n IH]; intros h.
  - split; [intros _; now exists h|intros _; now destruct h].
  - destruct h as [|b h]; cbn.
    + split; [discriminate|]. intros (post & E). discriminate.
    + destruct (Ascii.ascii_dec a b) as [->|Hne].
      * rewrite IH. split; intros (post & E); exists post.
        -- now rewrite E.
        -- now inversion E.
      * split; [discriminate|]. intros (post & E). inversion E. congruence.
Qed.

Lemma str_in_iff n h : str_in n h = true <-> contains n h.
Proof.
  unfold contains. split.
  - induction h as [|c h IH]; intros H.
    + change (str_in n EmptyString)
        with (if String.prefix n EmptyString then true else false) in H.
      destruct (String.prefix n EmptyString) eqn:E; [|discriminate].
      apply prefix_iff in E. destruct E as (post & E).
      exists EmptyString, post. exact E.
    + change (str_in n (String c h))
        with (if String.prefix n (String c h) then true else str_in n h) in H.
      destruct (String.prefix n (String c h)) eqn:E.
      * apply prefix_iff in E. destruct E as (post & E).
        exists EmptyString, post. exact E.
      * destruct (IH H) as (pre & post & ->).
        now exists (String c pre), post.
  - intros (pre & post & ->). induction pre as [|c pre IH]; cbn [append].
    + assert (E : String.prefix n (n ++ post) = true)
        by (apply prefix_iff; now exists post).
      destruct (n ++ post)%string as [|c0 s0].
      * change (str_in n EmptyString)
          with (if String.prefix n EmptyString then true else false).
        now rewrite E.
      * change (str_in n (String c0 s0))
          with (if String.prefix n (String c0 s0) then true else str_in n s0).
        now rewrite E.
    + change (str_in n (String c (pre ++ n ++ post)))
        with (if String.prefix n (String c (pre ++ n ++ post))
              then true else str_in n (pre ++ n ++ post)).
      destruct (String.prefix n _); [reflexivity|exact IH].
Qed.

(** X12. The platform detected for a join URL goes by the host names it
    contains, in this order of precedence: [meet.google.com], then
    [teams.microsoft.com], then [zoom.us]; a URL with none of them is
    [unknown]. *)
Theorem platform_by_host (url : string) :
  (contains "meet.google.com" url -> _detect_platform url = "google_meet"%string)
  /\ (~ contains "meet.google.com" url ->
      contains "teams.microsoft.com" url ->
      _detect_platform url = "teams"%string)
  /\ (~ contains "meet.google.com" url ->
      ~ contains "teams.microsoft.com" url ->
      contains "zoom.us" url ->
      _detect_platform url = "zoom"%string)
  /\ (~ contains "meet.google.com" url ->
      ~ contains "teams.microsoft.com" url ->
      ~ contains "zoom.us" url ->
      _detect_platform url = "unknown"%string).
Proof.
  unfold _detect_platform.
  destruct (str_in "meet.google.com" url) eqn:G;
    destruct (str_in "teams.microsoft.com" url) eqn:T;
    destruct (str_in "zoom.us" url) eqn:Z0;
    repeat match goal with
           | H : str_in _ _ = true |- _ => apply str_in_iff in H
           | H : str_in ?n ?h = false |- _ =>
               assert (~ contains n h)
                 by (intros Hc; apply str_in_iff in Hc; congruence);
               clear H
           end;
    repeat split; intros; try reflexivity; contradiction.
Qed.

Lemma platform_by_host_witness :
  _detect_platform "https://acme.zoom.us/j/123?from=teams.microsoft.com"
  = "teams"%string.
Proof.
  apply (proj1 (proj2 (platform_by_host
                         "https://acme.zoom.us/j/123?from=teams.microsoft.com"))).
  - intros H. apply str_in_iff in H. vm_compute in H. discriminate.
  - apply str_in_iff. reflexivity.
Defined.

(* ================================================================== *)
(** * What is never joined *)

Lemma step_keeps_settled env i w w' :
  Inv w -> step env w w' -> settled i w -> settled i w'.
Proof.
  intros [Hwf Hlo] Hstep ((x & Hx & Hid & Hs) & Hnot).
  destruct Hstep as [|ev Hev|m Hm|r Hr Hsr|m r Hr Hidr Hsr].
  - split; [exists x|]; auto.
  - split; [exists x; auto|].
    cbn [emit snd events]. rewrite spawned_ids_app.
    destruct ev; cbn in *; rewrite ?app_nil_r; tauto.
  - unfold add_meeting. destruct (key_exists _ _).
    + destruct (driver_eqb _ _); (split; [exists x|]; auto).
    + split; [|exact Hnot]. exists x. cbn [snd rows].
      split; [apply in_or_app; now left|auto].
  - split; [|exact Hnot]. cbn [update_status snd with_rows rows].
    exists (if id_matches (id r) x then set_status x "cancelled" else x).
    split; [unfold update_rows; apply in_map_iff; exists x; auto|].
    destruct (id_matches (id r) x); cbn; split; auto; discriminate.
  - rewrite trigger_join_eq. cbn [snd rows events].
    assert (Hne : id m <> i).
    { intros E. assert (r = x).
      { eapply NoDup_map_eq; [apply (wf_pk _ Hwf)|exact Hr|exact Hx|congruence]. }
      subst r. contradiction. }
    split.
    + exists (if id_matches (id m) x
              then set_status x (spawn_status
                                   (create_namespaced_job env
                                      (List.length (events w)) m))
              else x).
      split; [unfold update_rows; apply in_map_iff; exists x; auto|].
      destruct (id_matches (id m) x); cbn; split; auto.
      destruct (create_namespaced_job env _ m); discriminate.
    + cbn [events]. rewrite spawned_ids_app. intros H. apply in_app_or in H.
      destruct H as [H|[H|[]]]; [contradiction|]. now apply Hne.
Qed.

Lemma reach_keeps_settled env i w w' :
  reach env w w' -> Inv w -> settled i w -> settled i w'.
Proof.
  intros H. apply clos_rt_rt1n in H.
  induction H as [x|x y z Hstep _ IH]; intros Hinv Hs; [exact Hs|].
  apply IH.
  - now apply (step_preserves env x y).
  - now apply (step_keeps_settled env i x y).
Qed.

(** X13. The engine never joins what it has settled: for a record that is
    not pending (declined, missed, cancelled, ...) and has had no Job
    requested, no sequential run of the engine's operations requests one,
    and the record never becomes pending again. *)
Theorem settled_never_joined (env : Env) (ops : list op) (w : World)
        (r : Meeting) :
  Inv w ->
  In r (rows w) ->
  status r <> "pending"%string ->
  ~ In (id r) (spawned_ids (events w)) ->
  ~ In (id r) (spawned_ids (events (run_ops env ops w)))
  /\ forall x, In x (rows (run_ops env ops w)) -> id x = id r ->
               status x <> "pending"%string.
Proof.
  intros Hinv Hr Hs Hnot.
  assert (Hset : settled (id r) w) by (split; [exists r|]; auto).
  pose proof (run_ops_reach env ops w Hinv) as Hreach.
  destruct (reach_keeps_settled env (id r) w _ Hreach Hinv Hset)
    as ((x0 & Hx0 & Hid0 & Hs0) & Hnot').
  split; [exact Hnot'|].
  intros x Hx Hid.
  assert (Hwf : store_wf (run_ops env ops w))
    by (apply (reach_preserves env w _ Hinv Hreach)).
  assert (x = x0).
  { eapply NoDup_map_eq; [apply (wf_pk _ Hwf)|exact Hx|exact Hx0|congruence]. }
  now subst.
Qed.

Lemma settled_never_joined_witness :
  Inv (world_of [missed_A])
  /\ ~ In (Some 1)
          (spawned_ids (events (run_ops env0 [Scan; Ingest invite_soon; Scan]
                                        (world_of [missed_A])))).
Proof.
  assert (Hinv : Inv (world_of [missed_A])).
  { apply Inv_initial; [|reflexivity]. constructor; cbn.
    - lia.
    - repeat constructor. exists 1. split; [reflexivity|lia].
    - repeat constructor. cbn. tauto.
    - repeat constructor. cbn. tauto. }
  assert (Hs : status missed_A <> "pending"%string) by discriminate.
  split; [exact Hinv|].
  exact (proj1 (settled_never_joined env0 [Scan; Ingest invite_soon; Scan]
                  (world_of [missed_A]) missed_A Hinv (or_introl eq_refl) Hs
                  (fun H => H))).
Defined.

(* ================================================================== *)
(** * The join URL of an invitation *)

Lemma append_assoc_str (a b c : string) :
  ((a ++ b) ++ c = a ++ b ++ c)%string.
Proof. induction a as [|x a IH]; cbn; [reflexivity|now rewrite IH]. Qed.

Ltac str_assoc :=
  cbn [append]; rewrite ?append_assoc_str; cbn [append];
  rewrite ?append_assoc_str; reflexivity.

Lemma strip_iff lit : forall s r,
  strip lit s = Some r <-> s = (lit ++ r)%string.
Proof.
  induction lit as [|a lit IH]; intros s r; cbn.
  - split; [intros E; now inversion E|now intros ->].
  - destruct s as [|b s]; [split; discriminate|].
    destruct (Ascii.eqb_spec a b) as [->|Hne].
    + rewrite IH. split; [now intros ->|intros E; now inversion E].
    + split; [discriminate|]. intros E. inversion E. congruence.
Qed.

Lemma span_parts cls : forall s,
  s = (fst (span cls s) ++ snd (span cls s))%string.
Proof.
  induction s as [|c s IH]; cbn; [reflexivity|].
  destruct (cls c); [|reflexivity].
  destruct (span cls s) as [run tl]. cbn in *. now rewrite <- IH.
Qed.

Lemma re_search_sound pattern_at : forall text m,
  re_search pattern_at text = Some m ->
  exists pre s, text = (pre ++ s)%string /\ pattern_at s = Some m.
Proof.
  induction text as [|c text IH]; intros m; cbn.
  - destruct (pattern_at EmptyString) eqn:E; [|discriminate].
    intros H. inversion H. subst. now exists EmptyString, EmptyString.
  - destruct (pattern_at (String c text)) eqn:E.
    + intros H. inversion H. subst. now exists EmptyString, (String c text).
    + intros H. destruct (IH m H) as (pre & s & -> & Hs).
      now exists (String c pre), s.
Qed.

Lemma re_search_complete pattern_at s m : forall pre,
  pattern_at s = Some m ->
  exists m', re_search pattern_at (pre ++ s) = Some m'.
Proof.
  induction pre as [|c pre IH]; intros H; cbn [append].
  - exists m. destruct s; cbn; now rewrite H.
  - cbn. destruct (pattern_at (String c (pre ++ s))); eauto.
Qed.

Lemma meet_at_shape s m :
  meet_at s = Some m ->
  exists run post, m = ("https://meet.google.com/" ++ run)%string
                   /\ s = (m ++ post)%string.
Proof.
  unfold meet_at. destruct (strip _ s) as [r|] eqn:E; [|discriminate].
  apply strip_iff in E. pose proof (span_parts meet_char r) as Hr.
  destruct (span meet_char r) as [run tl]. cbn [fst snd] in Hr.
  destruct (nonempty run); [|discriminate]. intros H. inversion H. subst m.
  exists run, tl. split; [reflexivity|].
  rewrite E, Hr. str_assoc.
Qed.

Lemma teams_at_shape s m :
  teams_at s = Some m ->
  exists run post,
    m = ("https://teams.microsoft.com/l/meetup-join/" ++ run)%string
    /\ s = (m ++ post)%string.
Proof.
  unfold teams_at. destruct (strip _ s) as [r|] eqn:E; [|discriminate].
  apply strip_iff in E. pose proof (span_parts teams_char r) as Hr.
  destruct (span teams_char r) as [run tl]. cbn [fst snd] in Hr.
  destruct (nonempty run); [|discriminate]. intros H. inversion H. subst m.
  exists run, tl. split; [reflexivity|].
  rewrite E, Hr. str_assoc.
Qed.

Lemma zoom_at_shape s m :
  zoom_at s = Some m ->
  exists host num post,
    m = ("https://" ++ host ++ ".zoom.us/j/" ++ num)%string
    /\ s = (m ++ post)%string.
Proof.
  unfold zoom_at. destruct (strip "https://" s) as [r|] eqn:E; [|discriminate].
  apply strip_iff in E. pose proof (span_parts host_char r) as Hr.
  destruct (span host_char r) as [host r1]. cbn [fst snd] in Hr.
  destruct (nonempty host); [|discriminate].
  destruct (strip ".zoom.us/j/" r1) as [r2|] eqn:E1; [|discriminate].
  apply strip_iff in E1. pose proof (span_parts digit r2) as Hr2.
  destruct (span digit r2) as [num tl]. cbn [fst snd] in Hr2.
  destruct (nonempty num); [|discriminate]. intros H. inversion H. subst m.
  exists host, num, tl. split; [reflexivity|].
  rewrite E, Hr, E1, Hr2. str_assoc.
Qed.

Lemma known_platform (url : string) :
  contains "meet.google.com" url \/ contains "teams.microsoft.com" url
  \/ contains "zoom.us" url ->
  _detect_platform url <> "unknown"%string.
Proof.
  unfold _detect_platform. intros H.
  destruct (str_in "meet.google.com" url) eqn:G; [discriminate|].
  destruct (str_in "teams.microsoft.com" url) eqn:T; [discriminate|].
  destruct (str_in "zoom.us" url) eqn:Z0; [discriminate|].
  destruct H as [H|[H|H]]; apply str_in_iff in H; congruence.
Qed.

Lemma meet_link text m :
  re_search meet_at text = Some m ->
  join_link text m /\ contains "meet.google.com" m.
Proof.
  intros H. apply re_search_sound in H. destruct H as (pre & s & -> & H).
  apply meet_at_shape in H. destruct H as (run & post & Hm & ->).
  assert (C : contains "meet.google.com" m).
  { subst m. now exists "https://"%string, (String "/" run). }
  split; [|exact C]. split; [now exists pre, post|].
  split; [subst m; apply prefix_iff; eexists; reflexivity|now left].
Qed.

Lemma zoom_link text m :
  re_search zoom_at text = Some m -> join_link text m.
Proof.
  intros H. apply re_search_sound in H. destruct H as (pre & s & -> & H).
  apply zoom_at_shape in H. destruct H as (host & num & post & Hm & ->).
  split; [now exists pre, post|].
  split; [subst m; apply prefix_iff; eexists; reflexivity|].
  right; right. subst m.
  exists ("https://" ++ host ++ ".")%string, ("/j/" ++ num)%string.
  rewrite !append_assoc_str. reflexivity.
Qed.

Lemma teams_link text m :
  re_search teams_at text = Some m -> join_link text m.
Proof.
  intros H. apply re_search_sound in H. destruct H as (pre & s & -> & H).
  apply teams_at_shape in H. destruct H as (run & post & Hm & ->).
  split; [now exists pre, post|].
  split; [subst m; apply prefix_iff; eexists; reflexivity|].
  right; left. subst m.
  now exists "https://"%string, (String "/" ("l/meetup-join/" ++ run)).
Qed.

(** X14. The join URL extracted from the text of an invitation is either
    empty or a part of that text that starts with [https://] and for which
    [_detect_platform] never answers [unknown]. A text without [https://]
    gives the empty URL, and a text with a Google Meet link anywhere gives a
    URL detected as [google_meet], whatever other links stand before it. *)
Theorem extracted_url_platform (text : string) :
  let u := _extract_join_url text in
  (u <> EmptyString ->
   contains u text
   /\ String.prefix "https://" u = true
   /\ _detect_platform u <> "unknown"%string)
  /\ (~ contains "https://" text -> u = EmptyString)
  /\ (forall pre c post,
        text = (pre ++ "https://meet.google.com/" ++ String c post)%string ->
        meet_char c = true ->
        u <> EmptyString /\ _detect_platform u = "google_meet"%string).
Proof.
  cbn zeta. unfold _extract_join_url.
  assert (L : forall m, join_link text m ->
                m <> EmptyString /\ contains "https://" text
                /\ _detect_platform m <> "unknown"%string).
  { intros m (C & P & K). split; [intros ->; discriminate|].
    split; [|now apply known_platform].
    apply prefix_iff in P. destruct P as (q & ->).
    destruct C as (a & b & ->). exists a, (q ++ b)%string.
    now rewrite !append_assoc_str. }
  split; [|split].
  - intros Hu.
    destruct (re_search meet_at text) as [m|] eqn:G.
    { apply meet_link in G. destruct G as [J _].
      destruct (L m J) as (_ & _ & K). destruct J as (C & P & _). auto. }
    destruct (re_search zoom_at text) as [m|] eqn:Z0.
    { apply zoom_link in Z0.
      destruct (L m Z0) as (_ & _ & K). destruct Z0 as (C & P & _). auto. }
    destruct (re_search teams_at text) as [m|] eqn:T; [|congruence].
    apply teams_link in T.
    destruct (L m T) as (_ & _ & K). destruct T as (C & P & _). auto.
  - intros Hno.
    destruct (re_search meet_at text) as [m|] eqn:G.
    { apply meet_link in G. destruct G as [J _].
      destruct (L m J) as (_ & C & _). contradiction. }
    destruct (re_search zoom_at text) as [m|] eqn:Z0.
    { apply zoom_link in Z0. destruct (L m Z0) as (_ & C & _). contradiction. }
    destruct (re_search teams_at text) as [m|] eqn:T; [|reflexivity].
    apply teams_link in T. destruct (L m T) as (_ & C & _). contradiction.
  - intros pre c post -> Hc.
    assert (M : exists m, meet_at ("https://meet.google.com/" ++ String c post)
                          = Some m).
    { unfold meet_at.
      assert (E : strip "https://meet.google.com/"
                        ("https://meet.google.com/" ++ String c post)
                  = Some (String c post)) by (now apply strip_iff).
      rewrite E. cbn [span]. rewrite Hc.
      destruct (span meet_char post) as [run tl]. cbn. eauto. }
    destruct M as (m0 & M).
    destruct (re_search_complete meet_at _ m0 pre M) as (m & G).
    rewrite G. apply meet_link in G. destruct G as [J C].
    split; [apply (L m J)|].
    unfold _detect_platform. apply str_in_iff in C. now rewrite C.
Qed.

Lemma extracted_url_platform_witness :
  _detect_platform
    (_extract_join_url
       "Zoom https://acme.zoom.us/j/123 or https://meet.google.com/abc-defg-hij now")
  = "google_meet"%string.
Proof.
  apply (proj2 (proj2 (extracted_url_platform
    "Zoom https://acme.zoom.us/j/123 or https://meet.google.com/abc-defg-hij now"))
    "Zoom https://acme.zoom.us/j/123 or "%string "a"%char
    "bc-defg-hij now"%string); reflexivity.
Defined.
